(** * TS-graph classification and local stereochemistry of automol

    A shallow embedding of [automol/graph/base/_04class.py] and
    [automol/graph/base/_05ts.py].

    Conventions of the embedding:
    - an atom key is a Python [int], here a [Z];
    - a bond key is a [frozenset] of atom keys, here a [gset Z];
    - a [frozenset] or a [dict] that the code iterates over is handed over
      as the list of its elements in iteration order, a [dict] that is only
      looked up or returned is a [gmap];
    - a Python exception ends the call: every function that can raise
      returns a [result]. *)

From Stdlib Require Import ZArith QArith_base Lia Sorted.
From stdpp Require Import base option list sets gmap strings.

Open Scope Z_scope.

(** ** Python values and exceptions *)

Abbreviation AtomKey := Z (only parsing).
Abbreviation BondKey := (gset Z) (only parsing).

Inductive exn : Type :=
| ValueError
| KeyError
| IndexError
| StopIteration
| TypeError
| AssertionError (msg : string).

Inductive result (A : Type) : Type :=
| Ok (a : A)
| Raise (e : exn).

Arguments Ok {A} a.
Arguments Raise {A} e.

#[global] Instance result_ret : MRet result := @Ok.

#[global] Instance result_bind : MBind result :=
  λ A B f r, match r with Ok a => f a | Raise e => Raise e end.

#[global] Instance exn_eq_dec : EqDecision exn.
Proof. solve_decision. Defined.

#[global] Instance result_eq_dec {A} `{EqDecision A} : EqDecision (result A).
Proof. solve_decision. Defined.

Definition is_Ok {A} (r : result A) : Prop := ∃ a, r = Ok a.

(** [for x in l: acc = f(acc, x)], stopping at the first exception. *)
Fixpoint foldM {A B} (f : B → A → result B) (acc : B) (l : list A) : result B :=
  match l with
  | [] => Ok acc
  | x :: l' => acc' ← f acc x; foldM f acc' l'
  end.

(** [(x,) = s]: unpacking a set into one name needs exactly one element. *)
Definition unpack1 (s : gset Z) : result Z :=
  match elements s with
  | [x] => Ok x
  | _ => Raise ValueError
  end.

(** [assert c, msg] *)
Definition assert_ (c : bool) (msg : string) : result unit :=
  if c then Ok () else Raise (AssertionError msg).

(** [d[k]] on a dict *)
Definition getitem {V} (d : gmap Z V) (k : Z) : result V :=
  match d !! k with
  | Some v => Ok v
  | None => Raise KeyError
  end.

(** Truth value of a set: non-empty. *)
Definition truthy (s : gset Z) : bool := bool_decide (s ≠ ∅).

(** [next(iter(s))]: the first element of [s] in iteration order. *)
Definition next_iter (s : gset Z) : result Z :=
  match elements s with
  | x :: _ => Ok x
  | [] => Raise StopIteration
  end.

(** [seq.index(x)] *)
Fixpoint list_index {A} `{EqDecision A} (x : A) (l : list A) : option nat :=
  match l with
  | [] => None
  | y :: l' => if decide (x = y) then Some 0%nat else S <$> list_index x l'
  end.

(** [dct[k]] and [k in dct] on a dict kept as its list of items. *)
Fixpoint items_get {V} (k : Z) (items : list (Z * V)) : option V :=
  match items with
  | [] => None
  | (k', v) :: items' => if decide (k = k') then Some v else items_get k items'
  end.

(** [[f(x) for x in l]], stopping at the first exception. *)
Fixpoint mapR {A B} (f : A → result B) (l : list A) : result (list B) :=
  match l with
  | [] => Ok []
  | x :: l' => y ← f x; ys ← mapR f l'; Ok (y :: ys)
  end.

(** *** [sorted(l, key=f)]

    Python's sort is stable and compares keys with [<] only. *)
Section Sorting.
Context {A K : Type} (ltb : K → K → bool) (key : A → K).

Fixpoint insert_sorted (x : A) (l : list A) : list A :=
  match l with
  | [] => [x]
  | y :: l' => if ltb (key y) (key x) then y :: insert_sorted x l' else x :: y :: l'
  end.

Definition sorted (l : list A) : list A := foldr insert_sorted [] l.

End Sorting.

(** The key function may raise; Python evaluates it once per element
    before any comparison. *)
Definition sorted_partial {A K} (ltb : K → K → bool) (key : A → result K)
    (l : list A) : result (list A) :=
  ks ← mapR (λ x, k ← key x; Ok (k, x)) l;
  Ok (snd <$> sorted ltb fst ks).

(** Local priorities are integers, or [-numpy.inf]. *)
Inductive prio : Type :=
| NegInf
| Fin (z : Z).

#[global] Instance prio_eq_dec : EqDecision prio.
Proof. solve_decision. Defined.

Definition prio_ltb (p q : prio) : bool :=
  match p, q with
  | NegInf, NegInf => false
  | NegInf, Fin _ => true
  | Fin _, NegInf => false
  | Fin a, Fin b => bool_decide (a < b)
  end.

(** Modelled from the spec: [dict_.sort_value_(pri_dct,
    missing_val=-numpy.inf)], the priority of a neighbour key, a missing
    priority counting as minus infinity; [None] (an implicit hydrogen) is
    never a key of the dict. *)
Definition sort_value_ (pri_dct : gmap Z prio) (key : option Z) : prio :=
  match key with
  | Some k => default NegInf (pri_dct !! k)
  | None => NegInf
  end.

(** Modelled from the spec: [util.dict_.by_key], of which [substitutions]
    uses the restriction of a dict to a set of its own keys. *)
Definition by_key {V} (dct : gmap Z V) (keys : gset Z) : gmap Z V :=
  filter (λ kv, kv.1 ∈ keys) dct.

(** Modelled from the spec: [util.dict_.filter_by_value], the entries of a
    dict whose value passes the test. *)
Definition filter_by_value {K V} `{Countable K} (dct : gmap K V) (test : V → bool)
    : gmap K V :=
  filter (λ kv, test kv.2 = true) dct.

(** Modelled from the spec: [util.move_items_to_front], the items first,
    then the rest of the sequence in its order. *)
Definition move_items_to_front (seq items : list Z) : list Z :=
  items ++ filter (λ x, x ∉ items) seq.

(** Modelled from the spec: [util.is_even_permutation], whether reordering
    [seq1] into [seq2] takes an even number of transpositions: the parity of
    the number of pairs that the two sequences hold in opposite orders. *)
Definition position {A} `{EqDecision A} (l : list A) (x : A) : nat :=
  default (length l) (list_index x l).

Definition before {A} `{EqDecision A} (l : list A) (x y : A) : bool :=
  bool_decide (position l x < position l y)%nat.

Definition inverted {A} `{EqDecision A} (seq1 seq2 : list A) (p : A * A) : bool :=
  before seq1 p.1 p.2 && before seq2 p.2 p.1.

Definition inversions {A} `{EqDecision A} (seq1 seq2 : list A) : nat :=
  length (filter (λ p, inverted seq1 seq2 p = true) (list_prod seq1 seq1)).

Definition is_even_permutation {A} `{EqDecision A} (seq1 seq2 : list A) : bool :=
  Nat.even (inversions seq1 seq2).

(** The key of a stereo parity: an atom key or a bond key. *)
Abbreviation StereoKey := (Z + gset Z)%type (only parsing).

(** A rotation angle, [numpy.pi] or [4.0 * numpy.pi / 3.0]. *)
Inductive angle : Type :=
| angle_pi
| angle_4pi_3.

(** ** The graph query layer

    [_00core], [_02algo] and [_03kekule] are collaborators of the two
    modules; what the modules call of them is collected in one interface.
    Sets are returned in their iteration order, and so are the items of
    the dicts that the callers loop over. *)

Class GraphLayer (graph : Type) : Type := {
  ts_breaking_bond_keys : graph → list BondKey;
  ts_forming_bond_keys : graph → list BondKey;
  ts_reverse : graph → graph;
  ts_reactants_graph_without_stereo : graph → graph;
  without_dummy_atoms : graph → graph;
  tetrahedral_atom_keys : graph → gset Z;
  reacting_rings_bond_keys : graph → list (list BondKey);
  forming_rings_atom_keys : graph → list (list Z);
  atom_implicit_hydrogens : graph → gmap Z nat;
  local_stereo_priorities : graph → gmap Z prio;
  atom_neighbor_atom_keys : graph → Z → result (list Z);
  atoms_neighbor_atom_keys : graph → gmap Z (list Z);
  stereo_parities : graph → gmap StereoKey (option bool);
  bond_stereo_keys : graph → gset (gset Z);
  rigid_planar_bond_keys : graph → list BondKey;
  vinyl_radical_atom_bond_keys : graph → list (Z * BondKey);
  sigma_radical_atom_bond_keys : graph → gmap Z BondKey;
  ts_reacting_atom_keys : graph → gset Z;
  ts_transferring_atoms : graph → gmap Z (Z * Z);
  bond_stereo_sorted_neighbor_keys :
    graph → Z → Z → gmap Z prio → result (list (option Z) * list (option Z));
}.

(** ** [_04class]: reaction site classification *)

(** The result of [eliminations]: elimination bond ↦ (leaving atom 1,
    leaving atom 2, forming bond or [None]). *)
Abbreviation elim_dict := (gmap (gset Z) (Z * Z * option (gset Z))) (only parsing).

Section Classifier.
Context {graph : Type} `{GraphLayer graph}.

(** *** [atom_transfers] *)

(** The body of the loop over [itertools.product(brk_bkeys, frm_bkeys)]. *)
Definition atom_transfers_step (tra_dct : gmap Z (Z * Z)) (p : BondKey * BondKey)
    : result (gmap Z (Z * Z)) :=
  let '(brk_bkey, frm_bkey) := p in
  if truthy (brk_bkey ∩ frm_bkey) then
    tra_key ← unpack1 (brk_bkey ∩ frm_bkey);
    don_key ← unpack1 (brk_bkey ∖ frm_bkey);
    acc_key ← unpack1 (frm_bkey ∖ brk_bkey);
    Ok (<[tra_key := (don_key, acc_key)]> tra_dct)
  else Ok tra_dct.

Definition atom_transfers (tsg : graph) : result (gmap Z (Z * Z)) :=
  let brk_bkeys := ts_breaking_bond_keys tsg in
  let frm_bkeys := ts_forming_bond_keys tsg in
  foldM atom_transfers_step ∅ (list_prod brk_bkeys frm_bkeys).

(** *** [substitutions] *)

Definition substitutions (tsg : graph) : result (gmap Z (Z * Z)) :=
  tra_dct ← atom_transfers tsg;
  let tra_keys := dom tra_dct in
  let tet_keys := tetrahedral_atom_keys tsg in
  let subst_keys := tra_keys ∩ tet_keys in
  Ok (by_key tra_dct subst_keys).

(** *** [eliminations] *)

(** [pool & rng_bkeys] on frozensets of bond keys, in the order of the pool. *)
Definition bkeys_inter (pool rng_bkeys : list BondKey) : list BondKey :=
  filter (λ bk, bk ∈ rng_bkeys) pool.

Definition is_elimination_bkey (brk_bkeys frm_bkeys : list BondKey) (bkey : BondKey)
    : bool :=
  forallb (λ bk, truthy (bkey ∩ bk)) brk_bkeys && bool_decide (bkey ∉ frm_bkeys).

Definition common_atom (bkey1 bkey2 : BondKey) : result Z :=
  next_iter (bkey1 ∩ bkey2).

(** The body of the loop over the reacting rings. *)
Definition eliminations_step (brk_bkeys_pool frm_bkeys_pool : list BondKey)
    (elim_dct : elim_dict) (rng_bkeys : list BondKey) : result elim_dict :=
  let brk_bkeys := bkeys_inter brk_bkeys_pool rng_bkeys in
  let frm_bkeys := bkeys_inter frm_bkeys_pool rng_bkeys in
  if bool_decide (length brk_bkeys = 2%nat) then
    match head (filter (λ bk, is_elimination_bkey brk_bkeys frm_bkeys bk = true) rng_bkeys) with
    | Some bkey =>
        srt ← sorted_partial (λ a b : Z, bool_decide (a < b)) (common_atom bkey) brk_bkeys;
        match srt with
        | [brk_bkey1; brk_bkey2] =>
            lea_key1 ← unpack1 (brk_bkey1 ∖ bkey);
            lea_key2 ← unpack1 (brk_bkey2 ∖ bkey);
            _ ← assert_ (bool_decide (length frm_bkeys ≤ 1)%nat)
                  "Unexpected multiple forming bonds:{tsg}";
            let frm_bkey := head frm_bkeys in
            Ok (<[bkey := (lea_key1, lea_key2, frm_bkey)]> elim_dct)
        | _ => Raise ValueError
        end
    | None => Ok elim_dct
    end
  else Ok elim_dct.

Definition eliminations (tsg : graph) : result elim_dict :=
  let brk_bkeys_pool := ts_breaking_bond_keys tsg in
  let frm_bkeys_pool := ts_forming_bond_keys tsg in
  let rng_bkeys_lst := reacting_rings_bond_keys tsg in
  foldM (eliminations_step brk_bkeys_pool frm_bkeys_pool) ∅ rng_bkeys_lst.

(** *** [insertions] *)

Definition insertions (tsg : graph) : result elim_dict :=
  eliminations (ts_reverse tsg).

(** *** [atom_stereo_sorted_neighbor_keys] *)

Definition atom_stereo_sorted_neighbor_keys (gra : graph) (key : Z)
    (self_apex : bool) (pri_dct : option (gmap Z prio)) : result (list (option Z)) :=
  let gra := without_dummy_atoms gra in
  let nhyd_dct := atom_implicit_hydrogens gra in
  let pri_dct := match pri_dct with
                 | None => local_stereo_priorities gra
                 | Some d => d
                 end in
  subst_dct ← substitutions gra;
  let gra := if bool_decide (key ∈ dom subst_dct)
             then ts_reactants_graph_without_stereo gra else gra in
  nkeys ← atom_neighbor_atom_keys gra key;
  nhyd ← getitem nhyd_dct key;
  let nkeys := (Some <$> nkeys) ++ replicate nhyd None in
  let nkeys := sorted prio_ltb (sort_value_ pri_dct) nkeys in
  if self_apex && bool_decide (length nkeys < 4)%nat then
    _ ← assert_ (bool_decide (length nkeys = 3%nat)) EmptyString;
    Ok (Some key :: nkeys)
  else Ok nkeys.

End Classifier.

(** ** [_05ts]: local stereochemistry of TS graphs

    [_05ts] takes [atom_transfers], [substitution_atom_transfers],
    [atom_stereo_sorted_neighbor_keys] and [bond_stereo_sorted_neighbor_keys]
    from [_00core]. The first and the third are the functions of that name in
    [_04class]; the second is the substitution map of [_04class]
    ([substitutions]); the last one is a function of the query layer. *)

Section TS.
Context {graph : Type} `{GraphLayer graph}.

Definition substitution_atom_transfers (tsg : graph) : result (gmap Z (Z * Z)) :=
  substitutions tsg.

(** *** [sn2_local_stereo_reversal_flips] *)

Definition sn2_flip_step (tsg : graph) (rflip_dct : gmap Z bool)
    (item : Z * (Z * Z)) : result (gmap Z bool) :=
  let '(tra_key, (don_key, acc_key)) := item in
  nks0 ← atom_stereo_sorted_neighbor_keys tsg tra_key false None;
  i ← match list_index (Some don_key) nks0 with
      | Some i => Ok i
      | None => Raise ValueError
      end;
  let nks0 := <[i := Some acc_key]> nks0 in
  nks1 ← atom_stereo_sorted_neighbor_keys (ts_reverse tsg) tra_key false None;
  Ok (<[tra_key := is_even_permutation nks0 nks1]> rflip_dct).

(** The sites are visited in the order of [map_to_list]; each site writes
    its own key, so that the order decides nothing but which exception comes
    first. *)
Definition sn2_local_stereo_reversal_flips (tsg : graph) : result (gmap Z bool) :=
  subst_dct ← substitution_atom_transfers tsg;
  foldM (sn2_flip_step tsg) ∅ (map_to_list subst_dct).

(** *** [constrained_1_2_insertion_local_parities] *)

(** [loc_par_dct[k]], a parity that is not [None]. *)
Definition parity_getitem (loc_par_dct : gmap StereoKey (option bool)) (k : StereoKey)
    : result bool :=
  match loc_par_dct !! k with
  | Some (Some p) => Ok p
  | Some None => Raise TypeError
  | None => Raise KeyError
  end.

(** [next(k for k in frm_bkeys if key in k)] *)
Definition next_bond_with (frm_bkeys : list BondKey) (key : Z) : result BondKey :=
  match head (filter (λ k, key ∈ k) frm_bkeys) with
  | Some k => Ok k
  | None => Raise StopIteration
  end.

(** [sorted(nkeys, key=loc_pri_dct.__getitem__)] *)
Definition sorted_by_priority (loc_pri_dct : gmap Z prio) (nkeys : list Z)
    : result (list Z) :=
  sorted_partial prio_ltb (getitem loc_pri_dct) nkeys.

Definition constrained_step (loc_tsg : graph) (par_dct : gmap (gset Z) bool)
    (bkey : BondKey) : result (gmap (gset Z) bool) :=
  let loc_par_dct := filter_by_value (stereo_parities loc_tsg) (λ x, bool_decide (is_Some x)) in
  let loc_pri_dct := local_stereo_priorities loc_tsg in
  let nkeys_dct := atoms_neighbor_atom_keys loc_tsg in
  let frm_bkeys := ts_forming_bond_keys loc_tsg in
  let rkeys_lst := (list_to_set <$> forming_rings_atom_keys loc_tsg : list (gset Z)) in
  if forallb (λ k, bool_decide (is_Some (loc_par_dct !! (inl k : StereoKey)))) (elements bkey) then
    match elements bkey with
    | [key1; key2] =>
        frm1 ← next_bond_with frm_bkeys key1;
        key0 ← unpack1 (frm1 ∖ {[ key1 ]});
        frm2 ← next_bond_with frm_bkeys key2;
        key3 ← unpack1 (frm2 ∖ {[ key2 ]});
        let keys : gset Z := {[ key0; key1; key2; key3 ]} in
        if existsb (λ rkeys, truthy (keys ∩ rkeys)) rkeys_lst then
          p_a1 ← parity_getitem loc_par_dct (inl key1);
          p_a2 ← parity_getitem loc_par_dct (inl key2);
          nk1 ← getitem nkeys_dct key1;
          nk1s ← sorted_by_priority loc_pri_dct nk1;
          nk2 ← getitem nkeys_dct key2;
          nk2s ← sorted_by_priority loc_pri_dct nk2;
          let srt_nk1s := move_items_to_front nk1s [key2; key0] in
          let srt_nk2s := move_items_to_front nk2s [key1; key3] in
          let p_1 := is_even_permutation nk1s srt_nk1s in
          let p_2 := is_even_permutation nk2s srt_nk2s in
          let p_b12 := negb (xorb (negb (xorb p_a1 p_1)) (negb (xorb p_a2 p_2))) in
          Ok (<[bkey := p_b12]> par_dct)
        else Ok par_dct
    | _ => Raise ValueError
    end
  else Ok par_dct.

Definition constrained_1_2_insertion_local_parities (loc_tsg : graph)
    : result (gmap (gset Z) bool) :=
  let gra := ts_reactants_graph_without_stereo loc_tsg in
  foldM (constrained_step loc_tsg) ∅ (rigid_planar_bond_keys gra).

(** *** [vinyl_addition_local_parities] *)

Definition vinyl_step (loc_tsg : graph) (par_dct : gmap (gset Z) bool)
    (item : Z * BondKey) : result (gmap (gset Z) bool) :=
  let '(vin_akey, vin_bkey) := item in
  let ste_bkeys := bond_stereo_keys loc_tsg in
  let loc_par_dct := filter_by_value (stereo_parities loc_tsg) (λ x, bool_decide (is_Some x)) in
  let loc_pri_dct := local_stereo_priorities loc_tsg in
  let gra := ts_reactants_graph_without_stereo loc_tsg in
  if bool_decide (vin_bkey ∈ ste_bkeys) then
    par ← parity_getitem loc_par_dct (inr vin_bkey);
    vin_nkey ← unpack1 (vin_bkey ∖ {[ vin_akey ]});
    '(nkeys_ts, _) ← bond_stereo_sorted_neighbor_keys loc_tsg vin_akey vin_nkey loc_pri_dct;
    '(nkeys_r, _) ← bond_stereo_sorted_neighbor_keys gra vin_akey vin_nkey loc_pri_dct;
    match last nkeys_r with
    | None => Ok par_dct
    | Some top_r =>
        match last nkeys_ts with
        | None => Raise IndexError
        | Some top_ts =>
            if bool_decide (top_r ≠ top_ts)
            then Ok (<[vin_bkey := negb par]> par_dct)
            else Ok par_dct
        end
    end
  else Ok par_dct.

Definition vinyl_addition_local_parities (loc_tsg : graph)
    : result (gmap (gset Z) bool) :=
  let gra := ts_reactants_graph_without_stereo loc_tsg in
  let vin_dct := vinyl_radical_atom_bond_keys gra in
  foldM (vinyl_step loc_tsg) ∅ vin_dct.

(** *** [ts_reacting_electron_direction] *)

Abbreviation direction :=
  (option (Z * Z) * option (Z * Z) * option angle)%type (only parsing).

Definition ts_reacting_electron_direction (tsg : graph) (key : Z) : result direction :=
  _ ← assert_ (bool_decide (key ∈ ts_reacting_atom_keys tsg))
        "Atom {key} is not a reacting atom:{tsg}";
  let rcts_gra := ts_reactants_graph_without_stereo tsg in
  let tra_dct := ts_transferring_atoms tsg in
  let nkeys_dct := atoms_neighbor_atom_keys rcts_gra in
  let vin_dct := vinyl_radical_atom_bond_keys rcts_gra in
  let sig_dct := sigma_radical_atom_bond_keys rcts_gra in
  match tra_dct !! key with
  | Some (dkey, _) => Ok (Some (key, dkey), None, Some angle_pi)
  | None =>
      match items_get key vin_dct with
      | Some vin_bkey =>
          opp_key ← unpack1 (vin_bkey ∖ {[ key ]});
          nkeys ← getitem nkeys_dct key;
          let nkey := head (filter (λ k, k ∉ [key; opp_key]) nkeys) in
          Ok (Some (key, opp_key), pair key <$> nkey, Some angle_4pi_3)
      | None =>
          match sig_dct !! key with
          | Some sig_bkey =>
              nkey ← unpack1 (sig_bkey ∖ {[ key ]});
              Ok (Some (key, nkey), None, Some angle_pi)
          | None => Ok (None, None, None)
          end
      end
  end.

End TS.

(** ** Further collaborators

    What the remaining functions of the two modules call of [_00core] and
    [_02algo]. [ts_reactants_graph_without_stereo_dummy] is
    [ts_reactants_graph_without_stereo] called with [dummy=True]; a bond
    order is a decimal fraction. *)

Class GraphLayerExt (graph : Type) : Type := {
  is_ts_graph : graph → bool;
  atom_keys : graph → gset Z;
  ts_reagents_graphs_without_stereo : graph → list graph;
  ts_reactants_graph_without_stereo_dummy : graph → graph;
  bond_neighbor_atom_keys : graph → Z → Z → result (gset Z * gset Z);
  without_bonds_by_orders : graph → list Q → graph;
  vinyl_center_candidates : graph → Z → list (Z * BondKey);
  sort_by_size : list graph → list graph;
  has_reacting_ring : graph → bool;
  is_bimolecular : graph → bool;
  connected_components : graph → list graph;
}.

(** [sorted(l, key=f, reverse=True)]: the list is reversed, sorted and
    reversed again, which keeps the order of equal keys. For keys that [<]
    does not order totally, the outcome on three or more elements depends on
    the sorting algorithm; on up to two elements it does not. *)
Definition sorted_reverse {A K} (ltb : K → K → bool) (key : A → K) (l : list A)
    : list A :=
  reverse (sorted ltb key (reverse l)).

Section More.
Context {graph : Type} `{GraphLayer graph} `{GraphLayerExt graph}.

(** *** [vinyl_addition_candidates] *)

(** The body of the loop over the vinyl centre candidates. *)
Definition vinyl_addition_candidates_step (frm_bkeys : list BondKey)
    (vin_add_dct : gmap (gset Z) (Z * Z)) (item : Z * BondKey)
    : result (gmap (gset Z) (Z * Z)) :=
  let '(key, bkey) := item in
  match head (filter (λ bk, key ∈ bk) frm_bkeys) with
  | Some frm_bkey =>
      ent_key ← unpack1 (frm_bkey ∖ {[ key ]});
      Ok (<[bkey := (key, ent_key)]> vin_add_dct)
  | None => Ok vin_add_dct
  end.

Definition vinyl_addition_candidates (tsg : graph) (min_ncount : Z)
    : result (gmap (gset Z) (Z * Z)) :=
  let rcts_gra := ts_reactants_graph_without_stereo tsg in
  let frm_bkeys := ts_forming_bond_keys tsg in
  let vin_dct := vinyl_center_candidates rcts_gra min_ncount in
  foldM (vinyl_addition_candidates_step frm_bkeys) ∅ vin_dct.

(** *** [zmatrix_sorted_reactants_keys] *)

Definition zmatrix_sorted_reactants_keys (tsg : graph) : result (option (list (list Z))) :=
  if negb (is_ts_graph tsg) || has_reacting_ring tsg || negb (is_bimolecular tsg)
  then Ok None
  else
    let rcts_gra := ts_reactants_graph_without_stereo_dummy tsg in
    let rct_gras := connected_components rcts_gra in
    tra_dct ← atom_transfers tsg;
    let tra_keys := dom tra_dct in
    let rct_gras :=
      if truthy tra_keys
      then sorted_reverse (λ a b : gset Z, bool_decide (a ⊂ b))
             (λ g, atom_keys g ∩ tra_keys) rct_gras
      else sort_by_size rct_gras in
    Ok (Some ((λ g, sorted (λ a b : Z, bool_decide (a < b)) id (elements (atom_keys g)))
              <$> rct_gras)).

End More.

(** *** [bond_stereo_sorted_neighbor_keys]

    The function of [_04class] of that name, which the module marks as
    deprecated. A warning is an effect of its own: the function gives the
    warnings it issues along with its result or exception. *)

Module Deprecated.
Section Deprecated.
Context {graph : Type} `{GraphLayer graph} `{GraphLayerExt graph}.

(** The body of the loop over the reactants and products. *)
Definition collect_step (key1 key2 : Z) (acc : gset Z * gset Z) (gra_ : graph)
    : result (gset Z * gset Z) :=
  let tet_keys := tetrahedral_atom_keys gra_ in
  if bool_decide (key1 ∉ tet_keys) && bool_decide (key2 ∉ tet_keys) then
    '(nkeys1_, nkeys2_) ← bond_neighbor_atom_keys gra_ key1 key2;
    Ok (acc.1 ∪ nkeys1_, acc.2 ∪ nkeys2_)
  else Ok acc.

(** The neighbour lists before the check on their lengths. *)
Definition collect_neighbor_keys (gra : graph) (key1 key2 : Z)
    : result (list (option Z) * list (option Z)) :=
  let nhyd_dct := atom_implicit_hydrogens gra in
  let gras := if is_ts_graph gra then ts_reagents_graphs_without_stereo gra else [gra] in
  '(nkeys1, nkeys2) ← foldM (collect_step key1 key2) (∅, ∅) gras;
  nhyd1 ← getitem nhyd_dct key1;
  let nkeys1 := (Some <$> elements nkeys1) ++ replicate nhyd1 None in
  nhyd2 ← getitem nhyd_dct key2;
  let nkeys2 := (Some <$> elements nkeys2) ++ replicate nhyd2 None in
  Ok (nkeys1, nkeys2).

(** The patch for more than two neighbours on a side. *)
Definition fallback_neighbor_keys (gra : graph) (key1 key2 : Z)
    : result (list (option Z) * list (option Z)) :=
  let nhyd_dct := atom_implicit_hydrogens gra in
  let gra_ := without_bonds_by_orders gra [1 # 10; 9 # 10]%Q in
  '(nkeys1, nkeys2) ← bond_neighbor_atom_keys gra_ key1 key2;
  nhyd1 ← getitem nhyd_dct key1;
  let nkeys1 := (Some <$> elements nkeys1) ++ replicate nhyd1 None in
  nhyd2 ← getitem nhyd_dct key2;
  let nkeys2 := (Some <$> elements nkeys2) ++ replicate nhyd2 None in
  Ok (nkeys1, nkeys2).

Definition unusual_neighbors_warning : string :=
  "Unusual neighbor configuration at bond {key1}-{key2} may result in incorrect bond stereochemistry handling for this graph:{gra}".

Definition bond_stereo_sorted_neighbor_keys (gra : graph) (key1 key2 : Z)
    (pri_dct : option (gmap Z prio))
    : list string * result (list (option Z) * list (option Z)) :=
  let gra := without_dummy_atoms gra in
  let pri_dct := match pri_dct with
                 | None => local_stereo_priorities gra
                 | Some d => d
                 end in
  let sort_both (nkeys : list (option Z) * list (option Z)) :=
    (sorted prio_ltb (sort_value_ pri_dct) nkeys.1,
     sorted prio_ltb (sort_value_ pri_dct) nkeys.2) in
  match collect_neighbor_keys gra key1 key2 with
  | Raise e => ([], Raise e)
  | Ok nkeys =>
      if bool_decide (2 < length nkeys.1)%nat || bool_decide (2 < length nkeys.2)%nat
      then ([unusual_neighbors_warning],
            nkeys' ← fallback_neighbor_keys gra key1 key2; Ok (sort_both nkeys'))
      else ([], Ok (sort_both nkeys))
  end.

End Deprecated.
End Deprecated.

(** ** A reference graph

    Modelled from the spec: the graph value of [_00core], which is not part
    of the two modules. A TS graph holds its atoms with their implicit
    hydrogen counts and its bonds, each static, breaking or forming; the
    reactants view drops the forming bonds and keeps the breaking ones, the
    reversed graph swaps the two roles. What the spec leaves to the query
    layer (priorities, tetrahedral atoms, rings, radical sites) is tabulated
    in the graph. The worked scenarios are stated on such graphs. *)

Inductive bond_kind : Type :=
| Static
| Breaking
| Forming.

#[global] Instance bond_kind_eq_dec : EqDecision bond_kind.
Proof. solve_decision. Defined.

Record tsgraph : Type := TSGraph {
  tg_nhyd : gmap Z nat;
  tg_bonds : list (gset Z * bond_kind);
  tg_pri : gmap Z prio;
  tg_tet : gset Z;
  tg_rings : list (list (gset Z));
  tg_frings : list (list Z);
  tg_par : gmap (Z + gset Z) (option bool);
  tg_rigid : list (gset Z);
  tg_vinyl : list (Z * gset Z);
  tg_sigma : gmap Z (gset Z);
  tg_transfers : gmap Z (Z * Z);
}.

Definition tg_bonds_of_kind (k : bond_kind) (g : tsgraph) : list (gset Z) :=
  fst <$> filter (λ b, b.2 = k) (tg_bonds g).

Definition swap_kind (k : bond_kind) : bond_kind :=
  match k with
  | Static => Static
  | Breaking => Forming
  | Forming => Breaking
  end.

Definition tg_with_bonds (bonds : list (gset Z * bond_kind)) (g : tsgraph) : tsgraph :=
  TSGraph (tg_nhyd g) bonds (tg_pri g) (tg_tet g) (tg_rings g) (tg_frings g)
    (tg_par g) (tg_rigid g) (tg_vinyl g) (tg_sigma g) (tg_transfers g).

Definition tg_reverse (g : tsgraph) : tsgraph :=
  tg_with_bonds (prod_map id swap_kind <$> tg_bonds g) g.

Definition tg_reactants (g : tsgraph) : tsgraph :=
  let bonds := prod_map id (λ _, Static) <$> filter (λ b, b.2 ≠ Forming) (tg_bonds g) in
  TSGraph (tg_nhyd g) bonds (tg_pri g) (tg_tet g) (tg_rings g) (tg_frings g)
    ((λ _, None) <$> tg_par g) (tg_rigid g) (tg_vinyl g) (tg_sigma g) (tg_transfers g).

Definition tg_neighbors (g : tsgraph) (key : Z) : list Z :=
  b ← tg_bonds g; if bool_decide (key ∈ b.1) then elements (b.1 ∖ {[ key ]}) else [].

Definition tg_atom_neighbors (g : tsgraph) (key : Z) : result (list Z) :=
  if bool_decide (key ∈ dom (tg_nhyd g)) then Ok (tg_neighbors g key) else Raise KeyError.

Definition tg_reacting_atoms (g : tsgraph) : gset Z :=
  ⋃ (tg_bonds_of_kind Breaking g ++ tg_bonds_of_kind Forming g).

Definition tg_bond_stereo_keys (g : tsgraph) : gset (gset Z) :=
  list_to_set (omap (λ kv, match kv with
                           | (inr bk, Some _) => Some bk
                           | _ => None
                           end) (map_to_list (tg_par g))).

Definition tg_side_neighbors (g : tsgraph) (pri_dct : gmap Z prio) (key other : Z)
    : list (option Z) :=
  let nkeys := filter (λ k, k ≠ other) (tg_neighbors g key) in
  let nhyd := default 0%nat (tg_nhyd g !! key) in
  sorted prio_ltb (sort_value_ pri_dct) ((Some <$> nkeys) ++ replicate nhyd None).

#[global] Instance tsgraph_layer : GraphLayer tsgraph := {|
  ts_breaking_bond_keys := tg_bonds_of_kind Breaking;
  ts_forming_bond_keys := tg_bonds_of_kind Forming;
  ts_reverse := tg_reverse;
  ts_reactants_graph_without_stereo := tg_reactants;
  without_dummy_atoms := id;
  tetrahedral_atom_keys := tg_tet;
  reacting_rings_bond_keys := tg_rings;
  forming_rings_atom_keys := tg_frings;
  atom_implicit_hydrogens := tg_nhyd;
  local_stereo_priorities := tg_pri;
  atom_neighbor_atom_keys := tg_atom_neighbors;
  atoms_neighbor_atom_keys := λ g, map_imap (λ k _, Some (tg_neighbors g k)) (tg_nhyd g);
  stereo_parities := tg_par;
  bond_stereo_keys := tg_bond_stereo_keys;
  rigid_planar_bond_keys := tg_rigid;
  vinyl_radical_atom_bond_keys := tg_vinyl;
  sigma_radical_atom_bond_keys := tg_sigma;
  ts_reacting_atom_keys := tg_reacting_atoms;
  ts_transferring_atoms := tg_transfers;
  bond_stereo_sorted_neighbor_keys := λ g key1 key2 pri_dct,
    Ok (tg_side_neighbors g pri_dct key1 key2, tg_side_neighbors g pri_dct key2 key1);
|}.

(** A graph of bonds only: atoms without implicit hydrogens, each with its
    own key as priority, and empty tables. *)
Definition bare_graph (atoms : list Z) (bonds : list (gset Z * bond_kind)) : tsgraph :=
  TSGraph (list_to_map ((λ k, (k, 0%nat)) <$> atoms)) bonds
    (list_to_map ((λ k, (k, Fin k)) <$> atoms)) ∅ [] [] ∅ [] [] ∅ ∅.

(** *** The scenarios of the spec *)

(** One breaking bond {1,2} and one forming bond {2,3}. *)
Definition transfer_graph : tsgraph :=
  bare_graph [1; 2; 3] [({[1; 2]}, Breaking); ({[2; 3]}, Forming)].

(** Two breaking bonds {1,2} and {2,4} and one forming bond {2,3}, all at
    atom 2, in either iteration order of the breaking bonds. *)
Definition double_transfer_graph : tsgraph :=
  bare_graph [1; 2; 3; 4]
    [({[1; 2]}, Breaking); ({[2; 4]}, Breaking); ({[2; 3]}, Forming)].

Definition double_transfer_graph' : tsgraph :=
  bare_graph [1; 2; 3; 4]
    [({[2; 4]}, Breaking); ({[1; 2]}, Breaking); ({[2; 3]}, Forming)].

(** A four-membered reacting ring 1-2-3-4 with breaking bonds {1,2} and
    {3,4} and no forming bond, the ring bonds being visited in the given
    order. *)
Definition four_ring_graph (rng_bkeys : list (gset Z)) : tsgraph :=
  TSGraph (list_to_map ((λ k, (k, 0%nat)) <$> [1; 2; 3; 4]))
    [({[1; 2]}, Breaking); ({[2; 3]}, Static); ({[3; 4]}, Breaking); ({[1; 4]}, Static)]
    (list_to_map ((λ k, (k, Fin k)) <$> [1; 2; 3; 4])) ∅ [rng_bkeys] [] ∅ [] [] ∅ ∅.

Definition elimination_graph : tsgraph :=
  four_ring_graph [{[3; 4]}; {[1; 4]}; {[2; 3]}; {[1; 2]}].

Definition elimination_graph' : tsgraph :=
  four_ring_graph [{[1; 2]}; {[2; 3]}; {[3; 4]}; {[1; 4]}].

(** A five-membered reacting ring 1-2-3-4-5 with breaking bonds {1,2} and
    {4,5}, forming bonds {2,3} and {3,4}, and the bond {1,5} between them. *)
Definition two_forming_graph : tsgraph :=
  TSGraph (list_to_map ((λ k, (k, 0%nat)) <$> [1; 2; 3; 4; 5]))
    [({[1; 2]}, Breaking); ({[2; 3]}, Forming); ({[3; 4]}, Forming);
     ({[4; 5]}, Breaking); ({[1; 5]}, Static)]
    (list_to_map ((λ k, (k, Fin k)) <$> [1; 2; 3; 4; 5])) ∅
    [[{[1; 2]}; {[2; 3]}; {[3; 4]}; {[4; 5]}; {[1; 5]}]] [] ∅ [] [] ∅ ∅.

(** An atom 1 with the neighbours 2, 3 and 4, and the same atom with a
    fifth atom bonded to it. *)
Definition three_neighbor_graph : tsgraph :=
  bare_graph [1; 2; 3; 4]
    [({[1; 4]}, Static); ({[1; 2]}, Static); ({[1; 3]}, Static)].

Definition four_neighbor_graph : tsgraph :=
  bare_graph [1; 2; 3; 4; 5]
    [({[1; 4]}, Static); ({[1; 2]}, Static); ({[1; 5]}, Static); ({[1; 3]}, Static)].

(** A vinyl radical site: the stereo bond {1,2} with parity [True], the
    radical atom 1 with the neighbour 5, and the bond forming from 1 to 6. *)
Definition vinyl_graph : tsgraph :=
  TSGraph (list_to_map ((λ k, (k, 0%nat)) <$> [1; 2; 5; 6]))
    [({[1; 2]}, Static); ({[1; 5]}, Static); ({[1; 6]}, Forming)]
    (list_to_map ((λ k, (k, Fin k)) <$> [1; 2; 5; 6])) ∅ [] []
    {[ inr {[1; 2]} := Some true ]} [] [(1, {[1; 2]})] ∅ ∅.

(** A constrained 1,2-insertion: the rigid bond {1,2} between two
    stereocentres, the bonds forming from 1 to 3 and from 2 to 4, and the
    forming ring 1-2-4-3. *)
Definition insertion_graph : tsgraph :=
  TSGraph (list_to_map ((λ k, (k, 0%nat)) <$> [1; 2; 3; 4; 5; 6]))
    [({[1; 2]}, Static); ({[1; 3]}, Forming); ({[2; 4]}, Forming);
     ({[3; 4]}, Static); ({[1; 5]}, Static); ({[2; 6]}, Static)]
    (list_to_map ((λ k, (k, Fin k)) <$> [1; 2; 3; 4; 5; 6])) {[1; 2]} []
    [[1; 2; 4; 3]]
    {[ inl 1 := Some true; inl 2 := Some false ]} [{[1; 2]}] [] ∅ ∅.

(** The same insertion with priorities that do not follow the atom keys:
    the neighbours 2, 3 and 5 of atom 1 rank 2, 5, 3, so that sorting them
    changes the parity of the permutation at atom 1. *)
Definition ranked_insertion_graph : tsgraph :=
  TSGraph (tg_nhyd insertion_graph) (tg_bonds insertion_graph)
    {[ 1 := Fin 1; 2 := Fin 0; 3 := Fin 5; 4 := Fin 4; 5 := Fin 3; 6 := Fin 6 ]}
    (tg_tet insertion_graph) (tg_rings insertion_graph) (tg_frings insertion_graph)
    (tg_par insertion_graph) (tg_rigid insertion_graph) (tg_vinyl insertion_graph)
    (tg_sigma insertion_graph) (tg_transfers insertion_graph).

(** An Sn2 site: the tetrahedral atom 2 with the neighbours 5, 6 and 7,
    the bond to 1 breaking and the bond to 8 forming. *)
Definition sn2_graph : tsgraph :=
  TSGraph (list_to_map ((λ k, (k, 0%nat)) <$> [1; 2; 5; 6; 7; 8]))
    [({[1; 2]}, Breaking); ({[2; 8]}, Forming);
     ({[2; 5]}, Static); ({[2; 6]}, Static); ({[2; 7]}, Static)]
    (list_to_map ((λ k, (k, Fin k)) <$> [1; 2; 5; 6; 7; 8])) {[ 2 ]} [] [] ∅ [] [] ∅
    {[ 2 := (1, 8) ]}.



(** *** The further collaborators on the reference graph

    Modelled from the spec: the products view drops the breaking bonds and
    keeps the forming ones; a breaking bond has order 0.9 and a forming bond
    order 0.1; the connected components are the classes of atoms that the
    bonds join; the reference graphs hold no dummy atoms, and reactants are
    compared by their number of atoms. *)

Definition tg_products (g : tsgraph) : tsgraph :=
  let bonds := prod_map id (λ _, Static) <$> filter (λ b, b.2 ≠ Breaking) (tg_bonds g) in
  TSGraph (tg_nhyd g) bonds (tg_pri g) (tg_tet g) (tg_rings g) (tg_frings g)
    ((λ _, None) <$> tg_par g) (tg_rigid g) (tg_vinyl g) (tg_sigma g) (tg_transfers g).

Definition tg_is_ts (g : tsgraph) : bool :=
  existsb (λ b, bool_decide (b.2 ≠ Static)) (tg_bonds g).

Definition tg_bond_neighbors (g : tsgraph) (key1 key2 : Z) : result (gset Z * gset Z) :=
  if bool_decide (key1 ∈ dom (tg_nhyd g)) && bool_decide (key2 ∈ dom (tg_nhyd g))
  then Ok (list_to_set (tg_neighbors g key1) ∖ {[ key2 ]},
           list_to_set (tg_neighbors g key2) ∖ {[ key1 ]})
  else Raise KeyError.

Definition tg_order (k : bond_kind) : Q :=
  match k with
  | Static => 1
  | Breaking => 9 # 10
  | Forming => 1 # 10
  end.

Definition tg_without_orders (g : tsgraph) (ords : list Q) : tsgraph :=
  tg_with_bonds (filter (λ b, existsb (Qeq_bool (tg_order b.2)) ords = false) (tg_bonds g)) g.

Definition tg_merge_bond (parts : list (gset Z)) (b : gset Z) : list (gset Z) :=
  ⋃ filter (λ s, s ∩ b ≠ ∅) parts :: filter (λ s, s ∩ b = ∅) parts.

Definition tg_restrict (g : tsgraph) (s : gset Z) : tsgraph :=
  TSGraph (filter (λ kv, kv.1 ∈ s) (tg_nhyd g)) (filter (λ b, b.1 ⊆ s) (tg_bonds g))
    (tg_pri g) (tg_tet g) (tg_rings g) (tg_frings g) (tg_par g) (tg_rigid g)
    (tg_vinyl g) (tg_sigma g) (tg_transfers g).

Definition tg_components (g : tsgraph) : list tsgraph :=
  let parts0 := (λ k, {[ k ]}) <$> elements (dom (tg_nhyd g)) in
  tg_restrict g <$> foldl tg_merge_bond parts0 (fst <$> tg_bonds g).

#[global] Instance tsgraph_layer_ext : GraphLayerExt tsgraph := {|
  is_ts_graph := tg_is_ts;
  atom_keys := λ g, dom (tg_nhyd g);
  ts_reagents_graphs_without_stereo := λ g, [tg_reactants g; tg_products g];
  ts_reactants_graph_without_stereo_dummy := tg_reactants;
  bond_neighbor_atom_keys := tg_bond_neighbors;
  without_bonds_by_orders := tg_without_orders;
  vinyl_center_candidates := λ g min_ncount,
    filter (λ kb, min_ncount ≤ Z.of_nat (length (tg_neighbors g kb.1))) (tg_vinyl g);
  sort_by_size := sorted_reverse Nat.ltb (λ g, size (dom (tg_nhyd g)));
  has_reacting_ring := λ g, bool_decide (tg_rings g ≠ []);
  is_bimolecular := λ g, bool_decide (length (tg_components (tg_reactants g)) = 2%nat);
  connected_components := tg_components;
|}.

(** The atom 3 passing from 2 to 1: the reactant of the atoms 2 and 3, with
    the breaking bond {2,3}, and the reactant of the atom 1, with the
    forming bond {1,3}. *)
Definition abstraction_graph : tsgraph :=
  bare_graph [1; 2; 3] [({[2; 3]}, Breaking); ({[1; 3]}, Forming)].

(** The double bond {1,2} with the neighbours 3 and 4 of atom 1 and 5 of
    atom 2, and a third neighbour 6 of atom 1 on a forming bond. *)
Definition crowded_bond_graph : tsgraph :=
  bare_graph [1; 2; 3; 4; 5; 6]
    [({[1; 2]}, Static); ({[1; 4]}, Static); ({[1; 3]}, Static); ({[2; 5]}, Static);
     ({[1; 6]}, Forming)].

(** The bond {1,2} marked as breaking and as forming at once. *)
Definition clash_graph : tsgraph :=
  bare_graph [1; 2] [({[1; 2]}, Breaking); ({[1; 2]}, Forming)].

(** Two transfers, of atom 2 from 1 to 3 and of atom 6 from 5 to 7, with
    the breaking and the forming bonds in one order and in the other. *)
Definition two_transfer_graph : tsgraph :=
  bare_graph [1; 2; 3; 5; 6; 7]
    [({[1; 2]}, Breaking); ({[5; 6]}, Breaking); ({[2; 3]}, Forming); ({[6; 7]}, Forming)].

Definition two_transfer_graph' : tsgraph :=
  bare_graph [1; 2; 3; 5; 6; 7]
    [({[6; 7]}, Forming); ({[5; 6]}, Breaking); ({[2; 3]}, Forming); ({[1; 2]}, Breaking)].

(** Two reacting rings that are no elimination: the ring 7-8-9 with the
    single breaking bond {7,8}, and the six-membered ring 1-2-3-4-5-6 whose
    breaking bonds {1,2} and {4,5} no bond of the ring touches both. *)
Definition skipped_rings_graph : tsgraph :=
  TSGraph (list_to_map ((λ k, (k, 0%nat)) <$> [1; 2; 3; 4; 5; 6; 7; 8; 9]))
    [({[1; 2]}, Breaking); ({[2; 3]}, Static); ({[3; 4]}, Static); ({[4; 5]}, Breaking);
     ({[5; 6]}, Static); ({[1; 6]}, Static); ({[7; 8]}, Breaking); ({[8; 9]}, Static);
     ({[7; 9]}, Static)]
    (list_to_map ((λ k, (k, Fin k)) <$> [1; 2; 3; 4; 5; 6; 7; 8; 9])) ∅
    [[{[7; 8]}; {[8; 9]}; {[7; 9]}];
     [{[1; 2]}; {[2; 3]}; {[3; 4]}; {[4; 5]}; {[5; 6]}; {[1; 6]}]] [] ∅ [] [] ∅ ∅.

(** A four-membered reacting ring 1-2-3-4 whose breaking bonds {1,2} and
    {2,3} meet at atom 2. *)
Definition adjacent_breaking_graph : tsgraph :=
  TSGraph (list_to_map ((λ k, (k, 0%nat)) <$> [1; 2; 3; 4]))
    [({[1; 2]}, Breaking); ({[2; 3]}, Breaking); ({[3; 4]}, Static); ({[1; 4]}, Static)]
    (list_to_map ((λ k, (k, Fin k)) <$> [1; 2; 3; 4])) ∅
    [[{[3; 4]}; {[1; 4]}; {[2; 3]}; {[1; 2]}]] [] ∅ [] [] ∅ ∅.

(** The elimination of the atoms 5 and 6 across the bond {1,2}: the ring
    1-2-6-5 with breaking bonds {1,5} and {2,6} and forming bond {5,6}. *)
Definition hx_elimination_graph : tsgraph :=
  TSGraph (list_to_map ((λ k, (k, 0%nat)) <$> [1; 2; 5; 6]))
    [({[1; 2]}, Static); ({[2; 6]}, Breaking); ({[5; 6]}, Forming); ({[1; 5]}, Breaking)]
    (list_to_map ((λ k, (k, Fin k)) <$> [1; 2; 5; 6])) ∅
    [[{[2; 6]}; {[5; 6]}; {[1; 2]}; {[1; 5]}]] [] ∅ [] [] ∅ ∅.

(** The rigid bond {1,2} between two stereocentres of which only atom 1
    forms a bond. *)
Definition half_insertion_graph : tsgraph :=
  TSGraph (list_to_map ((λ k, (k, 0%nat)) <$> [1; 2; 3; 5; 6]))
    [({[1; 2]}, Static); ({[1; 3]}, Forming); ({[1; 5]}, Static); ({[2; 6]}, Static)]
    (list_to_map ((λ k, (k, Fin k)) <$> [1; 2; 3; 5; 6])) {[1; 2]} []
    []
    {[ inl 1 := Some true; inl 2 := Some false ]} [{[1; 2]}] [] ∅ ∅.

(** The bond {1,2} of a tetrahedral atom 1 with two implicit hydrogens and
    the neighbour 3, atom 2 having one implicit hydrogen. *)
Definition tetrahedral_bond_graph : tsgraph :=
  TSGraph {[ 1 := 2%nat; 2 := 1%nat; 3 := 0%nat ]}
    [({[1; 2]}, Static); ({[1; 3]}, Static)]
    (list_to_map ((λ k, (k, Fin k)) <$> [1; 2; 3])) {[ 1 ]} [] [] ∅ [] [] ∅ ∅.

(** The double bond {1,2} with one implicit hydrogen on each atom and the
    neighbours 3 of atom 1 and 5 of atom 2. *)
Definition hydrogen_bond_graph : tsgraph :=
  TSGraph {[ 1 := 1%nat; 2 := 1%nat; 3 := 0%nat; 5 := 0%nat ]}
    [({[1; 2]}, Static); ({[1; 3]}, Static); ({[2; 5]}, Static)]
    (list_to_map ((λ k, (k, Fin k)) <$> [1; 2; 3; 5])) ∅ [] [] ∅ [] [] ∅ ∅.

(** The atom 4 passing from 3 to 1: the reactant of the atoms 3 and 4, with
    the breaking bond {3,4}, the reactant of the atoms 1 and 2, and the
    forming bond {1,4}. *)
Definition second_reactant_graph : tsgraph :=
  bare_graph [1; 2; 3; 4]
    [({[3; 4]}, Breaking); ({[1; 2]}, Static); ({[1; 4]}, Forming)].

(** ** Vocabulary of the statements *)

(** The pair (breaking bond, forming bond) transfers atom [t] from donor [d]
    to acceptor [a]: the two keys share [t] alone, and [d] and [a] are what
    is left of each. *)
Definition transfer_of (p : BondKey * BondKey) (t d a : Z) : Prop :=
  p.1 ∩ p.2 = {[ t ]} ∧ p.1 ∖ p.2 = {[ d ]} ∧ p.2 ∖ p.1 = {[ a ]}.

(** A pair of the product either shares no atom or is a transfer. *)
Definition pair_ok (p : BondKey * BondKey) : Prop :=
  p.1 ∩ p.2 = ∅ ∨ ∃ t d a, transfer_of p t d a.

(** The invariant of the data model on bond keys: each key holds two atoms,
    and no key is breaking and forming at once. *)
Definition wf_bond_keys (brk_bkeys frm_bkeys : list BondKey) : Prop :=
  Forall (λ b, size b = 2%nat) brk_bkeys
  ∧ Forall (λ f, size f = 2%nat) frm_bkeys
  ∧ Forall (λ b, b ∉ frm_bkeys) brk_bkeys.

(** The reading of the spec for [atom_transfers]: whatever pair of a
    breaking and a forming bond is a transfer, the result maps its shared atom
    to its donor and acceptor. *)
Definition every_transfer_recorded {graph} `{GraphLayer graph} (tsg : graph) : Prop :=
  ∀ b f t d a,
    b ∈ ts_breaking_bond_keys tsg → f ∈ ts_forming_bond_keys tsg →
    transfer_of (b, f) t d a →
    ∃ tra_dct, atom_transfers tsg = Ok tra_dct ∧ tra_dct !! t = Some (d, a).

(** The reading of the spec for the elimination scenario: the result is
    {{1,4}: (2, 3, None)}, and {1,4} is the only bond of a reacting ring that
    passes the test of an elimination bond. *)
Definition unique_elimination_bond {graph} `{GraphLayer graph} (tsg : graph) : Prop :=
  eliminations tsg = Ok {[ {[1; 4]} := (2, 3, None) ]}
  ∧ ∀ rng_bkeys bk,
      rng_bkeys ∈ reacting_rings_bond_keys tsg → bk ∈ rng_bkeys →
      is_elimination_bkey (bkeys_inter (ts_breaking_bond_keys tsg) rng_bkeys)
        (bkeys_inter (ts_forming_bond_keys tsg) rng_bkeys) bk = true →
      bk = {[1; 4]}.

(** What [eliminations] makes of the four-membered ring of the scenario,
    by the order in which its bonds are visited. *)
Definition four_ring_eliminations (rng_bkeys : list BondKey)
    : gmap (gset Z) (Z * Z * option (gset Z)) :=
  if before rng_bkeys {[1; 4]} {[2; 3]}
  then {[ {[1; 4]} := (2, 3, None) ]}
  else {[ {[2; 3]} := (1, 4, None) ]}.

Definition four_ring_check (brk_bkeys rng_bkeys : list BondKey) : bool :=
  is_elimination_bkey (bkeys_inter brk_bkeys rng_bkeys) [] {[1; 4]}
  && is_elimination_bkey (bkeys_inter brk_bkeys rng_bkeys) [] {[2; 3]}
  && bool_decide (foldM (eliminations_step brk_bkeys []) ∅ [rng_bkeys]
                  = Ok (four_ring_eliminations rng_bkeys)).

(** Priorities in ascending order. *)
Definition prio_le (p q : prio) : Prop := prio_ltb q p = false.

(** The reading of the spec for [self_apex]: with a neighbour list of any
    length but 3, asking for the apex is fatal. *)
Definition self_apex_needs_three {graph} `{GraphLayer graph} (gra : graph) (key : Z)
    : Prop :=
  ∀ nkeys,
    atom_stereo_sorted_neighbor_keys gra key false None = Ok nkeys →
    length nkeys ≠ 3%nat →
    ∃ e, atom_stereo_sorted_neighbor_keys gra key true None = Raise e.

(** The parity stored for an atom or a bond of the graph. *)
Definition stored_parity {graph} `{GraphLayer graph} (loc_tsg : graph)
    (k : StereoKey) (p : bool) : Prop :=
  stereo_parities loc_tsg !! k = Some (Some p).

(** The formula of the spec for the parity of a constrained bond. *)
Definition constrained_parity (p_a1 p_1 p_a2 p_2 : bool) : bool :=
  negb (xorb (xorb p_a1 p_1) (xorb p_a2 p_2)).

(** [frm] is the first of the bonds [bkeys] that holds the atom [key]. *)
Definition first_bond_with (bkeys : list BondKey) (key : Z) (frm : BondKey) : Prop :=
  ∃ pre suf, bkeys = pre ++ frm :: suf ∧ key ∈ frm ∧ Forall (λ b, key ∉ b) pre.

(** [nks] is the list of the neighbours [nkeys] sorted by priority: every
    neighbour has a priority, [nks] holds the keys of [nkeys], each as often,
    in ascending order of priority, and the keys of one priority come in the
    order they have in [nkeys]. *)
Definition priority_sorted (pri_dct : gmap Z prio) (nkeys nks : list Z) : Prop :=
  Forall (λ k, is_Some (pri_dct !! k)) nkeys
  ∧ nks ≡ₚ nkeys
  ∧ StronglySorted
      (λ a b, ∀ p q, pri_dct !! a = Some p → pri_dct !! b = Some q → prio_le p q) nks
  ∧ ∀ p, filter (λ k, pri_dct !! k = Some p) nks
         = filter (λ k, pri_dct !! k = Some p) nkeys.

(** [v] is the parity of the spec for the constrained bond [bkey]: [key1] and
    [key2] are its atoms, [key0] and [key3] their partners in forming bonds
    (in the first forming bond of each),
    [p_a1] and [p_a2] their stored parities, [nk1s] and [nk2s] their
    neighbours sorted by priority, and [p_1] and [p_2] the parities of the
    permutations that move the other bond atom and the forming partner to
    the front of the sorted neighbours. *)
Definition constrained_entry {graph} `{GraphLayer graph} (loc_tsg : graph)
    (bkey : BondKey) (v : bool) : Prop :=
  ∃ key1 key2 frm1 frm2 key0 key3 p_a1 p_a2 nk1 nk2 nk1s nk2s,
    elements bkey = [key1; key2]
    ∧ first_bond_with (ts_forming_bond_keys loc_tsg) key1 frm1
    ∧ frm1 ∖ {[ key1 ]} = {[ key0 ]}
    ∧ first_bond_with (ts_forming_bond_keys loc_tsg) key2 frm2
    ∧ frm2 ∖ {[ key2 ]} = {[ key3 ]}
    ∧ stored_parity loc_tsg (inl key1) p_a1
    ∧ stored_parity loc_tsg (inl key2) p_a2
    ∧ atoms_neighbor_atom_keys loc_tsg !! key1 = Some nk1
    ∧ priority_sorted (local_stereo_priorities loc_tsg) nk1 nk1s
    ∧ atoms_neighbor_atom_keys loc_tsg !! key2 = Some nk2
    ∧ priority_sorted (local_stereo_priorities loc_tsg) nk2 nk2s
    ∧ v = constrained_parity
            p_a1 (is_even_permutation nk1s (move_items_to_front nk1s [key2; key0]))
            p_a2 (is_even_permutation nk2s (move_items_to_front nk2s [key1; key3])).

(** The highest-priority neighbour of the vinyl atom [akey] of the bond
    [bkey] is not the same on the reactants as on the TS graph. *)
Definition vinyl_top_changed {graph} `{GraphLayer graph} (loc_tsg : graph)
    (akey : Z) (bkey : BondKey) : Prop :=
  ∃ nkey nkeys_ts o_ts nkeys_r o_r top_r top_ts,
    bkey ∖ {[ akey ]} = {[ nkey ]}
    ∧ bond_stereo_sorted_neighbor_keys loc_tsg akey nkey (local_stereo_priorities loc_tsg)
      = Ok (nkeys_ts, o_ts)
    ∧ bond_stereo_sorted_neighbor_keys (ts_reactants_graph_without_stereo loc_tsg) akey nkey
        (local_stereo_priorities loc_tsg)
      = Ok (nkeys_r, o_r)
    ∧ last nkeys_r = Some top_r ∧ last nkeys_ts = Some top_ts ∧ top_r ≠ top_ts.

(** [akey] is a vinyl radical atom whose bond [bkey] is a stereo bond. *)
Definition vinyl_stereo_site {graph} `{GraphLayer graph} (loc_tsg : graph)
    (akey : Z) (bkey : BondKey) : Prop :=
  (akey, bkey) ∈ vinyl_radical_atom_bond_keys (ts_reactants_graph_without_stereo loc_tsg)
  ∧ bkey ∈ bond_stereo_keys loc_tsg.

(** The transposition of two neighbour keys. *)
Definition swap_keys (x y z : option Z) : option Z :=
  if decide (z = x) then y else if decide (z = y) then x else z.

(** No two pairs of a breaking and a forming bond transfer the same atom. *)
Definition single_transfers (brk_bkeys frm_bkeys : list BondKey) : Prop :=
  Forall (λ p : BondKey * BondKey,
    Forall (λ q : BondKey * BondKey,
      p.1 ∩ p.2 = q.1 ∩ q.2 → size (p.1 ∩ p.2) = 1%nat → p = q)
      (list_prod brk_bkeys frm_bkeys))
    (list_prod brk_bkeys frm_bkeys).




(** What an entry of [eliminations] says of its ring: the elimination bond
    [bkey] is a bond of the ring and no forming bond of it, [b1] and [b2] are
    the two breaking bonds of the ring, [c1] and [c2] the atoms they share
    with [bkey] (the first one met), and [l1] and [l2] what they hold beside
    [bkey]. *)
Definition elimination_site {graph} `{GraphLayer graph} (tsg : graph)
    (rng_bkeys : list BondKey) (bkey b1 b2 : BondKey) (c1 c2 l1 l2 : Z) : Prop :=
  let brk_bkeys := bkeys_inter (ts_breaking_bond_keys tsg) rng_bkeys in
  let frm_bkeys := bkeys_inter (ts_forming_bond_keys tsg) rng_bkeys in
  rng_bkeys ∈ reacting_rings_bond_keys tsg
  ∧ bkey ∈ rng_bkeys ∧ (bkey ∉ frm_bkeys)
  ∧ brk_bkeys ≡ₚ [b1; b2]
  ∧ common_atom bkey b1 = Ok c1 ∧ common_atom bkey b2 = Ok c2
  ∧ b1 ∖ bkey = {[ l1 ]} ∧ b2 ∖ bkey = {[ l2 ]}
  ∧ (length frm_bkeys ≤ 1)%nat.

(** The tuple of keys that [zmatrix_sorted_reactants_keys] gives for a
    reactant. *)
Definition reactant_keys {graph} `{GraphLayerExt graph} (g : graph) : list Z :=
  sorted (λ a b : Z, bool_decide (a < b)) id (elements (atom_keys g)).

(** * Properties *)

(** ** Facts about the Python primitives *)

Lemma unpack1_singleton (x : Z) : unpack1 {[ x ]} = Ok x.
Proof. unfold unpack1. by rewrite elements_singleton. Qed.

Lemma unpack1_Ok (s : gset Z) (x : Z) : unpack1 s = Ok x ↔ s = {[ x ]}.
Proof.
  split; [|intros ->; apply unpack1_singleton].
  unfold unpack1. destruct (elements s) as [|y [|z l]] eqn:E; try discriminate.
  intros [= ->]. apply set_eq. intros z.
  rewrite <- elem_of_elements, E. set_solver.
Qed.

Lemma truthy_true (s : gset Z) : truthy s = true ↔ s ≠ ∅.
Proof. unfold truthy. by rewrite bool_decide_eq_true. Qed.

Lemma truthy_false (s : gset Z) : truthy s = false ↔ s = ∅.
Proof.
  unfold truthy. rewrite bool_decide_eq_false.
  split; [|naive_solver]. intros Hn. by destruct (decide (s = ∅)).
Qed.

Lemma foldM_app {A B} (f : B → A → result B) (acc : B) (l1 l2 : list A) :
  foldM f acc (l1 ++ l2) = (acc1 ← foldM f acc l1; foldM f acc1 l2).
Proof.
  revert acc. induction l1 as [|x l1 IH]; intros acc; simpl; [done|].
  destruct (f acc x) as [acc'|e]; simpl; [apply IH|done].
Qed.

Lemma foldM_split_inv {A B} (f : B → A → result B) (acc m : B) (l1 l2 : list A) (x : A) :
  foldM f acc (l1 ++ x :: l2) = Ok m →
  ∃ m1 m2, foldM f acc l1 = Ok m1 ∧ f m1 x = Ok m2 ∧ foldM f m2 l2 = Ok m.
Proof.
  rewrite foldM_app. destruct (foldM f acc l1) as [m1|]; [|discriminate].
  simpl. destruct (f m1 x) as [m2|] eqn:E; [|discriminate]. simpl.
  intros Hf. by exists m1, m2.
Qed.

Lemma size_2_inv (X : gset Z) :
  size X = 2%nat → ∃ x y, x ≠ y ∧ X = {[ x; y ]}.
Proof.
  unfold size, set_size. simpl. intros Hlen.
  pose proof (NoDup_elements X) as Hnd.
  destruct (elements X) as [|x [|y [|z l]]] eqn:E; try discriminate.
  exists x, y. split.
  - inversion_clear Hnd as [|? ? Hx _]. set_solver.
  - apply set_eq. intros z. rewrite <- elem_of_elements, E. set_solver.
Qed.

(** ** [atom_transfers] *)

Lemma step_disjoint (m : gmap Z (Z * Z)) (p : BondKey * BondKey) :
  p.1 ∩ p.2 = ∅ → atom_transfers_step m p = Ok m.
Proof.
  destruct p as [b f]. simpl. intros He. unfold atom_transfers_step.
  by rewrite (proj2 (truthy_false _) He).
Qed.

Lemma step_transfer (m : gmap Z (Z * Z)) (p : BondKey * BondKey) (t d a : Z) :
  transfer_of p t d a → atom_transfers_step m p = Ok (<[t := (d, a)]> m).
Proof.
  destruct p as [b f]. intros (Ht & Hd & Ha). simpl in *.
  unfold atom_transfers_step.
  rewrite (proj2 (truthy_true (b ∩ f))) by (rewrite Ht; set_solver).
  rewrite Ht, Hd, Ha, !unpack1_singleton. done.
Qed.

Lemma step_inv (m m' : gmap Z (Z * Z)) (p : BondKey * BondKey) :
  atom_transfers_step m p = Ok m' →
  (p.1 ∩ p.2 = ∅ ∧ m' = m) ∨ (∃ t d a, transfer_of p t d a ∧ m' = <[t := (d, a)]> m).
Proof.
  destruct p as [b f]. unfold atom_transfers_step. simpl.
  destruct (truthy (b ∩ f)) eqn:Et.
  - destruct (unpack1 (b ∩ f)) as [t|] eqn:E1; [|discriminate]. simpl.
    destruct (unpack1 (b ∖ f)) as [d|] eqn:E2; [|discriminate]. simpl.
    destruct (unpack1 (f ∖ b)) as [a|] eqn:E3; [|discriminate]. simpl.
    intros [= <-]. right. exists t, d, a.
    apply unpack1_Ok in E1, E2, E3. done.
  - intros [= <-]. left. by apply truthy_false in Et.
Qed.

Lemma fold_transfers_total (l : list (BondKey * BondKey)) (m0 : gmap Z (Z * Z)) :
  Forall pair_ok l → is_Ok (foldM atom_transfers_step m0 l).
Proof.
  intros Hl. revert m0. induction Hl as [|p l Hp _ IH]; intros m0; simpl.
  - by eexists.
  - destruct Hp as [He|(t & d & a & Ht)].
    + rewrite (step_disjoint _ _ He). apply IH.
    + rewrite (step_transfer _ _ _ _ _ Ht). apply IH.
Qed.

Lemma fold_transfers_lookup (l : list (BondKey * BondKey)) (m0 m : gmap Z (Z * Z))
    (k d a : Z) :
  foldM atom_transfers_step m0 l = Ok m → m !! k = Some (d, a) →
  m0 !! k = Some (d, a) ∨ ∃ p, p ∈ l ∧ transfer_of p k d a.
Proof.
  revert m0. induction l as [|p l IH]; intros m0; simpl.
  - intros [= <-]. auto.
  - destruct (atom_transfers_step m0 p) as [m1|] eqn:E; [|discriminate]. simpl.
    intros Hf Hk. destruct (IH _ Hf Hk) as [H1|(q & Hq & Ht)].
    + apply step_inv in E as [[_ ->]|(t & d' & a' & Ht & ->)]; [by left|].
      destruct (decide (t = k)) as [->|Hne].
      * rewrite lookup_insert_eq in H1. injection H1 as <- <-.
        right. exists p. split; [left|done].
      * rewrite lookup_insert_ne in H1 by done. by left.
    + right. exists q. split; [by right|done].
Qed.

Lemma fold_transfers_keep (l : list (BondKey * BondKey)) (m0 m : gmap Z (Z * Z))
    (t : Z) :
  foldM atom_transfers_step m0 l = Ok m →
  (∀ q, q ∈ l → q.1 ∩ q.2 ≠ {[ t ]}) → m !! t = m0 !! t.
Proof.
  revert m0. induction l as [|p l IH]; intros m0; simpl.
  - by intros [= <-].
  - destruct (atom_transfers_step m0 p) as [m1|] eqn:E; [|discriminate]. simpl.
    intros Hf Hno. rewrite (IH _ Hf) by (intros q Hq; apply Hno; by right).
    apply step_inv in E as [[_ ->]|(t' & d' & a' & (Ht & _) & ->)]; [done|].
    apply lookup_insert_ne. intros ->. by apply (Hno p); [left|].
Qed.

Lemma fold_transfers_last (pre suf : list (BondKey * BondKey)) (p : BondKey * BondKey)
    (m0 m : gmap Z (Z * Z)) (t d a : Z) :
  foldM atom_transfers_step m0 (pre ++ p :: suf) = Ok m →
  transfer_of p t d a →
  (∀ q, q ∈ suf → q.1 ∩ q.2 ≠ {[ t ]}) →
  m !! t = Some (d, a).
Proof.
  rewrite foldM_app. destruct (foldM atom_transfers_step m0 pre) as [m1|]; [|discriminate].
  simpl. intros Hf Ht Hno. rewrite (step_transfer _ _ _ _ _ Ht) in Hf. simpl in Hf.
  rewrite (fold_transfers_keep _ _ _ _ Hf Hno). apply lookup_insert_eq.
Qed.

(** Two different two-atom keys that share an atom share exactly one. *)
Lemma size_1_singleton (X : gset Z) : size X = 1%nat → ∃ x, X = {[ x ]}.
Proof. intros (x & Hx)%size_1_elem_of. exists x. by apply leibniz_equiv. Qed.

Lemma two_atom_keys_pair_ok (b f : gset Z) :
  size b = 2%nat → size f = 2%nat → b ≠ f → pair_ok (b, f).
Proof.
  intros Hb Hf Hne. unfold pair_ok, transfer_of. simpl.
  destruct (decide (b ∩ f = ∅)) as [He|He]; [by left|right].
  assert (size (b ∩ f) ≠ 0%nat) as H0.
  { rewrite size_non_empty_iff. intros Hequiv. apply He. by apply leibniz_equiv. }
  assert (size (b ∩ f) ≤ 2)%nat as H2.
  { rewrite <- Hb. apply subseteq_size. set_solver. }
  assert (size (b ∩ f) ≠ 2%nat) as Hn2.
  { intros Heq. apply Hne.
    assert (b ∩ f = b) as E1 by (apply set_subseteq_size_eq; [set_solver|lia]).
    assert (b ∩ f = f) as E2 by (apply set_subseteq_size_eq; [set_solver|lia]).
    congruence. }
  assert (size (b ∩ f) = 1%nat) as H1 by lia.
  destruct (size_1_singleton _ H1) as [t Ht].
  destruct (size_1_singleton (b ∖ f)) as [d Hd].
  { rewrite size_difference_alt. lia. }
  destruct (size_1_singleton (f ∖ b)) as [a Ha].
  { rewrite size_difference_alt, (comm_L (∩) f b). lia. }
  by exists t, d, a.
Qed.

Lemma wf_bond_keys_pairs_ok (brk_bkeys frm_bkeys : list BondKey) :
  wf_bond_keys brk_bkeys frm_bkeys → Forall pair_ok (list_prod brk_bkeys frm_bkeys).
Proof.
  intros (Hb & Hf & Hd). apply Forall_forall. intros [b f] Hin.
  apply list_elem_of_In, in_prod_iff in Hin as [Hbin Hfin].
  apply list_elem_of_In in Hbin, Hfin.
  rewrite Forall_forall in Hb, Hf, Hd.
  apply two_atom_keys_pair_ok; [by apply Hb|by apply Hf|].
  intros ->. by apply (Hd f).
Qed.

Lemma transfer_of_distinct (p : BondKey * BondKey) (t d a : Z) :
  transfer_of p t d a → d ≠ t ∧ a ≠ t ∧ d ≠ a.
Proof. destruct p as [b f]. unfold transfer_of. simpl. set_solver. Qed.

Ltac by_compute := apply (bool_decide_unpack _); vm_compute; exact I.

Lemma atom_transfers_returns {graph} `{GraphLayer graph} (tsg : graph) :
  wf_bond_keys (ts_breaking_bond_keys tsg) (ts_forming_bond_keys tsg) →
  ∃ tra_dct, atom_transfers tsg = Ok tra_dct.
Proof. intros Hwf. by apply fold_transfers_total, wf_bond_keys_pairs_ok. Qed.

Lemma atom_transfers_entry {graph} `{GraphLayer graph} (tsg : graph)
    (tra_dct : gmap Z (Z * Z)) (k d a : Z) :
  atom_transfers tsg = Ok tra_dct → tra_dct !! k = Some (d, a) →
  ∃ b f, b ∈ ts_breaking_bond_keys tsg ∧ f ∈ ts_forming_bond_keys tsg
         ∧ transfer_of (b, f) k d a.
Proof.
  intros Hf Hk. destruct (fold_transfers_lookup _ _ _ _ _ _ Hf Hk) as [He|([b f] & Hin & Ht)].
  - by rewrite lookup_empty in He.
  - apply list_elem_of_In, in_prod_iff in Hin as [Hb Hfr].
    exists b, f. by rewrite <- !list_elem_of_In in *.
Qed.

(** C1, as amended. On a TS graph whose bond keys hold two atoms each and are
    not breaking and forming at once, [atom_transfers] returns a dict; for a
    pair of a breaking and a forming bond that share exactly one atom, the
    dict maps that atom to the donor and acceptor of this pair provided no
    later pair of the product shares the same atom alone (a later one
    overwrites the entry); every entry comes from such a pair; and with one
    breaking bond {1,2} and one forming bond {2,3} the dict is {2: (1,3)}. *)
Theorem atom_transfers_last_pair_recorded {graph} `{GraphLayer graph} (tsg : graph) :
  wf_bond_keys (ts_breaking_bond_keys tsg) (ts_forming_bond_keys tsg) →
  ∃ tra_dct, atom_transfers tsg = Ok tra_dct
    ∧ (∀ pre suf b f t d a,
         list_prod (ts_breaking_bond_keys tsg) (ts_forming_bond_keys tsg)
           = pre ++ (b, f) :: suf →
         transfer_of (b, f) t d a →
         (∀ q, q ∈ suf → q.1 ∩ q.2 ≠ {[ t ]}) →
         tra_dct !! t = Some (d, a))
    ∧ (∀ t d a, tra_dct !! t = Some (d, a) →
         ∃ b f, b ∈ ts_breaking_bond_keys tsg ∧ f ∈ ts_forming_bond_keys tsg
                ∧ transfer_of (b, f) t d a)
    ∧ (ts_breaking_bond_keys tsg = [{[1; 2]}] → ts_forming_bond_keys tsg = [{[2; 3]}] →
       tra_dct = {[ 2 := (1, 3) ]}).
Proof.
  intros Hwf. destruct (atom_transfers_returns tsg Hwf) as [m Hm].
  exists m. split; [done|]. split; [|split].
  - intros pre suf b f t d a Hl Ht Hno. unfold atom_transfers in Hm.
    rewrite Hl in Hm. by eapply fold_transfers_last.
  - intros t d a Hk. by eapply atom_transfers_entry.
  - intros Hb Hf. unfold atom_transfers in Hm. rewrite Hb, Hf in Hm.
    vm_compute in Hm. injection Hm as <-. vm_compute. reflexivity.
Qed.

Lemma atom_transfers_last_pair_recorded_witness :
  atom_transfers transfer_graph = Ok {[ 2 := (1, 3) ]}.
Proof.
  destruct (atom_transfers_last_pair_recorded transfer_graph) as (m & Hm & _ & _ & Hsc).
  - unfold wf_bond_keys. repeat split; by_compute.
  - rewrite Hm. f_equal. by apply Hsc.
Defined.

(** C1, as stated, fails: with breaking bonds {1,2} and {2,4} and forming
    bond {2,3}, both pairs transfer atom 2, and only the one visited last is
    in the result, whichever breaking bond is visited first. *)
Lemma atom_transfers_overwritten_pair :
  ¬ every_transfer_recorded double_transfer_graph
  ∧ ¬ every_transfer_recorded double_transfer_graph'.
Proof.
  split.
  - intros Hc. destruct (Hc {[1; 2]} {[2; 3]} 2 1 3) as (m & Hm & Hk).
    + by_compute.
    + by_compute.
    + unfold transfer_of. repeat split; by_compute.
    + vm_compute in Hm. injection Hm as <-. vm_compute in Hk. discriminate.
  - intros Hc. destruct (Hc {[2; 4]} {[2; 3]} 2 4 3) as (m & Hm & Hk).
    + by_compute.
    + by_compute.
    + unfold transfer_of. repeat split; by_compute.
    + vm_compute in Hm. injection Hm as <-. vm_compute in Hk. discriminate.
Qed.

(** C6. On a TS graph whose breaking and forming bond keys are two-atom sets
    and disjoint from each other, [atom_transfers] returns a dict, and every
    entry k ↦ (donor, acceptor) of it has donor ≠ k, acceptor ≠ k and
    donor ≠ acceptor. *)
Theorem atom_transfers_donor_acceptor_distinct {graph} `{GraphLayer graph} (tsg : graph) :
  wf_bond_keys (ts_breaking_bond_keys tsg) (ts_forming_bond_keys tsg) →
  ∃ tra_dct, atom_transfers tsg = Ok tra_dct
    ∧ ∀ k don acc, tra_dct !! k = Some (don, acc) → don ≠ k ∧ acc ≠ k ∧ don ≠ acc.
Proof.
  intros Hwf. destruct (atom_transfers_returns tsg Hwf) as [m Hm].
  exists m. split; [done|]. intros k d a Hk.
  destruct (atom_transfers_entry _ _ _ _ _ Hm Hk) as (b & f & _ & _ & Ht).
  by eapply transfer_of_distinct.
Qed.

Lemma atom_transfers_donor_acceptor_distinct_witness :
  ∃ tra_dct, atom_transfers double_transfer_graph = Ok tra_dct
    ∧ ∀ k don acc, tra_dct !! k = Some (don, acc) → don ≠ k ∧ acc ≠ k ∧ don ≠ acc.
Proof.
  apply (atom_transfers_donor_acceptor_distinct double_transfer_graph).
  unfold wf_bond_keys. repeat split; by_compute.
Defined.

(** ** Sorting *)

Lemma insert_sorted_perm {A K} (ltb : K → K → bool) (key : A → K) (x : A) (l : list A) :
  insert_sorted ltb key x l ≡ₚ x :: l.
Proof.
  induction l as [|y l IH]; simpl; [done|].
  destruct (ltb (key y) (key x)); [|done].
  rewrite IH. apply Permutation_swap.
Qed.

Lemma sorted_perm {A K} (ltb : K → K → bool) (key : A → K) (l : list A) : sorted ltb key l ≡ₚ l.
Proof.
  induction l as [|x l IH]; simpl; [done|].
  by rewrite (insert_sorted_perm ltb), IH.
Qed.

Lemma length_sorted {A K} (ltb : K → K → bool) (key : A → K) (l : list A) : length (sorted ltb key l) = length l.
Proof. by rewrite (sorted_perm ltb). Qed.

Lemma decorate_Ok {A K} (key : A → result K) (l : list A) :
  (∀ x, x ∈ l → is_Ok (key x)) →
  ∃ ks, mapR (λ x, k ← key x; Ok (k, x)) l = Ok ks ∧ snd <$> ks = l.
Proof.
  induction l as [|x l IH]; intros Hl; simpl.
  - by exists [].
  - destruct (Hl x) as [k Hk]; [by left|]. rewrite Hk. simpl.
    destruct IH as (ks & Hm & Hks); [intros y Hy; apply Hl; by right|].
    rewrite Hm. simpl. exists ((k, x) :: ks). split; [done|].
    rewrite fmap_cons. simpl. by f_equal.
Qed.

Lemma decorate_inv {A K} (key : A → result K) (l : list A) (ks : list (K * A)) :
  mapR (λ x, k ← key x; Ok (k, x)) l = Ok ks → snd <$> ks = l.
Proof.
  revert ks. induction l as [|x l IH]; intros ks; simpl.
  - by intros [= <-].
  - destruct (key x) as [k|]; [|discriminate]. simpl.
    destruct (mapR _ l) as [ks'|]; [|discriminate]. simpl.
    intros [= <-]. rewrite fmap_cons. simpl. f_equal. by apply IH.
Qed.

Lemma decorate_keys {A K} (key : A → result K) (l : list A) (ks : list (K * A)) :
  mapR (λ x, k ← key x; Ok (k, x)) l = Ok ks → Forall (λ kx, key kx.2 = Ok kx.1) ks.
Proof.
  revert ks. induction l as [|x l IH]; intros ks; simpl.
  - intros [= <-]. constructor.
  - destruct (key x) as [k|] eqn:E; [|discriminate]. simpl.
    destruct (mapR _ l) as [ks'|]; [|discriminate]. simpl.
    intros [= <-]. constructor; [done|]. by apply IH.
Qed.

Lemma sorted_partial_Ok {A K} (ltb : K → K → bool) (key : A → result K) (l : list A) :
  (∀ x, x ∈ l → is_Ok (key x)) →
  ∃ l', sorted_partial ltb key l = Ok l' ∧ l' ≡ₚ l.
Proof.
  intros Hl. destruct (decorate_Ok key l Hl) as (ks & Hks & Hsnd).
  unfold sorted_partial. rewrite Hks. eexists. split; [reflexivity|].
  rewrite <- Hsnd. apply fmap_Permutation, sorted_perm.
Qed.

Lemma sorted_partial_perm {A K} (ltb : K → K → bool) (key : A → result K) (l l' : list A) :
  sorted_partial ltb key l = Ok l' → l' ≡ₚ l.
Proof.
  unfold sorted_partial. destruct (mapR _ l) as [ks|] eqn:E; [|discriminate].
  intros [= <-]. etrans; [apply fmap_Permutation, sorted_perm|].
  by rewrite (decorate_inv _ _ _ E).
Qed.

(** ** [eliminations] and [insertions] *)

(** C2. For every TS graph, [insertions] is [eliminations] of the reversed
    graph, in its result as in the exception it raises. *)
Theorem insertions_eliminations_reverse {graph} `{GraphLayer graph} (tsg : graph) :
  insertions tsg = eliminations (ts_reverse tsg).
Proof. reflexivity. Qed.

Lemma four_ring_all_orders :
  Forall (λ rng_bkeys,
    Forall (λ brk_bkeys, four_ring_check brk_bkeys rng_bkeys = true)
      (permutations [{[1; 2]}; {[3; 4]}]))
    (permutations [{[1; 2]}; {[2; 3]}; {[3; 4]}; {[1; 4]}]).
Proof. by_compute. Qed.

(** C3, as amended. On a TS graph whose only reacting ring is the
    four-membered ring of the bonds {1,2}, {2,3}, {3,4} and {1,4}, with
    breaking bonds {1,2} and {3,4} and no forming bond, two ring bonds pass
    the test of an elimination bond, {1,4} and {2,3}, and [eliminations]
    takes the one that the iteration over the ring bonds meets first: the
    result is {{1,4}: (2, 3, None)} when {1,4} comes before {2,3}, and
    {{2,3}: (1, 4, None)} otherwise. *)
Theorem eliminations_four_ring {graph} `{GraphLayer graph} (tsg : graph)
    (rng_bkeys : list BondKey) :
  ts_breaking_bond_keys tsg ≡ₚ [{[1; 2]}; {[3; 4]}] →
  ts_forming_bond_keys tsg = [] →
  reacting_rings_bond_keys tsg = [rng_bkeys] →
  rng_bkeys ≡ₚ [{[1; 2]}; {[2; 3]}; {[3; 4]}; {[1; 4]}] →
  is_elimination_bkey (bkeys_inter (ts_breaking_bond_keys tsg) rng_bkeys) [] {[1; 4]} = true
  ∧ is_elimination_bkey (bkeys_inter (ts_breaking_bond_keys tsg) rng_bkeys) [] {[2; 3]} = true
  ∧ eliminations tsg =
      Ok (if before rng_bkeys {[1; 4]} {[2; 3]}
          then {[ {[1; 4]} := (2, 3, None) ]}
          else {[ {[2; 3]} := (1, 4, None) ]}).
Proof.
  intros Hbrk Hfrm Hrngs Hrng. unfold eliminations.
  rewrite Hfrm, Hrngs.
  symmetry in Hbrk, Hrng. apply permutations_Permutation in Hbrk, Hrng.
  pose proof four_ring_all_orders as Hall.
  rewrite Forall_forall in Hall. specialize (Hall _ Hrng).
  rewrite Forall_forall in Hall. specialize (Hall _ Hbrk).
  unfold four_ring_check in Hall.
  apply andb_true_iff in Hall as [Hall H3]. apply andb_true_iff in Hall as [H1 H2].
  apply bool_decide_eq_true in H3. done.
Qed.

Lemma eliminations_four_ring_witness :
  eliminations elimination_graph = Ok {[ {[1; 4]} := (2, 3, None) ]}
  ∧ eliminations elimination_graph' = Ok {[ {[2; 3]} := (1, 4, None) ]}.
Proof.
  split.
  - destruct (eliminations_four_ring elimination_graph
                [{[3; 4]}; {[1; 4]}; {[2; 3]}; {[1; 2]}]) as (_ & _ & He);
      [by_compute | reflexivity | reflexivity | by_compute | exact He].
  - destruct (eliminations_four_ring elimination_graph'
                [{[1; 2]}; {[2; 3]}; {[3; 4]}; {[1; 4]}]) as (_ & _ & He);
      [by_compute | reflexivity | reflexivity | by_compute | exact He].
Defined.

(** C3, as stated, fails: in the ring of the scenario the bond {2,3} touches
    both breaking bonds and is no forming bond either, so that {1,4} is not
    the only such ring bond. *)
Lemma eliminations_second_candidate : ¬ unique_elimination_bond elimination_graph.
Proof.
  intros [_ Hu].
  specialize (Hu [{[3; 4]}; {[1; 4]}; {[2; 3]}; {[1; 2]}] {[2; 3]}).
  assert ({[2; 3]} = ({[1; 4]} : gset Z)) as Heq.
  { apply Hu; [by_compute | by_compute | vm_compute; reflexivity]. }
  vm_compute in Heq. discriminate.
Qed.

Lemma next_iter_Ok (s : gset Z) : s ≠ ∅ → is_Ok (next_iter s).
Proof.
  intros Hs. unfold next_iter. destruct (elements s) as [|x l] eqn:E.
  - exfalso. apply Hs. apply leibniz_equiv. by apply elements_empty_iff.
  - by eexists.
Qed.

Lemma is_elimination_bkey_inv (brk_bkeys frm_bkeys : list BondKey) (bkey : BondKey) :
  is_elimination_bkey brk_bkeys frm_bkeys bkey = true →
  (∀ bk, bk ∈ brk_bkeys → bkey ∩ bk ≠ ∅) ∧ bkey ∉ frm_bkeys.
Proof.
  unfold is_elimination_bkey. intros [Hall Hn]%andb_true_iff. split.
  - intros bk Hbk. rewrite forallb_forall in Hall.
    apply truthy_true, Hall. by apply list_elem_of_In.
  - by apply bool_decide_eq_true in Hn.
Qed.

Section MultipleFormingBonds.
Context {graph : Type} `{GraphLayer graph}.
Variables (brk_bkeys_pool frm_bkeys_pool rng_bkeys : list BondKey) (bkey : BondKey).

Let brk_bkeys := bkeys_inter brk_bkeys_pool rng_bkeys.
Let frm_bkeys := bkeys_inter frm_bkeys_pool rng_bkeys.

Hypothesis two_breaking : length brk_bkeys = 2%nat.
Hypothesis elimination_bond :
  head (filter (λ bk, is_elimination_bkey brk_bkeys frm_bkeys bk = true) rng_bkeys)
  = Some bkey.
Hypothesis many_forming : (1 < length frm_bkeys)%nat.

Lemma sorted_breaking_pair :
  ∃ b1 b2, sorted_partial (λ a b : Z, bool_decide (a < b)) (common_atom bkey) brk_bkeys
           = Ok [b1; b2] ∧ b1 ∈ brk_bkeys ∧ b2 ∈ brk_bkeys.
Proof.
  apply head_Some_elem_of, list_elem_of_filter in elimination_bond as [He _].
  apply is_elimination_bkey_inv in He as [Hall _].
  destruct (sorted_partial_Ok (λ a b : Z, bool_decide (a < b)) (common_atom bkey) brk_bkeys)
    as (srt & Hsrt & Hperm).
  { intros bk Hbk. apply next_iter_Ok. by apply Hall. }
  pose proof (Permutation_length Hperm) as Hlen. rewrite two_breaking in Hlen.
  destruct srt as [|b1 [|b2 [|b3 srt]]]; try discriminate.
  exists b1, b2. split; [done|]. rewrite <- Hperm. set_solver.
Qed.

Lemma eliminations_step_raises (elim_dct : elim_dict) :
  ∃ e, eliminations_step brk_bkeys_pool frm_bkeys_pool elim_dct rng_bkeys = Raise e.
Proof.
  destruct sorted_breaking_pair as (b1 & b2 & Hsrt & _).
  unfold eliminations_step. fold brk_bkeys frm_bkeys.
  rewrite bool_decide_eq_true_2 by done. rewrite elimination_bond, Hsrt. simpl.
  destruct (unpack1 (b1 ∖ bkey)); simpl; [|by eexists].
  destruct (unpack1 (b2 ∖ bkey)); simpl; [|by eexists].
  rewrite bool_decide_eq_false_2 by lia. simpl. by eexists.
Qed.

Lemma eliminations_step_asserts (elim_dct : elim_dict) :
  Forall (λ bk, size (bk ∖ bkey) = 1%nat) brk_bkeys →
  eliminations_step brk_bkeys_pool frm_bkeys_pool elim_dct rng_bkeys
  = Raise (AssertionError "Unexpected multiple forming bonds:{tsg}").
Proof.
  rewrite Forall_forall. intros Hlea. destruct sorted_breaking_pair as (b1 & b2 & Hsrt & Hb1 & Hb2).
  unfold eliminations_step. fold brk_bkeys frm_bkeys.
  rewrite bool_decide_eq_true_2 by done. rewrite elimination_bond, Hsrt. simpl.
  destruct (size_1_singleton _ (Hlea _ Hb1)) as [l1 ->].
  destruct (size_1_singleton _ (Hlea _ Hb2)) as [l2 ->].
  rewrite !unpack1_singleton. simpl.
  by rewrite bool_decide_eq_false_2 by lia.
Qed.

End MultipleFormingBonds.

(** C9. If a reacting ring holds exactly two breaking bonds, an elimination
    bond is found in it, and it holds more than one forming bond, then
    [eliminations] returns no dict; and when the rings before it raise
    nothing and each of the two breaking bonds has one atom off the
    elimination bond (the leaving atom), the exception is the assertion
    error on multiple forming bonds. *)
Theorem eliminations_multiple_forming_bonds {graph} `{GraphLayer graph} (tsg : graph)
    (pre suf : list (list BondKey)) (rng_bkeys : list BondKey) (bkey : BondKey) :
  let brk_bkeys := bkeys_inter (ts_breaking_bond_keys tsg) rng_bkeys in
  let frm_bkeys := bkeys_inter (ts_forming_bond_keys tsg) rng_bkeys in
  reacting_rings_bond_keys tsg = pre ++ rng_bkeys :: suf →
  length brk_bkeys = 2%nat →
  head (filter (λ bk, is_elimination_bkey brk_bkeys frm_bkeys bk = true) rng_bkeys)
    = Some bkey →
  (1 < length frm_bkeys)%nat →
  (∀ elim_dct, eliminations tsg ≠ Ok elim_dct)
  ∧ (is_Ok (foldM (eliminations_step (ts_breaking_bond_keys tsg) (ts_forming_bond_keys tsg))
              ∅ pre) →
     Forall (λ bk, size (bk ∖ bkey) = 1%nat) brk_bkeys →
     eliminations tsg = Raise (AssertionError "Unexpected multiple forming bonds:{tsg}")).
Proof.
  intros brk_bkeys frm_bkeys Hrngs H2 He Hf. unfold eliminations.
  rewrite Hrngs, foldM_app. split.
  - intros d. destruct (foldM _ ∅ pre) as [d'|]; [|done]. simpl.
    destruct (eliminations_step_raises _ _ _ _ H2 He Hf d') as [e ->]. done.
  - intros [d' ->] Hlea. simpl.
    by rewrite (eliminations_step_asserts _ _ _ _ H2 He Hf d' Hlea).
Qed.

Lemma eliminations_multiple_forming_bonds_witness :
  eliminations two_forming_graph
  = Raise (AssertionError "Unexpected multiple forming bonds:{tsg}").
Proof.
  destruct (eliminations_multiple_forming_bonds two_forming_graph [] []
              [{[1; 2]}; {[2; 3]}; {[3; 4]}; {[4; 5]}; {[1; 5]}] {[1; 5]}) as [_ Ha].
  - reflexivity.
  - by_compute.
  - vm_compute. reflexivity.
  - by_compute.
  - apply Ha; [by eexists | by_compute].
Defined.

(** ** [atom_stereo_sorted_neighbor_keys] *)

Lemma prio_le_trans (p q r : prio) : prio_le p q → prio_le q r → prio_le p r.
Proof.
  unfold prio_le. destruct p, q, r; simpl; try done.
  rewrite !bool_decide_eq_false. lia.
Qed.

Lemma prio_ltb_le (p q : prio) : prio_ltb p q = true → prio_le p q.
Proof.
  unfold prio_le. destruct p, q; simpl; try done.
  rewrite bool_decide_eq_true, bool_decide_eq_false. lia.
Qed.

Lemma insert_sorted_prio {A} (key : A → prio) (x : A) (l : list A) :
  StronglySorted (λ a b, prio_le (key a) (key b)) l →
  StronglySorted (λ a b, prio_le (key a) (key b)) (insert_sorted prio_ltb key x l).
Proof.
  induction 1 as [|y l Hs IH Hall]; simpl.
  - repeat constructor.
  - destruct (prio_ltb (key y) (key x)) eqn:E.
    + constructor; [done|]. rewrite (insert_sorted_perm prio_ltb).
      constructor; [by apply prio_ltb_le|done].
    + constructor; [by constructor|].
      constructor; [done|].
      eapply Forall_impl; [exact Hall|]. intros z Hz. simpl in Hz.
      by apply (prio_le_trans _ (key y)).
Qed.

Lemma sorted_prio_sorted {A} (key : A → prio) (l : list A) :
  StronglySorted (λ a b, prio_le (key a) (key b)) (sorted prio_ltb key l).
Proof.
  induction l as [|x l IH]; simpl; [constructor|]. by apply insert_sorted_prio.
Qed.

(** C4, as amended. Let [ns] be the neighbours of the atom and [nhyd] the
    number of its implicit hydrogens, and [nkeys] the list of these
    neighbours and of one placeholder per hydrogen, sorted by ascending
    priority. With [self_apex] set, [atom_stereo_sorted_neighbor_keys]
    returns the atom's own key followed by [nkeys], four keys in all, when
    [nkeys] has exactly 3 entries; the call is fatal (the assertion fails)
    when it has fewer than 3; and it returns [nkeys] as it is, without apex,
    when it has 4 or more. *)
Theorem atom_stereo_self_apex {graph} `{GraphLayer graph} (gra : graph) (key : Z)
    (pri : option (gmap Z prio)) (subst_dct : gmap Z (Z * Z)) (ns : list Z) (nhyd : nat) :
  let gra0 := without_dummy_atoms gra in
  let pri_dct := match pri with
                 | None => local_stereo_priorities gra0
                 | Some d => d
                 end in
  let gra1 := if bool_decide (key ∈ dom subst_dct)
              then ts_reactants_graph_without_stereo gra0 else gra0 in
  let nkeys := sorted prio_ltb (sort_value_ pri_dct) ((Some <$> ns) ++ replicate nhyd None) in
  substitutions gra0 = Ok subst_dct →
  atom_neighbor_atom_keys gra1 key = Ok ns →
  atom_implicit_hydrogens gra0 !! key = Some nhyd →
  nkeys ≡ₚ (Some <$> ns) ++ replicate nhyd None
  ∧ StronglySorted (λ a b, prio_le (sort_value_ pri_dct a) (sort_value_ pri_dct b)) nkeys
  ∧ (length ns + nhyd = 3 →
       atom_stereo_sorted_neighbor_keys gra key true pri = Ok (Some key :: nkeys)
       ∧ length (Some key :: nkeys) = 4)%nat
  ∧ (length ns + nhyd < 3 →
       atom_stereo_sorted_neighbor_keys gra key true pri
       = Raise (AssertionError EmptyString))%nat
  ∧ (4 ≤ length ns + nhyd →
       atom_stereo_sorted_neighbor_keys gra key true pri = Ok nkeys)%nat.
Proof.
  intros gra0 pri_dct gra1 nkeys Hsub Hns Hnh.
  assert (length nkeys = length ns + nhyd)%nat as Hlen.
  { unfold nkeys. by rewrite length_sorted, length_app, length_fmap, length_replicate. }
  split; [apply sorted_perm|]. split; [apply sorted_prio_sorted|].
  unfold atom_stereo_sorted_neighbor_keys.
  fold gra0. rewrite Hsub. simpl. fold gra1. rewrite Hns. simpl.
  unfold getitem. rewrite Hnh. simpl. fold pri_dct. fold nkeys.
  repeat split.
  - rewrite bool_decide_eq_true_2 by lia. simpl.
    rewrite bool_decide_eq_true_2 by lia. done.
  - simpl. lia.
  - intros Hlt. rewrite bool_decide_eq_true_2 by lia. simpl.
    rewrite bool_decide_eq_false_2 by lia. done.
  - intros Hge. rewrite bool_decide_eq_false_2 by lia. done.
Qed.

Lemma atom_stereo_self_apex_witness :
  atom_stereo_sorted_neighbor_keys three_neighbor_graph 1 true None
  = Ok [Some 1; Some 2; Some 3; Some 4].
Proof.
  destruct (atom_stereo_self_apex three_neighbor_graph 1 None ∅ [4; 2; 3] 0)
    as (_ & _ & H3 & _).
  - reflexivity.
  - vm_compute. reflexivity.
  - reflexivity.
  - destruct H3 as [H3 _]; [reflexivity|]. exact H3.
Defined.

(** C4, as stated, fails: an atom with four neighbours is answered with the
    four sorted neighbour keys when the apex is asked for. *)
Lemma self_apex_four_neighbors : ¬ self_apex_needs_three four_neighbor_graph 1.
Proof.
  intros Hc. destruct (Hc [Some 2; Some 3; Some 4; Some 5]) as [e He].
  - vm_compute. reflexivity.
  - simpl. lia.
  - vm_compute in He. discriminate.
Qed.

(** ** [ts_reacting_electron_direction] *)

(** C8. For every TS graph and every key that is not one of its reacting
    atoms, [ts_reacting_electron_direction] raises the assertion error on a
    non-reacting atom, and so returns no value. *)
Theorem ts_reacting_electron_direction_not_reacting {graph} `{GraphLayer graph}
    (tsg : graph) (key : Z) :
  key ∉ ts_reacting_atom_keys tsg →
  ts_reacting_electron_direction tsg key
  = Raise (AssertionError "Atom {key} is not a reacting atom:{tsg}").
Proof.
  intros Hk. unfold ts_reacting_electron_direction.
  by rewrite bool_decide_eq_false_2.
Qed.

Lemma ts_reacting_electron_direction_not_reacting_witness :
  ts_reacting_electron_direction double_transfer_graph 7
  = Raise (AssertionError "Atom {key} is not a reacting atom:{tsg}").
Proof.
  apply (ts_reacting_electron_direction_not_reacting double_transfer_graph 7).
  by_compute.
Defined.

(** ** Loops that fill a dict *)

Lemma foldM_entries {A K V} `{Countable K} (f : gmap K V → A → result (gmap K V))
    (P : K → V → Prop) (l : list A) :
  (∀ m x m', x ∈ l → f m x = Ok m' → m' = m ∨ ∃ k v, m' = <[k := v]> m ∧ P k v) →
  ∀ m0 m, foldM f m0 l = Ok m →
    (∀ k v, m0 !! k = Some v → P k v) → ∀ k v, m !! k = Some v → P k v.
Proof.
  induction l as [|x l IH]; intros Hstep m0 m; simpl.
  - by intros [= <-].
  - destruct (f m0 x) as [m1|] eqn:E; [|discriminate]. simpl.
    intros Hf H0. eapply IH; [|exact Hf|].
    + intros m2 y m2' Hy. apply Hstep. by right.
    + destruct (Hstep _ _ _ (list_elem_of_here _ _) E) as [->|(k & v & -> & HP)]; [done|].
      intros k' v'. destruct (decide (k = k')) as [<-|Hne].
      * rewrite lookup_insert_eq. by intros [= <-].
      * rewrite lookup_insert_ne by done. apply H0.
Qed.

Lemma foldM_dom_mono {A K V} `{Countable K} (f : gmap K V → A → result (gmap K V))
    (l : list A) :
  (∀ m x m', f m x = Ok m' → dom m ⊆ dom m') →
  ∀ m0 m, foldM f m0 l = Ok m → dom m0 ⊆ dom m.
Proof.
  intros Hstep. induction l as [|x l IH]; intros m0 m; simpl.
  - by intros [= <-].
  - destruct (f m0 x) as [m1|] eqn:E; [|discriminate]. simpl.
    intros Hf. etrans; [by eapply Hstep|by apply IH].
Qed.

Lemma parity_getitem_Ok {graph} `{GraphLayer graph} (loc_tsg : graph)
    (k : StereoKey) (p : bool) :
  parity_getitem
    (filter_by_value (stereo_parities loc_tsg) (λ x, bool_decide (is_Some x))) k = Ok p →
  stored_parity loc_tsg k p.
Proof.
  unfold parity_getitem, filter_by_value, stored_parity.
  destruct (filter _ _ !! k) as [[q|]|] eqn:E; try discriminate.
  intros [= ->]. by apply map_lookup_filter_Some in E as [E _].
Qed.

(** ** [vinyl_addition_local_parities] *)

Lemma vinyl_step_inv {graph} `{GraphLayer graph} (loc_tsg : graph)
    (m m' : gmap (gset Z) bool) (akey : Z) (bkey : BondKey) :
  vinyl_step loc_tsg m (akey, bkey) = Ok m' →
  m' = m
  ∨ ∃ par, bkey ∈ bond_stereo_keys loc_tsg ∧ stored_parity loc_tsg (inr bkey) par
           ∧ vinyl_top_changed loc_tsg akey bkey ∧ m' = <[bkey := negb par]> m.
Proof.
  unfold vinyl_step.
  destruct (bool_decide (bkey ∈ bond_stereo_keys loc_tsg)) eqn:Este;
    [|intros [= <-]; by left].
  apply bool_decide_eq_true in Este.
  destruct (parity_getitem _ _) as [par|] eqn:Epar; [|discriminate]. simpl.
  apply parity_getitem_Ok in Epar.
  destruct (unpack1 _) as [nkey|] eqn:Enk; [|discriminate]. simpl.
  apply unpack1_Ok in Enk.
  destruct (bond_stereo_sorted_neighbor_keys loc_tsg _ _ _) as [[nkeys_ts o_ts]|] eqn:Ets;
    [|discriminate]. simpl.
  destruct (bond_stereo_sorted_neighbor_keys (ts_reactants_graph_without_stereo _) _ _ _)
    as [[nkeys_r o_r]|] eqn:Er;
    [|discriminate]. simpl.
  destruct (last nkeys_r) as [top_r|] eqn:Elr; [|intros [= <-]; by left].
  destruct (last nkeys_ts) as [top_ts|] eqn:Elts; [|discriminate].
  destruct (bool_decide (top_r ≠ top_ts)) eqn:Etop; [|intros [= <-]; by left].
  apply bool_decide_eq_true in Etop. intros [= <-]. right.
  exists par. repeat split; try done.
  by exists nkey, nkeys_ts, o_ts, nkeys_r, o_r, top_r, top_ts.
Qed.

Lemma vinyl_step_unchanged {graph} `{GraphLayer graph} (loc_tsg : graph)
    (m m' : gmap (gset Z) bool) (akey : Z) (bkey : BondKey) (par : bool) :
  bkey ∈ bond_stereo_keys loc_tsg → vinyl_top_changed loc_tsg akey bkey →
  vinyl_step loc_tsg m (akey, bkey) = Ok m' →
  ∃ par, m' = <[bkey := negb par]> m.
Proof.
  intros Hste (nkey & nkeys_ts & o_ts & nkeys_r & o_r & top_r & top_ts
               & Hnk & Hts & Hr & Hlr & Hlts & Hne).
  unfold vinyl_step. rewrite bool_decide_eq_true_2 by done.
  destruct (parity_getitem _ _) as [par'|]; [|discriminate]. simpl.
  rewrite Hnk, unpack1_singleton. simpl. rewrite Hts. simpl. rewrite Hr. simpl.
  rewrite Hlr, Hlts, bool_decide_eq_true_2 by done.
  intros [= <-]. by exists par'.
Qed.

(** C10. Every entry of the result of [vinyl_addition_local_parities] is for
    the stereo bond of a vinyl radical atom whose highest-priority neighbour
    differs between the reactants and the TS graph, and its value is the
    negation of the parity stored for the bond; a bond whose vinyl atoms all
    keep their highest-priority neighbour has no entry; and a vinyl stereo
    bond with a changed neighbour has its entry. *)
Theorem vinyl_addition_flips_changed_only {graph} `{GraphLayer graph} (loc_tsg : graph)
    (par_dct : gmap (gset Z) bool) :
  vinyl_addition_local_parities loc_tsg = Ok par_dct →
  (∀ bkey v, par_dct !! bkey = Some v →
     ∃ akey par, vinyl_stereo_site loc_tsg akey bkey
                 ∧ vinyl_top_changed loc_tsg akey bkey
                 ∧ stored_parity loc_tsg (inr bkey) par ∧ v = negb par)
  ∧ (∀ bkey, (∀ akey, vinyl_stereo_site loc_tsg akey bkey →
                      ¬ vinyl_top_changed loc_tsg akey bkey) →
             par_dct !! bkey = None)
  ∧ (∀ akey bkey par, vinyl_stereo_site loc_tsg akey bkey →
       vinyl_top_changed loc_tsg akey bkey → stored_parity loc_tsg (inr bkey) par →
       par_dct !! bkey = Some (negb par)).
Proof.
  intros Hf. unfold vinyl_addition_local_parities in Hf.
  assert (∀ bkey v, par_dct !! bkey = Some v →
     ∃ akey par, vinyl_stereo_site loc_tsg akey bkey
                 ∧ vinyl_top_changed loc_tsg akey bkey
                 ∧ stored_parity loc_tsg (inr bkey) par ∧ v = negb par) as Hsound.
  { eapply (foldM_entries (vinyl_step loc_tsg)); [|exact Hf|].
    - intros m [akey bkey] m' Hin Hstep.
      apply vinyl_step_inv in Hstep as [->|(par & Hste & Hpar & Hch & ->)]; [by left|].
      right. exists bkey, (negb par). split; [done|]. by exists akey, par.
    - intros k v. by rewrite lookup_empty. }
  split; [exact Hsound|]. split.
  - intros bkey Hno. destruct (par_dct !! bkey) as [v|] eqn:E; [|done].
    destruct (Hsound _ _ E) as (akey & par & Hsite & Hch & _). by destruct (Hno akey).
  - intros akey bkey par [Hin Hste] Hch Hpar.
    apply list_elem_of_split in Hin as (pre & suf & Hl). rewrite Hl in Hf.
    apply foldM_split_inv in Hf as (m1 & m2 & _ & E & Hf).
    destruct (vinyl_step_unchanged _ _ _ _ _ par Hste Hch E) as [par' ->].
    assert (bkey ∈ dom par_dct) as [v Hv]%elem_of_dom.
    { eapply (foldM_dom_mono (vinyl_step loc_tsg)); [|exact Hf|].
      - intros m [a b] m' Hstep.
        apply vinyl_step_inv in Hstep as [->|(? & _ & _ & _ & ->)]; [done|].
        rewrite dom_insert_L. set_solver.
      - rewrite dom_insert_L. set_solver. }
    rewrite Hv. destruct (Hsound _ _ Hv) as (_ & par2 & _ & _ & Hpar2 & ->).
    unfold stored_parity in *. congruence.
Qed.

Lemma vinyl_addition_flips_changed_only_witness :
  vinyl_addition_local_parities vinyl_graph = Ok {[ {[1; 2]} := false ]}
  ∧ ∃ akey par, vinyl_stereo_site vinyl_graph akey {[1; 2]}
                ∧ vinyl_top_changed vinyl_graph akey {[1; 2]}
                ∧ stored_parity vinyl_graph (inr {[1; 2]}) par ∧ false = negb par.
Proof.
  assert (vinyl_addition_local_parities vinyl_graph = Ok {[ {[1; 2]} := false ]}) as Hv
    by reflexivity.
  split; [exact Hv|].
  apply (proj1 (vinyl_addition_flips_changed_only vinyl_graph _ Hv) {[1; 2]} false).
  reflexivity.
Defined.

(** ** [constrained_1_2_insertion_local_parities] *)

(** The expression of the code is the formula of the spec. *)
Lemma xnor_of_xnors (p_a1 p_1 p_a2 p_2 : bool) :
  negb (xorb (negb (xorb p_a1 p_1)) (negb (xorb p_a2 p_2)))
  = constrained_parity p_a1 p_1 p_a2 p_2.
Proof. by destruct p_a1, p_1, p_a2, p_2. Qed.

Lemma getitem_Ok {V} (d : gmap Z V) (k : Z) (v : V) : getitem d k = Ok v → d !! k = Some v.
Proof. unfold getitem. destruct (d !! k); [|discriminate]. by intros [= ->]. Qed.

(** *** The forming bond of an atom *)

Lemma next_bond_with_first (frm_bkeys : list BondKey) (key : Z) (frm : BondKey) :
  next_bond_with frm_bkeys key = Ok frm → first_bond_with frm_bkeys key frm.
Proof.
  unfold next_bond_with.
  destruct (head (filter (λ k, key ∈ k) frm_bkeys)) as [f|] eqn:Eh; [|discriminate].
  intros [= ->]. induction frm_bkeys as [|x l IH]; [done|].
  rewrite filter_cons in Eh. destruct (decide (key ∈ x)) as [Hx|Hx].
  - injection Eh as ->. by exists [], l.
  - destruct (IH Eh) as (pre & suf & -> & Hin & Hpre).
    exists (x :: pre), suf. split; [done|]. split; [done|]. by constructor.
Qed.

Lemma first_bond_with_unique (bkeys : list BondKey) (key : Z) (frm frm' : BondKey) :
  first_bond_with bkeys key frm → first_bond_with bkeys key frm' → frm' = frm.
Proof.
  intros (pre & suf & -> & Hin & Hpre) (pre' & suf' & Heq & Hin' & Hpre').
  revert pre' Heq Hpre'. induction Hpre as [|x pre Hx _ IH]; intros pre' Heq Hpre'.
  - destruct Hpre' as [|y pre' Hy _]; simpl in Heq; [by injection Heq|].
    injection Heq as -> _. done.
  - destruct Hpre' as [|y pre' Hy Hpre']; simpl in Heq.
    + injection Heq as -> _. done.
    + injection Heq as _ Heq. by eapply IH.
Qed.

(** *** Sorting by priority

    Python's [sorted] is stable: what it returns is fixed by the list and
    the keys, and is told here without the sorting function. *)

Lemma insert_sorted_filter {A K} `{EqDecision K} (ltb : K → K → bool) (key : A → K)
    (p : K) (x : A) (l : list A) :
  (∀ k, ltb k k = false) →
  filter (λ y, key y = p) (insert_sorted ltb key x l) = filter (λ y, key y = p) (x :: l).
Proof.
  intros Hirr. induction l as [|y l IH]; simpl; [done|].
  destruct (ltb (key y) (key x)) eqn:E; [|done].
  rewrite filter_cons, IH, !filter_cons.
  destruct (decide (key y = p)) as [Hy|Hy], (decide (key x = p)) as [Hx|Hx]; try done.
  rewrite Hy, Hx, Hirr in E. discriminate.
Qed.

Lemma sorted_stable {A K} `{EqDecision K} (ltb : K → K → bool) (key : A → K)
    (p : K) (l : list A) :
  (∀ k, ltb k k = false) →
  filter (λ y, key y = p) (sorted ltb key l) = filter (λ y, key y = p) l.
Proof.
  intros Hirr. induction l as [|x l IH]; [done|].
  change (sorted ltb key (x :: l)) with (insert_sorted ltb key x (sorted ltb key l)).
  rewrite insert_sorted_filter by done. by rewrite !filter_cons, IH.
Qed.

Lemma prio_ltb_irrefl (p : prio) : prio_ltb p p = false.
Proof. destruct p; simpl; [done|]. apply bool_decide_eq_false. lia. Qed.

Lemma prio_le_antisym (p q : prio) : prio_le p q → prio_le q p → p = q.
Proof.
  unfold prio_le. destruct p, q; simpl; try done.
  rewrite !bool_decide_eq_false. intros. f_equal. lia.
Qed.

Lemma filter_decorated (pri_dct : gmap Z prio) (p : prio) (ks : list (prio * Z)) :
  Forall (λ kx, pri_dct !! kx.2 = Some kx.1) ks →
  filter (λ k, pri_dct !! k = Some p) (snd <$> ks) = snd <$> filter (λ kx, kx.1 = p) ks.
Proof.
  induction 1 as [|[q k] ks Hk _ IH]; [done|]. simpl in Hk.
  rewrite fmap_cons, !filter_cons. simpl. rewrite IH, Hk.
  destruct (decide (Some q = Some p)) as [Hp|Hp], (decide (q = p)) as [Hq|Hq];
    try done; congruence.
Qed.

Lemma sorted_by_priority_sorted (pri_dct : gmap Z prio) (nkeys nks : list Z) :
  sorted_by_priority pri_dct nkeys = Ok nks → priority_sorted pri_dct nkeys nks.
Proof.
  unfold sorted_by_priority, sorted_partial.
  destruct (mapR _ nkeys) as [ks|] eqn:E; [|discriminate]. simpl. intros [= <-].
  pose proof (decorate_inv _ _ _ E) as Hsnd.
  assert (Forall (λ kx : prio * Z, pri_dct !! kx.2 = Some kx.1) ks) as Hk.
  { eapply Forall_impl; [exact (decorate_keys _ _ _ E)|]. intros [q k]. simpl.
    apply getitem_Ok. }
  assert (Forall (λ kx : prio * Z, pri_dct !! kx.2 = Some kx.1) (sorted prio_ltb fst ks))
    as Hks by (by rewrite (sorted_perm prio_ltb)).
  split; [|split; [|split]].
  - rewrite <- Hsnd. apply Forall_fmap. eapply Forall_impl; [exact Hk|].
    intros [q k] Hq. simpl in *. by eexists.
  - rewrite <- Hsnd. apply fmap_Permutation, sorted_perm.
  - pose proof (sorted_prio_sorted fst ks) as Hs.
    revert Hs Hks. generalize (sorted prio_ltb fst ks). intros l Hs.
    induction Hs as [|[q k] l Hs IH Hall]; intros Hl; [constructor|].
    apply Forall_cons in Hl as [Hq Hl]. rewrite fmap_cons.
    constructor; [by apply IH|].
    apply Forall_fmap, Forall_forall. intros [q' k'] Hin p0 q0 Hp0 Hq0.
    rewrite Forall_forall in Hall, Hl.
    specialize (Hall _ Hin). specialize (Hl _ Hin). simpl in *.
    rewrite Hq in Hp0. rewrite Hl in Hq0. by injection Hp0 as <-; injection Hq0 as <-.
  - intros p. rewrite <- Hsnd, !filter_decorated by done. f_equal.
    apply sorted_stable, prio_ltb_irrefl.
Qed.

(** The sorted list is the only one. *)
Lemma priority_sorted_unique (pri_dct : gmap Z prio) (nkeys nks nks' : list Z) :
  priority_sorted pri_dct nkeys nks → priority_sorted pri_dct nkeys nks' → nks = nks'.
Proof.
  intros (Hpri & Hp & Hs & Hf) (_ & Hp' & Hs' & Hf').
  assert (∀ p, filter (λ k, pri_dct !! k = Some p) nks
               = filter (λ k, pri_dct !! k = Some p) nks') as Heq
    by (intros p; by rewrite Hf, Hf').
  assert (Forall (λ k, is_Some (pri_dct !! k)) nks) as Hall by (by rewrite Hp).
  assert (Forall (λ k, is_Some (pri_dct !! k)) nks') as Hall' by (by rewrite Hp').
  clear Hpri Hp Hp' Hf Hf'. revert nks' Hs' Heq Hall'.
  induction Hs as [|x l Hs IH Hx]; intros l' Hs' Heq Hall'.
  - destruct l' as [|y l']; [done|].
    apply Forall_cons in Hall' as [[q Hq] _]. specialize (Heq q).
    rewrite filter_nil, filter_cons, decide_True in Heq by done. discriminate.
  - apply Forall_cons in Hall as [[px Hpx] Hall].
    destruct l' as [|y l'].
    { specialize (Heq px). rewrite filter_cons, decide_True in Heq by done.
      discriminate. }
    apply Forall_cons in Hall' as [[py Hpy] Hall'].
    apply StronglySorted_inv in Hs' as [Hs' Hy].
    assert (x = y) as <-.
    { pose proof (Heq px) as Ex. pose proof (Heq py) as Ey.
      rewrite !filter_cons, (decide_True _ _ Hpx) in Ex.
      rewrite !filter_cons, (decide_True _ _ Hpy) in Ey.
      destruct (decide (pri_dct !! y = Some px)) as [Hyx|Hyx]; [congruence|].
      destruct (decide (pri_dct !! x = Some py)) as [Hxy|Hxy]; [congruence|].
      assert (x ∈ l') as Hin.
      { eapply (list_elem_of_filter (λ k, pri_dct !! k = Some px)).
        rewrite <- Ex. left. }
      assert (y ∈ l) as Hin'.
      { eapply (list_elem_of_filter (λ k, pri_dct !! k = Some py)).
        rewrite Ey. left. }
      rewrite Forall_forall in Hx, Hy.
      pose proof (Hx _ Hin' _ _ Hpx Hpy). pose proof (Hy _ Hin _ _ Hpy Hpx).
      assert (px = py) by by apply prio_le_antisym. congruence. }
    f_equal. apply IH; [done|done| |done].
    intros p. specialize (Heq p). rewrite !filter_cons in Heq.
    destruct (decide (pri_dct !! x = Some p)); [by injection Heq|done].
Qed.

Lemma constrained_step_inv {graph} `{GraphLayer graph} (loc_tsg : graph)
    (m m' : gmap (gset Z) bool) (bkey : BondKey) :
  constrained_step loc_tsg m bkey = Ok m' →
  m' = m ∨ ∃ v, constrained_entry loc_tsg bkey v ∧ m' = <[bkey := v]> m.
Proof.
  unfold constrained_step.
  destruct (forallb _ (elements bkey)); [|intros [= <-]; by left].
  destruct (elements bkey) as [|key1 [|key2 [|key3' l]]] eqn:Eb; try discriminate.
  destruct (next_bond_with _ key1) as [frm1|] eqn:Ef1; [|discriminate]. simpl.
  apply next_bond_with_first in Ef1.
  destruct (unpack1 (frm1 ∖ _)) as [key0|] eqn:E0; [|discriminate]. simpl.
  apply unpack1_Ok in E0.
  destruct (next_bond_with _ key2) as [frm2|] eqn:Ef2; [|discriminate]. simpl.
  apply next_bond_with_first in Ef2.
  destruct (unpack1 (frm2 ∖ _)) as [key3|] eqn:E3; [|discriminate]. simpl.
  apply unpack1_Ok in E3.
  destruct (existsb _ _); [|intros [= <-]; by left].
  destruct (parity_getitem _ (inl key1)) as [p_a1|] eqn:Ep1; [|discriminate]. simpl.
  apply parity_getitem_Ok in Ep1.
  destruct (parity_getitem _ (inl key2)) as [p_a2|] eqn:Ep2; [|discriminate]. simpl.
  apply parity_getitem_Ok in Ep2.
  destruct (getitem _ key1) as [nk1|] eqn:En1; [|discriminate]. simpl.
  apply getitem_Ok in En1.
  destruct (sorted_by_priority _ nk1) as [nk1s|] eqn:Es1; [|discriminate]. simpl.
  apply sorted_by_priority_sorted in Es1.
  destruct (getitem _ key2) as [nk2|] eqn:En2; [|discriminate]. simpl.
  apply getitem_Ok in En2.
  destruct (sorted_by_priority _ nk2) as [nk2s|] eqn:Es2; [|discriminate]. simpl.
  apply sorted_by_priority_sorted in Es2.
  intros [= <-]. right. rewrite xnor_of_xnors. eexists. split; [|done].
  by exists key1, key2, frm1, frm2, key0, key3, p_a1, p_a2, nk1, nk2, nk1s, nk2s.
Qed.

(** The parity of the spec for a bond is one value: the atoms of the bond,
    their forming partners, their stored parities, their neighbours and the
    sorted neighbours are all fixed by the graph. *)
Lemma constrained_entry_unique {graph} `{GraphLayer graph} (loc_tsg : graph)
    (bkey : BondKey) (v v' : bool) :
  constrained_entry loc_tsg bkey v → constrained_entry loc_tsg bkey v' → v' = v.
Proof.
  intros (k1 & k2 & f1 & f2 & k0 & k3 & pa1 & pa2 & n1 & n2 & n1s & n2s
          & He & Hf1 & H0 & Hf2 & H3 & Hp1 & Hp2 & Hn1 & Hs1 & Hn2 & Hs2 & ->)
         (k1' & k2' & f1' & f2' & k0' & k3' & pa1' & pa2' & n1' & n2' & n1s' & n2s'
          & He' & Hf1' & H0' & Hf2' & H3' & Hp1' & Hp2' & Hn1' & Hs1' & Hn2' & Hs2' & ->).
  rewrite He in He'. injection He' as <- <-.
  pose proof (first_bond_with_unique _ _ _ _ Hf1 Hf1') as ->.
  pose proof (first_bond_with_unique _ _ _ _ Hf2 Hf2') as ->.
  rewrite H0 in H0'. apply (inj singleton) in H0' as <-.
  rewrite H3 in H3'. apply (inj singleton) in H3' as <-.
  unfold stored_parity in *.
  rewrite Hp1 in Hp1'. injection Hp1' as <-.
  rewrite Hp2 in Hp2'. injection Hp2' as <-.
  rewrite Hn1 in Hn1'. injection Hn1' as <-.
  rewrite Hn2 in Hn2'. injection Hn2' as <-.
  by rewrite (priority_sorted_unique _ _ _ _ Hs1 Hs1'),
    (priority_sorted_unique _ _ _ _ Hs2 Hs2').
Qed.

(** C5. Every entry of the result of
    [constrained_1_2_insertion_local_parities] holds, for its bond, the
    parity NOT((p_a1 XOR p_1) XOR (p_a2 XOR p_2)), where p_a1 and p_a2 are
    the stored parities of the two bond atoms and p_1 and p_2 the parities of
    the permutations that move the other bond atom and the forming-bond
    partner to the front of each atom's priority-sorted neighbours: the
    neighbours of the atom in ascending order of priority, those of one
    priority in the order the graph gives them. The graph fixes this parity,
    so that the entry holds no other value. *)
Theorem constrained_insertion_parity_formula {graph} `{GraphLayer graph} (loc_tsg : graph)
    (par_dct : gmap (gset Z) bool) (bkey : BondKey) (v : bool) :
  constrained_1_2_insertion_local_parities loc_tsg = Ok par_dct →
  par_dct !! bkey = Some v →
  constrained_entry loc_tsg bkey v
  ∧ ∀ v', constrained_entry loc_tsg bkey v' → v' = v.
Proof.
  unfold constrained_1_2_insertion_local_parities. intros Hf Hk.
  assert (constrained_entry loc_tsg bkey v) as He.
  { eapply (foldM_entries (constrained_step loc_tsg)); [|exact Hf| |exact Hk].
    - intros m b m' _ Hstep.
      apply constrained_step_inv in Hstep as [->|(v' & He & ->)]; [by left|].
      right. by exists b, v'.
    - intros k w. by rewrite lookup_empty. }
  split; [done|]. intros v'. by apply constrained_entry_unique.
Qed.

Lemma constrained_insertion_parity_formula_witness :
  constrained_1_2_insertion_local_parities ranked_insertion_graph
  = Ok {[ {[1; 2]} := true ]}
  ∧ constrained_entry ranked_insertion_graph {[1; 2]} true
  ∧ ¬ constrained_entry ranked_insertion_graph {[1; 2]} false.
Proof.
  assert (constrained_1_2_insertion_local_parities ranked_insertion_graph
          = Ok {[ {[1; 2]} := true ]}) as Hc by reflexivity.
  split; [exact Hc|].
  destruct (constrained_insertion_parity_formula ranked_insertion_graph _ {[1; 2]} true Hc)
    as [He Hu]; [reflexivity|].
  split; [exact He|]. intros He'. by specialize (Hu _ He').
Defined.

(** ** Permutation parity *)







Lemma list_prod_perm_l {A B} (l1 l1' : list A) (l2 : list B) :
  l1 ≡ₚ l1' → list_prod l1 l2 ≡ₚ list_prod l1' l2.
Proof.
  induction 1 as [|x l1 l1' _ IH|x y l1|l1 l1' l1'' _ IH1 _ IH2]; simpl.
  - done.
  - by rewrite IH.
  - rewrite !(assoc (++)). f_equiv. apply (comm (++)).
  - by etrans.
Qed.

Lemma list_prod_perm_r {A B} (l1 : list A) (l2 l2' : list B) :
  l2 ≡ₚ l2' → list_prod l1 l2 ≡ₚ list_prod l1 l2'.
Proof.
  intros Hp. induction l1 as [|x l1 IH]; simpl; [done|].
  rewrite IH. f_equiv. by apply Permutation_map.
Qed.







(** Replacing, in a list, a key that occurs once by a key that does not
    occur in it is renaming along the transposition of the two keys. *)
Lemma swap_keys_involutive (x y z : option Z) : swap_keys x y (swap_keys x y z) = z.
Proof. unfold swap_keys. repeat case_decide; congruence. Qed.


#[global] Instance swap_keys_inj (x y : option Z) : Inj (=) (=) (swap_keys x y).
Proof.
  intros z1 z2 Heq.
  by rewrite <- (swap_keys_involutive x y z1), Heq, swap_keys_involutive.
Qed.







(** ** [sn2_local_stereo_reversal_flips] *)







(** *** Atom transfers of the reversed graph *)

Lemma step_dom_mono (m m' : gmap Z (Z * Z)) (p : BondKey * BondKey) :
  atom_transfers_step m p = Ok m' → dom m ⊆ dom m'.
Proof.
  intros [[_ ->]|(t & d & a & _ & ->)]%step_inv; [done|].
  rewrite dom_insert_L. set_solver.
Qed.

Lemma fold_transfers_member (l : list (BondKey * BondKey)) (m0 m : gmap Z (Z * Z))
    (p : BondKey * BondKey) (t d a : Z) :
  foldM atom_transfers_step m0 l = Ok m → p ∈ l → transfer_of p t d a → t ∈ dom m.
Proof.
  intros Hf (pre & suf & ->)%list_elem_of_split Ht.
  apply foldM_split_inv in Hf as (m1 & m2 & _ & Hs & Hf).
  rewrite (step_transfer _ _ _ _ _ Ht) in Hs. injection Hs as <-.
  eapply (foldM_dom_mono atom_transfers_step); [|exact Hf|].
  - intros ? ? ?. apply step_dom_mono.
  - rewrite dom_insert_L. set_solver.
Qed.

Lemma transfer_of_inj (p : BondKey * BondKey) (t d a d' a' : Z) :
  transfer_of p t d a → transfer_of p t d' a' → d = d' ∧ a = a'.
Proof.
  intros (_ & Hd & Ha) (_ & Hd' & Ha'). rewrite Hd in Hd'. rewrite Ha in Ha'.
  split; set_solver.
Qed.

Lemma transfer_of_swap (b f : BondKey) (t d a : Z) :
  transfer_of (b, f) t d a → transfer_of (f, b) t a d.
Proof.
  unfold transfer_of. simpl. intros (Ht & Hd & Ha).
  by rewrite (comm_L (∩) f b).
Qed.

Lemma transfers_lookup_iff (brk_bkeys frm_bkeys : list BondKey) (m : gmap Z (Z * Z))
    (t d a : Z) :
  single_transfers brk_bkeys frm_bkeys →
  foldM atom_transfers_step ∅ (list_prod brk_bkeys frm_bkeys) = Ok m →
  m !! t = Some (d, a)
  ↔ ∃ b f, b ∈ brk_bkeys ∧ f ∈ frm_bkeys ∧ transfer_of (b, f) t d a.
Proof.
  intros Hsingle Hf. split.
  - intros Hk. destruct (fold_transfers_lookup _ _ _ _ _ _ Hf Hk) as [He|([b f] & Hin & Ht)].
    + by rewrite lookup_empty in He.
    + apply list_elem_of_In, in_prod_iff in Hin as [Hb Hfr].
      exists b, f. by rewrite <- !list_elem_of_In in *.
  - intros (b & f & Hb & Hfr & Ht).
    assert ((b, f) ∈ list_prod brk_bkeys frm_bkeys) as Hin.
    { apply list_elem_of_In, in_prod_iff. by rewrite <- !list_elem_of_In. }
    pose proof (fold_transfers_member _ _ _ _ _ _ _ Hf Hin Ht) as [[d' a'] Hk]%elem_of_dom.
    rewrite Hk. f_equal.
    destruct (fold_transfers_lookup _ _ _ _ _ _ Hf Hk) as [He|(q & Hq & Ht')].
    { by rewrite lookup_empty in He. }
    unfold single_transfers in Hsingle. rewrite Forall_forall in Hsingle.
    specialize (Hsingle _ Hin). rewrite Forall_forall in Hsingle.
    assert ((b, f) = q) as <-.
    { apply Hsingle; [done| |].
      - destruct Ht as [-> _], Ht' as [-> _]. done.
      - destruct Ht as [Ht _]. simpl in *. rewrite Ht. apply size_singleton. }
    destruct (transfer_of_inj _ _ _ _ _ _ Ht Ht') as [-> ->]. done.
Qed.

Section Reversal.
Context {graph : Type} `{GraphLayer graph} (tsg : graph).

Hypothesis breaking_reversed :
  ts_breaking_bond_keys (ts_reverse tsg) ≡ₚ ts_forming_bond_keys tsg.
Hypothesis forming_reversed :
  ts_forming_bond_keys (ts_reverse tsg) ≡ₚ ts_breaking_bond_keys tsg.
Hypothesis tetrahedral_reversed :
  tetrahedral_atom_keys (ts_reverse tsg) = tetrahedral_atom_keys tsg.
Hypothesis bond_keys_wf :
  wf_bond_keys (ts_breaking_bond_keys tsg) (ts_forming_bond_keys tsg).
Hypothesis transfers_single :
  single_transfers (ts_breaking_bond_keys tsg) (ts_forming_bond_keys tsg).

Lemma wf_bond_keys_reverse :
  wf_bond_keys (ts_breaking_bond_keys (ts_reverse tsg)) (ts_forming_bond_keys (ts_reverse tsg)).
Proof.
  destruct bond_keys_wf as (Hb & Hf & Hd). unfold wf_bond_keys.
  rewrite breaking_reversed, forming_reversed. repeat split; try done.
  rewrite Forall_forall in *. intros f Hf'. rewrite forming_reversed.
  intros Hb'. by apply (Hd f).
Qed.

Lemma single_transfers_reverse :
  single_transfers (ts_breaking_bond_keys (ts_reverse tsg))
    (ts_forming_bond_keys (ts_reverse tsg)).
Proof.
  unfold single_transfers in *. rewrite Forall_forall in *.
  intros [f b] Hp. rewrite Forall_forall. intros [f' b'] Hq. simpl.
  apply list_elem_of_In, in_prod_iff in Hp as [Hf Hb], Hq as [Hf' Hb'].
  apply list_elem_of_In in Hf, Hb, Hf', Hb'.
  rewrite breaking_reversed in Hf, Hf'. rewrite forming_reversed in Hb, Hb'.
  assert ((b, f) ∈ list_prod (ts_breaking_bond_keys tsg) (ts_forming_bond_keys tsg)) as Hin
    by (apply list_elem_of_In, in_prod_iff; by rewrite <- !list_elem_of_In).
  assert ((b', f') ∈ list_prod (ts_breaking_bond_keys tsg) (ts_forming_bond_keys tsg)) as Hin'
    by (apply list_elem_of_In, in_prod_iff; by rewrite <- !list_elem_of_In).
  specialize (transfers_single _ Hin). rewrite Forall_forall in transfers_single.
  specialize (transfers_single _ Hin'). simpl in transfers_single.
  rewrite (comm_L (∩) f b), (comm_L (∩) f' b'). intros He Hs.
  by injection (transfers_single He Hs) as -> ->.
Qed.

Lemma atom_transfers_reverse (tra_dct : gmap Z (Z * Z)) :
  atom_transfers tsg = Ok tra_dct →
  atom_transfers (ts_reverse tsg) = Ok (prod_swap <$> tra_dct).
Proof.
  intros Hm. destruct (atom_transfers_returns _ wf_bond_keys_reverse) as [m' Hm'].
  rewrite Hm'. f_equal. apply map_eq. intros t. rewrite lookup_fmap.
  assert (∀ d a, m' !! t = Some (a, d) ↔ tra_dct !! t = Some (d, a)) as Hiff.
  { intros d a.
    rewrite (transfers_lookup_iff _ _ _ _ _ _ single_transfers_reverse Hm').
    rewrite (transfers_lookup_iff _ _ _ _ _ _ transfers_single Hm).
    split; intros (x & y & Hx & Hy & Ht); exists y, x.
    - rewrite breaking_reversed in Hx. rewrite forming_reversed in Hy.
      by apply transfer_of_swap in Ht.
    - rewrite breaking_reversed, forming_reversed. by apply transfer_of_swap in Ht. }
  destruct (tra_dct !! t) as [[d a]|] eqn:E; simpl.
  - by apply Hiff.
  - apply eq_None_not_Some. intros [[a d] E']. by apply Hiff in E'.
Qed.

Lemma substitutions_reverse (subst_dct : gmap Z (Z * Z)) :
  substitutions tsg = Ok subst_dct →
  substitutions (ts_reverse tsg) = Ok (prod_swap <$> subst_dct).
Proof.
  unfold substitutions.
  destruct (atom_transfers tsg) as [tra_dct|] eqn:Em; [|discriminate]. simpl.
  intros [= <-]. rewrite (atom_transfers_reverse _ Em). simpl. f_equal.
  rewrite tetrahedral_reversed, dom_fmap_L. unfold by_key.
  apply map_eq. intros t. rewrite lookup_fmap.
  destruct (tra_dct !! t) as [da|] eqn:E.
  - destruct (decide (t ∈ dom tra_dct ∩ tetrahedral_atom_keys tsg)) as [Hin|Hin].
    + rewrite (map_lookup_filter_Some_2 _ _ t (prod_swap da)); [|by rewrite lookup_fmap, E|done].
      by rewrite (map_lookup_filter_Some_2 _ _ t da).
    + rewrite !map_lookup_filter_None_2; [done| |]; right; intros ? _; done.
  - rewrite !map_lookup_filter_None_2; [done| |]; left; [done|by rewrite lookup_fmap, E].
Qed.

End Reversal.




(** * Further properties *)

(** ** More on [atom_transfers] and [substitutions] *)

Lemma foldM_raise_at {A B} (f : B → A → result B) (l : list A) (x : A) (acc : B) :
  x ∈ l → (∀ b, ∃ e, f b x = Raise e) → ∃ e, foldM f acc l = Raise e.
Proof.
  intros (pre & suf & ->)%list_elem_of_split Hx. rewrite foldM_app.
  destruct (foldM f acc pre) as [b|e]; simpl; [|by eexists].
  destruct (Hx b) as [e ->]. by eexists.
Qed.

Lemma foldM_raise_inv {A B} (f : B → A → result B) (l : list A) (acc : B) (e : exn) :
  foldM f acc l = Raise e → ∃ b x, x ∈ l ∧ f b x = Raise e.
Proof.
  revert acc. induction l as [|x l IH]; intros acc; simpl; [done|].
  destruct (f acc x) as [b|e'] eqn:E; simpl.
  - intros (b' & y & Hy & Hf)%IH. exists b', y. split; [by right|done].
  - intros [= ->]. exists acc, x. split; [left|done].
Qed.

Lemma foldM_Ok_step {A B} (f : B → A → result B) (l : list A) (acc b : B) (x : A) :
  foldM f acc l = Ok b → x ∈ l → ∃ b1 b2, f b1 x = Ok b2.
Proof.
  intros Hf (pre & suf & ->)%list_elem_of_split.
  apply foldM_split_inv in Hf as (b1 & b2 & _ & Hs & _). by exists b1, b2.
Qed.

Lemma unpack1_raise (s : gset Z) (e : exn) : unpack1 s = Raise e → e = ValueError.
Proof. unfold unpack1. destruct (elements s) as [|? [|? ?]]; congruence. Qed.

Lemma step_raise (m : gmap Z (Z * Z)) (p : BondKey * BondKey) (e : exn) :
  atom_transfers_step m p = Raise e → e = ValueError.
Proof.
  destruct p as [b f]. unfold atom_transfers_step.
  destruct (truthy (b ∩ f)); [|done].
  destruct (unpack1 (b ∩ f)) eqn:E1; simpl; [|intros [= <-]; by eapply unpack1_raise].
  destruct (unpack1 (b ∖ f)) eqn:E2; simpl; [|intros [= <-]; by eapply unpack1_raise].
  destruct (unpack1 (f ∖ b)) eqn:E3; simpl; [done|intros [= <-]; by eapply unpack1_raise].
Qed.

(** X1. [atom_transfers] returns the empty dict exactly when no breaking
    bond shares an atom with a forming bond. *)
Theorem atom_transfers_empty_iff {graph} `{GraphLayer graph} (tsg : graph) :
  atom_transfers tsg = Ok ∅
  ↔ ∀ b f, b ∈ ts_breaking_bond_keys tsg → f ∈ ts_forming_bond_keys tsg → b ∩ f = ∅.
Proof.
  unfold atom_transfers. split.
  - intros Hf b f Hb Hfr.
    assert ((b, f) ∈ list_prod (ts_breaking_bond_keys tsg) (ts_forming_bond_keys tsg)) as Hin
      by (apply list_elem_of_In, in_prod_iff; by rewrite <- !list_elem_of_In).
    destruct (foldM_Ok_step _ _ _ _ _ Hf Hin) as (m1 & m2 & Hs).
    apply step_inv in Hs as [[He _]|(t & d & a & Ht & _)]; [done|].
    pose proof (fold_transfers_member _ _ _ _ _ _ _ Hf Hin Ht) as Hdom.
    by rewrite dom_empty_L in Hdom.
  - intros Hall.
    assert (∀ l : list (BondKey * BondKey),
              (∀ p, p ∈ l → p.1 ∩ p.2 = ∅) → foldM atom_transfers_step ∅ l = Ok ∅) as Hl.
    { induction l as [|p l IH]; intros Hp; [done|]. simpl.
      rewrite step_disjoint by (apply Hp; left). simpl. apply IH.
      intros q Hq. apply Hp. by right. }
    apply Hl. intros [b f] [Hb Hfr]%list_elem_of_In%in_prod_iff.
    apply Hall; by apply list_elem_of_In.
Qed.

(** X2. [atom_transfers] raises [ValueError] whenever some non-empty bond
    key is breaking and forming at once. *)
Theorem atom_transfers_clash {graph} `{GraphLayer graph} (tsg : graph) (b : BondKey) :
  b ∈ ts_breaking_bond_keys tsg → b ∈ ts_forming_bond_keys tsg → b ≠ ∅ →
  atom_transfers tsg = Raise ValueError.
Proof.
  intros Hb Hf Hne.
  destruct (foldM_raise_at atom_transfers_step
              (list_prod (ts_breaking_bond_keys tsg) (ts_forming_bond_keys tsg)) (b, b) ∅)
    as [e He].
  - apply list_elem_of_In, in_prod_iff. by rewrite <- !list_elem_of_In.
  - intros m. unfold atom_transfers_step.
    rewrite (proj2 (truthy_true (b ∩ b))) by set_solver.
    destruct (unpack1 (b ∩ b)); simpl; [|by eexists].
    assert (b ∖ b = ∅) as -> by set_solver.
    unfold unpack1 at 1. rewrite elements_empty. simpl. by eexists.
  - unfold atom_transfers. rewrite He. f_equal.
    apply foldM_raise_inv in He as (m & p & _ & Hs). by eapply step_raise.
Qed.

Lemma atom_transfers_clash_witness : atom_transfers clash_graph = Raise ValueError.
Proof. apply (atom_transfers_clash clash_graph {[1; 2]}); by_compute. Defined.

(** X3. In the result of [atom_transfers], the transferring atom with its
    donor is a breaking bond of the graph, and with its acceptor a forming
    bond. *)
Theorem atom_transfers_bonds {graph} `{GraphLayer graph} (tsg : graph)
    (tra_dct : gmap Z (Z * Z)) (k don acc : Z) :
  atom_transfers tsg = Ok tra_dct → tra_dct !! k = Some (don, acc) →
  {[ k; don ]} ∈ ts_breaking_bond_keys tsg ∧ {[ k; acc ]} ∈ ts_forming_bond_keys tsg.
Proof.
  intros Hm Hk.
  destruct (atom_transfers_entry _ _ _ _ _ Hm Hk) as (b & f & Hb & Hf & Ht & Hd & Ha).
  simpl in *.
  assert (b = {[ k; don ]}) as <-.
  { rewrite <- Ht, <- Hd. apply set_eq. intros x.
    rewrite elem_of_union, elem_of_intersection, elem_of_difference.
    destruct (decide (x ∈ f)); naive_solver. }
  assert (f = {[ k; acc ]}) as <-; [|done].
  rewrite <- Ht, <- Ha. apply set_eq. intros x.
  rewrite elem_of_union, elem_of_intersection, elem_of_difference.
  destruct (decide (x ∈ b)); naive_solver.
Qed.

Lemma atom_transfers_bonds_witness :
  {[ 2; 1 ]} ∈ ts_breaking_bond_keys transfer_graph
  ∧ {[ 2; 3 ]} ∈ ts_forming_bond_keys transfer_graph.
Proof.
  apply (atom_transfers_bonds transfer_graph {[ 2 := (1, 3) ]} 2 1 3); reflexivity.
Defined.

Lemma single_transfers_perm (brk brk' frm frm' : list BondKey) :
  brk ≡ₚ brk' → frm ≡ₚ frm' → single_transfers brk frm → single_transfers brk' frm'.
Proof.
  intros Hb Hf. unfold single_transfers.
  assert (list_prod brk frm ≡ₚ list_prod brk' frm') as Hp.
  { etrans; [by apply list_prod_perm_l|by apply list_prod_perm_r]. }
  rewrite !Forall_forall. intros Hs p Hp'. rewrite Forall_forall. intros q Hq.
  rewrite <- Hp in Hp', Hq. specialize (Hs p Hp'). rewrite Forall_forall in Hs.
  by apply Hs.
Qed.

Lemma wf_bond_keys_perm (brk brk' frm frm' : list BondKey) :
  brk ≡ₚ brk' → frm ≡ₚ frm' → wf_bond_keys brk frm → wf_bond_keys brk' frm'.
Proof.
  intros Hb Hf (H1 & H2 & H3). unfold wf_bond_keys.
  rewrite <- Hb, <- Hf. repeat split; try done.
  rewrite Forall_forall in *. intros b Hbin. rewrite <- Hf. by apply H3.
Qed.

(** X4. On a TS graph whose bond keys hold two atoms each, are not breaking
    and forming at once and transfer each atom once, the result of
    [atom_transfers] does not depend on the order in which the breaking and
    the forming bonds are visited. *)
Theorem atom_transfers_order_independent {graph} `{GraphLayer graph} (tsg tsg' : graph) :
  ts_breaking_bond_keys tsg' ≡ₚ ts_breaking_bond_keys tsg →
  ts_forming_bond_keys tsg' ≡ₚ ts_forming_bond_keys tsg →
  wf_bond_keys (ts_breaking_bond_keys tsg) (ts_forming_bond_keys tsg) →
  single_transfers (ts_breaking_bond_keys tsg) (ts_forming_bond_keys tsg) →
  ∃ tra_dct, atom_transfers tsg = Ok tra_dct ∧ atom_transfers tsg' = Ok tra_dct.
Proof.
  intros Hb Hf Hwf Hs.
  pose proof (wf_bond_keys_perm _ _ _ _ (symmetry Hb) (symmetry Hf) Hwf) as Hwf'.
  pose proof (single_transfers_perm _ _ _ _ (symmetry Hb) (symmetry Hf) Hs) as Hs'.
  destruct (atom_transfers_returns tsg Hwf) as [m Hm].
  destruct (atom_transfers_returns tsg' Hwf') as [m' Hm'].
  exists m. split; [done|]. rewrite Hm'. f_equal. apply map_eq. intros t.
  assert (∀ d a, m' !! t = Some (d, a) ↔ m !! t = Some (d, a)) as Hiff.
  { intros d a. rewrite (transfers_lookup_iff _ _ _ _ _ _ Hs' Hm').
    rewrite (transfers_lookup_iff _ _ _ _ _ _ Hs Hm).
    split; intros (b & f & Hbin & Hfin & Ht); exists b, f.
    - by rewrite <- Hb, <- Hf.
    - by rewrite Hb, Hf. }
  destruct (m !! t) as [[d a]|] eqn:E.
  - by apply Hiff.
  - apply eq_None_not_Some. intros [[d a] E']. by apply Hiff in E'.
Qed.

Lemma atom_transfers_order_independent_witness :
  ts_breaking_bond_keys two_transfer_graph = [{[1; 2]}; {[5; 6]}]
  ∧ ts_breaking_bond_keys two_transfer_graph' = [{[5; 6]}; {[1; 2]}]
  ∧ ts_forming_bond_keys two_transfer_graph = [{[2; 3]}; {[6; 7]}]
  ∧ ts_forming_bond_keys two_transfer_graph' = [{[6; 7]}; {[2; 3]}]
  ∧ ∃ tra_dct, atom_transfers two_transfer_graph = Ok tra_dct
               ∧ atom_transfers two_transfer_graph' = Ok tra_dct.
Proof.
  split; [reflexivity|]. split; [reflexivity|].
  split; [reflexivity|]. split; [reflexivity|].
  apply (atom_transfers_order_independent two_transfer_graph two_transfer_graph').
  - exact (Permutation_swap {[1; 2]} {[5; 6]} []).
  - exact (Permutation_swap {[2; 3]} {[6; 7]} []).
  - unfold wf_bond_keys. repeat split; by_compute.
  - by_compute.
Defined.

(** X5. On such a graph, when the reversed graph has the breaking and the
    forming bonds exchanged, [atom_transfers] of the reversed graph is
    [atom_transfers] of the graph with donor and acceptor exchanged in every
    entry. *)
Theorem atom_transfers_reversed {graph} `{GraphLayer graph} (tsg : graph) :
  ts_breaking_bond_keys (ts_reverse tsg) ≡ₚ ts_forming_bond_keys tsg →
  ts_forming_bond_keys (ts_reverse tsg) ≡ₚ ts_breaking_bond_keys tsg →
  wf_bond_keys (ts_breaking_bond_keys tsg) (ts_forming_bond_keys tsg) →
  single_transfers (ts_breaking_bond_keys tsg) (ts_forming_bond_keys tsg) →
  ∃ tra_dct, atom_transfers tsg = Ok tra_dct
    ∧ atom_transfers (ts_reverse tsg) = Ok (prod_swap <$> tra_dct).
Proof.
  intros Hb Hf Hwf Hs. destruct (atom_transfers_returns tsg Hwf) as [m Hm].
  exists m. split; [done|]. by apply atom_transfers_reverse.
Qed.

Lemma atom_transfers_reversed_witness :
  atom_transfers sn2_graph = Ok {[ 2 := (1, 8) ]}
  ∧ atom_transfers (ts_reverse sn2_graph) = Ok {[ 2 := (8, 1) ]}.
Proof.
  destruct (atom_transfers_reversed sn2_graph) as (m & Hm & Hr).
  - reflexivity.
  - reflexivity.
  - unfold wf_bond_keys. repeat split; by_compute.
  - by_compute.
  - assert (m = {[ 2 := (1, 8) ]}) as ->.
    { assert (Ok m = Ok ({[ 2 := (1, 8) ]} : gmap Z (Z * Z))) as [= ->]; [|done].
      rewrite <- Hm. reflexivity. }
    split; [exact Hm|]. rewrite Hr. reflexivity.
Defined.

(** X6. On a TS graph whose bond keys hold two atoms each, are not breaking
    and forming at once and transfer each atom once, when the reversed graph
    has the breaking and the forming bonds exchanged and the tetrahedral
    atoms of the graph, [substitutions] of the reversed graph is
    [substitutions] of the graph with donor and acceptor exchanged in every
    entry; the sites are tetrahedral atoms of the TS graph itself. *)
Theorem substitutions_reversed {graph} `{GraphLayer graph} (tsg : graph) :
  ts_breaking_bond_keys (ts_reverse tsg) ≡ₚ ts_forming_bond_keys tsg →
  ts_forming_bond_keys (ts_reverse tsg) ≡ₚ ts_breaking_bond_keys tsg →
  tetrahedral_atom_keys (ts_reverse tsg) = tetrahedral_atom_keys tsg →
  wf_bond_keys (ts_breaking_bond_keys tsg) (ts_forming_bond_keys tsg) →
  single_transfers (ts_breaking_bond_keys tsg) (ts_forming_bond_keys tsg) →
  ∃ subst_dct, substitutions tsg = Ok subst_dct
    ∧ substitutions (ts_reverse tsg) = Ok (prod_swap <$> subst_dct)
    ∧ dom subst_dct ⊆ tetrahedral_atom_keys tsg.
Proof.
  intros Hb Hf Ht Hwf Hs. destruct (atom_transfers_returns tsg Hwf) as [m Hm].
  assert (substitutions tsg = Ok (by_key m (dom m ∩ tetrahedral_atom_keys tsg))) as Hsub
    by (unfold substitutions; by rewrite Hm).
  eexists. split; [exact Hsub|]. split; [by apply substitutions_reverse|].
  intros k [v Hk]%elem_of_dom. unfold by_key in Hk.
  apply map_lookup_filter_Some in Hk as [_ Hin]. simpl in Hin. set_solver.
Qed.

Lemma substitutions_reversed_witness :
  substitutions sn2_graph = Ok {[ 2 := (1, 8) ]}
  ∧ substitutions (ts_reverse sn2_graph) = Ok {[ 2 := (8, 1) ]}.
Proof.
  destruct (substitutions_reversed sn2_graph) as (m & Hm & Hr & _).
  - reflexivity.
  - reflexivity.
  - reflexivity.
  - unfold wf_bond_keys. repeat split; by_compute.
  - by_compute.
  - assert (m = {[ 2 := (1, 8) ]}) as ->.
    { assert (Ok m = Ok ({[ 2 := (1, 8) ]} : gmap Z (Z * Z))) as [= ->]; [|done].
      rewrite <- Hm. reflexivity. }
    split; [exact Hm|]. rewrite Hr. reflexivity.
Defined.

(** ** More on [eliminations] *)

Lemma sorted_StronglySorted {A K} (ltb : K → K → bool) (key : A → K) (l : list A) :
  (∀ x y, ltb x y = true → ltb y x = false) →
  (∀ x y z, ltb y x = false → ltb z y = false → ltb z x = false) →
  StronglySorted (λ a b, ltb (key b) (key a) = false) (sorted ltb key l).
Proof.
  intros Hasym Htrans. induction l as [|x l IH]; simpl; [constructor|].
  revert IH. generalize (sorted ltb key l). clear l. intros l Hs.
  induction Hs as [|y l Hs IH Hall]; simpl.
  - repeat constructor.
  - destruct (ltb (key y) (key x)) eqn:E.
    + constructor; [done|]. rewrite (insert_sorted_perm ltb).
      constructor; [by apply Hasym|done].
    + constructor; [by constructor|]. constructor; [done|].
      eapply Forall_impl; [exact Hall|]. intros z Hz. simpl in Hz.
      by apply (Htrans _ (key y)).
Qed.

(** Two elements sorted by an integer key come with their keys in order. *)
Lemma sorted_partial_pair {A} (key : A → result Z) (l : list A) (x y : A) :
  sorted_partial (λ a b : Z, bool_decide (a < b)) key l = Ok [x; y] →
  ∃ kx ky, key x = Ok kx ∧ key y = Ok ky ∧ kx ≤ ky.
Proof.
  unfold sorted_partial. destruct (mapR _ l) as [ks|] eqn:E; [|discriminate]. simpl.
  intros [= Hs]. pose proof (decorate_keys _ _ _ E) as Hk.
  pose proof (sorted_StronglySorted (λ a b : Z, bool_decide (a < b)) fst ks) as Hsrt.
  rewrite <- (sorted_perm (λ a b : Z, bool_decide (a < b)) fst ks) in Hk.
  destruct (sorted _ fst ks) as [|[kx x'] [|[ky y'] [|? ?]]]; try discriminate.
  injection Hs as -> ->. exists kx, ky.
  apply Forall_cons in Hk as [Hx Hk]. apply Forall_cons in Hk as [Hy _].
  split; [done|]. split; [done|].
  assert (StronglySorted (λ a b : Z * A, bool_decide (b.1 < a.1) = false)
            [(kx, x); (ky, y)]) as Hss.
  { apply Hsrt.
    - intros a b. rewrite bool_decide_eq_true, bool_decide_eq_false. lia.
    - intros a b c. rewrite !bool_decide_eq_false. lia. }
  apply StronglySorted_inv in Hss as [_ Hall]. apply Forall_cons in Hall as [Hle _].
  simpl in Hle. apply bool_decide_eq_false in Hle. lia.
Qed.

Lemma eliminations_step_inv {graph} `{GraphLayer graph} (tsg : graph)
    (d d' : elim_dict) (rng_bkeys : list BondKey) :
  rng_bkeys ∈ reacting_rings_bond_keys tsg →
  eliminations_step (ts_breaking_bond_keys tsg) (ts_forming_bond_keys tsg) d rng_bkeys
    = Ok d' →
  d' = d
  ∨ ∃ bkey b1 b2 c1 c2 l1 l2,
      elimination_site tsg rng_bkeys bkey b1 b2 c1 c2 l1 l2 ∧ c1 ≤ c2
      ∧ d' = <[bkey := (l1, l2,
                        head (bkeys_inter (ts_forming_bond_keys tsg) rng_bkeys))]> d.
Proof.
  intros Hrng. unfold eliminations_step.
  destruct (bool_decide _) eqn:E2; [|intros [= <-]; by left].
  destruct (head _) as [bkey|] eqn:Eh; [|intros [= <-]; by left].
  destruct (sorted_partial _ _ _) as [srt|] eqn:Es; [|discriminate]. simpl.
  destruct srt as [|b1 [|b2 [|? ?]]]; try discriminate.
  destruct (unpack1 (b1 ∖ bkey)) as [l1|] eqn:E1; [|discriminate]. simpl.
  destruct (unpack1 (b2 ∖ bkey)) as [l2|] eqn:El2; [|discriminate]. simpl.
  destruct (bool_decide (length _ ≤ 1)%nat) eqn:Ef; [|discriminate]. simpl.
  intros [= <-]. right.
  destruct (sorted_partial_pair _ _ _ _ Es) as (c1 & c2 & Hc1 & Hc2 & Hle).
  exists bkey, b1, b2, c1, c2, l1, l2. split; [|done].
  apply head_Some_elem_of, list_elem_of_filter in Eh as [He Hin].
  apply is_elimination_bkey_inv in He as [_ Hnf].
  apply unpack1_Ok in E1, El2. apply bool_decide_eq_true in Ef.
  unfold elimination_site. repeat split; try done.
  symmetry. by eapply sorted_partial_perm.
Qed.

Lemma eliminations_entries {graph} `{GraphLayer graph} (tsg : graph) (elim_dct : elim_dict)
    (bkey : BondKey) (l1 l2 : Z) (frm : option BondKey) :
  eliminations tsg = Ok elim_dct → elim_dct !! bkey = Some (l1, l2, frm) →
  ∃ rng_bkeys b1 b2 c1 c2,
    elimination_site tsg rng_bkeys bkey b1 b2 c1 c2 l1 l2 ∧ c1 ≤ c2
    ∧ frm = head (bkeys_inter (ts_forming_bond_keys tsg) rng_bkeys).
Proof.
  unfold eliminations. intros Hf Hk.
  pose proof (foldM_entries
    (eliminations_step (ts_breaking_bond_keys tsg) (ts_forming_bond_keys tsg))
    (λ bkey v, ∃ rng_bkeys b1 b2 c1 c2,
       elimination_site tsg rng_bkeys bkey b1 b2 c1 c2 v.1.1 v.1.2 ∧ c1 ≤ c2
       ∧ v.2 = head (bkeys_inter (ts_forming_bond_keys tsg) rng_bkeys))
    (reacting_rings_bond_keys tsg)) as Hent.
  apply (Hent) with (m0 := ∅) (m := elim_dct) (k := bkey) (v := (l1, l2, frm)); try done.
  intros m rng m' Hrng Hs.
  apply (eliminations_step_inv tsg _ _ _ Hrng) in Hs
    as [->|(bk & b1 & b2 & c1 & c2 & x1 & x2 & Hsite & Hle & ->)]; [by left|].
  right. eexists bk, _. split; [done|]. simpl. by exists rng, b1, b2, c1, c2.
Qed.

(** X7. Every entry of [eliminations] is for a bond of a reacting ring that
    holds exactly two breaking bonds; the bond is no forming bond, the two
    leaving atoms are the atoms that the two breaking bonds hold beside the
    bond, hence no atoms of the bond, and the third component is the forming
    bond of the ring, or [None] when the ring has none. *)
Theorem eliminations_entry_ring {graph} `{GraphLayer graph} (tsg : graph)
    (elim_dct : elim_dict) (bkey : BondKey) (l1 l2 : Z) (frm : option BondKey) :
  eliminations tsg = Ok elim_dct → elim_dct !! bkey = Some (l1, l2, frm) →
  ∃ rng_bkeys b1 b2,
    rng_bkeys ∈ reacting_rings_bond_keys tsg
    ∧ bkey ∈ rng_bkeys ∧ (bkey ∉ ts_forming_bond_keys tsg)
    ∧ bkeys_inter (ts_breaking_bond_keys tsg) rng_bkeys ≡ₚ [b1; b2]
    ∧ b1 ∖ bkey = {[ l1 ]} ∧ b2 ∖ bkey = {[ l2 ]}
    ∧ (l1 ∉ bkey) ∧ (l2 ∉ bkey)
    ∧ match frm with
      | Some f => bkeys_inter (ts_forming_bond_keys tsg) rng_bkeys = [f]
      | None => bkeys_inter (ts_forming_bond_keys tsg) rng_bkeys = []
      end.
Proof.
  intros Hf Hk.
  destruct (eliminations_entries _ _ _ _ _ _ Hf Hk)
    as (rng & b1 & b2 & c1 & c2 & Hsite & _ & Hfrm).
  destruct Hsite as (Hrng & Hin & Hnf & Hbrk & _ & _ & H1 & H2 & Hlen).
  exists rng, b1, b2. repeat split; try done.
  - intros Hfin. apply Hnf. unfold bkeys_inter. by apply list_elem_of_filter.
  - set_solver.
  - set_solver.
  - subst frm. destruct (bkeys_inter (ts_forming_bond_keys tsg) rng) as [|f [|? ?]];
      simpl in *; try done; lia.
Qed.

Lemma eliminations_entry_ring_witness :
  ∃ rng_bkeys b1 b2,
    rng_bkeys ∈ reacting_rings_bond_keys hx_elimination_graph
    ∧ {[1; 2]} ∈ rng_bkeys ∧ ({[1; 2]} ∉ ts_forming_bond_keys hx_elimination_graph)
    ∧ bkeys_inter (ts_breaking_bond_keys hx_elimination_graph) rng_bkeys ≡ₚ [b1; b2]
    ∧ b1 ∖ {[1; 2]} = {[ 5 ]} ∧ b2 ∖ {[1; 2]} = {[ 6 ]}
    ∧ (5 ∉ ({[1; 2]} : gset Z)) ∧ (6 ∉ ({[1; 2]} : gset Z))
    ∧ bkeys_inter (ts_forming_bond_keys hx_elimination_graph) rng_bkeys = [{[5; 6]}].
Proof.
  apply (eliminations_entry_ring hx_elimination_graph
           {[ {[1; 2]} := (5, 6, Some {[5; 6]}) ]} {[1; 2]} 5 6 (Some {[5; 6]}));
    reflexivity.
Defined.

(** X8. The two leaving atoms of an entry of [eliminations] come in the
    order of the atoms that their breaking bonds share with the elimination
    bond: the breaking bond of the first leaving atom shares the lower atom
    key. *)
Theorem eliminations_leaving_order {graph} `{GraphLayer graph} (tsg : graph)
    (elim_dct : elim_dict) (bkey : BondKey) (l1 l2 : Z) (frm : option BondKey) :
  eliminations tsg = Ok elim_dct → elim_dct !! bkey = Some (l1, l2, frm) →
  ∃ b1 b2 c1 c2,
    b1 ∈ ts_breaking_bond_keys tsg ∧ b2 ∈ ts_breaking_bond_keys tsg
    ∧ b1 ∖ bkey = {[ l1 ]} ∧ b2 ∖ bkey = {[ l2 ]}
    ∧ common_atom bkey b1 = Ok c1 ∧ common_atom bkey b2 = Ok c2
    ∧ c1 ∈ bkey ∩ b1 ∧ c2 ∈ bkey ∩ b2 ∧ c1 ≤ c2.
Proof.
  intros Hf Hk.
  destruct (eliminations_entries _ _ _ _ _ _ Hf Hk)
    as (rng & b1 & b2 & c1 & c2 & Hsite & Hle & _).
  destruct Hsite as (_ & _ & _ & Hbrk & Hc1 & Hc2 & H1 & H2 & _).
  assert (∀ b, b ∈ [b1; b2] → b ∈ ts_breaking_bond_keys tsg) as Hin.
  { intros b Hb. rewrite <- Hbrk in Hb. unfold bkeys_inter in Hb.
    by apply list_elem_of_filter in Hb as [_ Hb]. }
  assert (∀ b c, common_atom bkey b = Ok c → c ∈ bkey ∩ b) as Hcommon.
  { intros b c. unfold common_atom, next_iter.
    destruct (elements (bkey ∩ b)) as [|x l] eqn:E; [done|]. intros [= <-].
    apply elem_of_elements. rewrite E. left. }
  exists b1, b2, c1, c2. repeat split; try done; try (by apply Hcommon).
  - apply Hin. left.
  - apply Hin. right. left.
Qed.

Lemma eliminations_leaving_order_witness :
  ∃ b1 b2 c1 c2,
    b1 ∈ ts_breaking_bond_keys hx_elimination_graph
    ∧ b2 ∈ ts_breaking_bond_keys hx_elimination_graph
    ∧ b1 ∖ {[1; 2]} = {[ 5 ]} ∧ b2 ∖ {[1; 2]} = {[ 6 ]}
    ∧ common_atom {[1; 2]} b1 = Ok c1 ∧ common_atom {[1; 2]} b2 = Ok c2
    ∧ c1 ∈ ({[1; 2]} : gset Z) ∩ b1 ∧ c2 ∈ ({[1; 2]} : gset Z) ∩ b2 ∧ c1 ≤ c2.
Proof.
  apply (eliminations_leaving_order hx_elimination_graph
           {[ {[1; 2]} := (5, 6, Some {[5; 6]}) ]} {[1; 2]} 5 6 (Some {[5; 6]}));
    reflexivity.
Defined.

Lemma filter_all_false {A} (f : A → bool) (l : list A) :
  Forall (λ x, f x = false) l → filter (λ x, f x = true) l = [].
Proof.
  induction 1 as [|x l Hx _ IH]; [done|].
  rewrite filter_cons, decide_False by congruence. done.
Qed.

Lemma filter_nil_all_false {A} (f : A → bool) (l : list A) :
  filter (λ x, f x = true) l = [] → Forall (λ x, f x = false) l.
Proof.
  induction l as [|x l IH]; [constructor|].
  rewrite filter_cons. destruct (decide (f x = true)) as [Hx|Hx]; [done|].
  intros Hl. constructor; [by destruct (f x)|by apply IH].
Qed.

(** A ring that passes the two guards writes an entry or raises. *)
Lemma eliminations_step_taken (brk_bkeys_pool frm_bkeys_pool rng_bkeys : list BondKey)
    (d d' : elim_dict) (bkey : BondKey) :
  length (bkeys_inter brk_bkeys_pool rng_bkeys) = 2%nat →
  head (filter (λ bk, is_elimination_bkey (bkeys_inter brk_bkeys_pool rng_bkeys)
                        (bkeys_inter frm_bkeys_pool rng_bkeys) bk = true) rng_bkeys)
    = Some bkey →
  eliminations_step brk_bkeys_pool frm_bkeys_pool d rng_bkeys = Ok d' →
  ∃ v, d' = <[bkey := v]> d.
Proof.
  intros Hl Hh. unfold eliminations_step. rewrite bool_decide_eq_true_2, Hh by done.
  destruct (sorted_partial _ _ _) as [srt|]; [|discriminate]. simpl.
  destruct srt as [|b1 [|b2 [|? ?]]]; try discriminate.
  destruct (unpack1 (b1 ∖ bkey)); [|discriminate]. simpl.
  destruct (unpack1 (b2 ∖ bkey)); [|discriminate]. simpl.
  destruct (assert_ _ _); [|discriminate]. simpl. intros [= <-]. by eexists.
Qed.

(** X9. [eliminations] returns the empty dict exactly when every reacting
    ring either does not hold exactly two breaking bonds or has no bond that
    passes the test of an elimination bond: a ring that passes both guards
    writes an entry or raises, and an entry is never removed. *)
Theorem eliminations_skipped_rings {graph} `{GraphLayer graph} (tsg : graph) :
  eliminations tsg = Ok ∅
  ↔ Forall (λ rng_bkeys,
      let brk_bkeys := bkeys_inter (ts_breaking_bond_keys tsg) rng_bkeys in
      let frm_bkeys := bkeys_inter (ts_forming_bond_keys tsg) rng_bkeys in
      length brk_bkeys ≠ 2%nat
      ∨ Forall (λ bk, is_elimination_bkey brk_bkeys frm_bkeys bk = false) rng_bkeys)
      (reacting_rings_bond_keys tsg).
Proof.
  unfold eliminations. split.
  - intros Hf.
    assert (∀ rngs (d : elim_dict),
              foldM (eliminations_step (ts_breaking_bond_keys tsg)
                       (ts_forming_bond_keys tsg)) d rngs = Ok ∅ →
              d = ∅
              ∧ Forall (λ rng_bkeys,
                  let brk_bkeys := bkeys_inter (ts_breaking_bond_keys tsg) rng_bkeys in
                  let frm_bkeys := bkeys_inter (ts_forming_bond_keys tsg) rng_bkeys in
                  length brk_bkeys ≠ 2%nat
                  ∨ Forall (λ bk, is_elimination_bkey brk_bkeys frm_bkeys bk = false)
                      rng_bkeys) rngs) as Hgen; [|by eapply Hgen].
    clear Hf. induction rngs as [|rng rngs IH]; intros d; simpl.
    { intros [= ->]. split; [done|constructor]. }
    destruct (eliminations_step _ _ d rng) as [d'|] eqn:Es; [|discriminate]. simpl.
    intros Hf. destruct (IH _ Hf) as [-> Hall].
    destruct (decide (length (bkeys_inter (ts_breaking_bond_keys tsg) rng) = 2%nat))
      as [Hl|Hl].
    + destruct (head (filter (λ bk, is_elimination_bkey
                                      (bkeys_inter (ts_breaking_bond_keys tsg) rng)
                                      (bkeys_inter (ts_forming_bond_keys tsg) rng) bk
                                    = true) rng)) as [bkey|] eqn:Hh.
      * destruct (eliminations_step_taken _ _ _ _ _ _ Hl Hh Es) as [v Hv].
        symmetry in Hv. by apply insert_non_empty in Hv.
      * unfold eliminations_step in Es.
        rewrite bool_decide_eq_true_2, Hh in Es by done. injection Es as ->.
        split; [done|]. constructor; [|done].
        right. by apply filter_nil_all_false, head_None.
    + unfold eliminations_step in Es.
      rewrite bool_decide_eq_false_2 in Es by done. injection Es as ->.
      split; [done|]. constructor; [by left|done].
  - generalize (∅ : elim_dict) as d.
    induction (reacting_rings_bond_keys tsg) as [|rng rngs IH]; intros d Hall; [done|].
    apply Forall_cons in Hall as [Hrng Hall]. simpl.
    assert (eliminations_step (ts_breaking_bond_keys tsg) (ts_forming_bond_keys tsg) d rng
            = Ok d) as ->; [|by apply IH].
    unfold eliminations_step. destruct Hrng as [Hlen|Hno].
    + by rewrite bool_decide_eq_false_2.
    + destruct (bool_decide _); [|done].
      assert (filter (λ bk, is_elimination_bkey
                              (bkeys_inter (ts_breaking_bond_keys tsg) rng)
                              (bkeys_inter (ts_forming_bond_keys tsg) rng) bk = true) rng
              = []) as ->; [|done].
      by apply filter_all_false.
Qed.

Lemma eliminations_skipped_rings_witness :
  length (reacting_rings_bond_keys skipped_rings_graph) = 2%nat
  ∧ length (bkeys_inter (ts_breaking_bond_keys skipped_rings_graph)
              [{[1; 2]}; {[2; 3]}; {[3; 4]}; {[4; 5]}; {[5; 6]}; {[1; 6]}]) = 2%nat
  ∧ eliminations skipped_rings_graph = Ok ∅.
Proof.
  split; [reflexivity|]. split; [reflexivity|].
  apply (eliminations_skipped_rings skipped_rings_graph).
  constructor; [left; by_compute|]. constructor; [right; by_compute|]. constructor.
Defined.

Lemma sorted_two_breaking (brk_bkeys frm_bkeys rng_bkeys : list BondKey) (bkey : BondKey) :
  length brk_bkeys = 2%nat →
  head (filter (λ bk, is_elimination_bkey brk_bkeys frm_bkeys bk = true) rng_bkeys)
    = Some bkey →
  ∃ b1 b2, sorted_partial (λ a b : Z, bool_decide (a < b)) (common_atom bkey) brk_bkeys
           = Ok [b1; b2] ∧ [b1; b2] ≡ₚ brk_bkeys.
Proof.
  intros H2 He.
  apply head_Some_elem_of, list_elem_of_filter in He as [He _].
  apply is_elimination_bkey_inv in He as [Hall _].
  destruct (sorted_partial_Ok (λ a b : Z, bool_decide (a < b)) (common_atom bkey) brk_bkeys)
    as (srt & Hsrt & Hperm).
  { intros bk Hbk. apply next_iter_Ok. by apply Hall. }
  pose proof (Permutation_length Hperm) as Hlen. rewrite H2 in Hlen.
  destruct srt as [|b1 [|b2 [|b3 srt]]]; try discriminate.
  by exists b1, b2.
Qed.

(** X10. When the bond that [eliminations] takes for the elimination bond
    of a ring is itself one of the two breaking bonds of the ring (two
    breaking bonds that meet in an atom), the unpacking of a leaving atom
    fails: the call raises [ValueError], provided the rings before raise
    nothing. *)
Theorem eliminations_breaking_elimination_bond {graph} `{GraphLayer graph} (tsg : graph)
    (pre suf : list (list BondKey)) (rng_bkeys : list BondKey) (bkey : BondKey) :
  let brk_bkeys := bkeys_inter (ts_breaking_bond_keys tsg) rng_bkeys in
  let frm_bkeys := bkeys_inter (ts_forming_bond_keys tsg) rng_bkeys in
  reacting_rings_bond_keys tsg = pre ++ rng_bkeys :: suf →
  is_Ok (foldM (eliminations_step (ts_breaking_bond_keys tsg) (ts_forming_bond_keys tsg))
           ∅ pre) →
  length brk_bkeys = 2%nat →
  head (filter (λ bk, is_elimination_bkey brk_bkeys frm_bkeys bk = true) rng_bkeys)
    = Some bkey →
  bkey ∈ brk_bkeys →
  eliminations tsg = Raise ValueError.
Proof.
  intros brk_bkeys frm_bkeys Hrngs [d Hpre] H2 He Hin. unfold eliminations.
  rewrite Hrngs, foldM_app, Hpre. simpl.
  destruct (sorted_two_breaking _ _ _ _ H2 He) as (b1 & b2 & Hsrt & Hperm).
  assert (eliminations_step (ts_breaking_bond_keys tsg) (ts_forming_bond_keys tsg) d rng_bkeys
          = Raise ValueError) as ->; [|done].
  unfold eliminations_step. fold brk_bkeys frm_bkeys.
  rewrite bool_decide_eq_true_2 by done. rewrite He, Hsrt. simpl.
  assert (unpack1 (bkey ∖ bkey) = Raise ValueError) as Hself.
  { assert (bkey ∖ bkey = ∅) as -> by set_solver.
    unfold unpack1. by rewrite elements_empty. }
  rewrite <- Hperm in Hin.
  apply elem_of_cons in Hin as [->|Hin].
  - by rewrite Hself.
  - apply list_elem_of_singleton in Hin as ->.
    destruct (unpack1 (b1 ∖ b2)) as [l1|e] eqn:E1; simpl.
    + by rewrite Hself.
    + by rewrite (unpack1_raise _ _ E1).
Qed.

Lemma eliminations_breaking_elimination_bond_witness :
  eliminations adjacent_breaking_graph = Raise ValueError.
Proof.
  apply (eliminations_breaking_elimination_bond adjacent_breaking_graph [] []
           [{[3; 4]}; {[1; 4]}; {[2; 3]}; {[1; 2]}] {[2; 3]}).
  - reflexivity.
  - by eexists.
  - by_compute.
  - reflexivity.
  - by_compute.
Defined.

(** ** More on [ts_reacting_electron_direction] *)

(** X11. Whatever [ts_reacting_electron_direction] returns for a key, the
    key is a reacting atom; the x-axis bond is undefined exactly when the key
    is neither a transferring atom nor a vinyl nor a sigma radical atom, and
    then the y-axis bond and the angle are undefined too; a defined x-axis
    bond starts at the key and has its angle; a y-axis bond is given only for
    a vinyl radical atom, with the angle 4π/3: it starts at the key and ends
    at a neighbour of the key in the reactants that is neither the key nor
    the opposite atom of the vinyl bond. *)
Theorem ts_reacting_electron_direction_shape {graph} `{GraphLayer graph} (tsg : graph)
    (key : Z) (xbnd_key ybnd_key : option (Z * Z)) (phi : option angle) :
  ts_reacting_electron_direction tsg key = Ok (xbnd_key, ybnd_key, phi) →
  let rcts_gra := ts_reactants_graph_without_stereo tsg in
  key ∈ ts_reacting_atom_keys tsg
  ∧ (xbnd_key = None
     ↔ ts_transferring_atoms tsg !! key = None
       ∧ items_get key (vinyl_radical_atom_bond_keys rcts_gra) = None
       ∧ sigma_radical_atom_bond_keys rcts_gra !! key = None)
  ∧ (xbnd_key = None → ybnd_key = None ∧ phi = None)
  ∧ (∀ k o, xbnd_key = Some (k, o) → k = key ∧ is_Some phi)
  ∧ (∀ k n, ybnd_key = Some (k, n) →
       k = key ∧ phi = Some angle_4pi_3
       ∧ ∃ opp nkeys, xbnd_key = Some (key, opp) ∧ opp ≠ key ∧ n ≠ key ∧ n ≠ opp
                      ∧ atoms_neighbor_atom_keys rcts_gra !! key = Some nkeys
                      ∧ n ∈ nkeys).
Proof.
  unfold ts_reacting_electron_direction.
  destruct (bool_decide (key ∈ ts_reacting_atom_keys tsg)) eqn:Ek; [|discriminate].
  apply bool_decide_eq_true in Ek. simpl.
  destruct (ts_transferring_atoms tsg !! key) as [[dkey ?]|] eqn:Et.
  { intros [= <- <- <-]. simpl.
    split; [done|]. split; [split; [done|by intros (? & _)]|].
    split; [done|]. split; [|done].
    intros k o [= <- <-]. by eauto. }
  destruct (items_get key _) as [vin_bkey|] eqn:Ev.
  { destruct (unpack1 _) as [opp|] eqn:Eo; [|discriminate]. simpl.
    apply unpack1_Ok in Eo.
    destruct (getitem _ key) as [nkeys|] eqn:En; [|discriminate]. simpl.
    apply getitem_Ok in En. intros [= <- <- <-]. simpl.
    split; [done|]. split; [split; [done|by intros (_ & ? & _)]|].
    split; [done|]. split; [intros k o [= <- <-]; by eauto|].
    intros k n Hy. destruct (head _) as [n'|] eqn:Eh; [|done].
    simpl in Hy. injection Hy as <- <-.
    apply head_Some_elem_of, list_elem_of_filter in Eh as [Hn Hin].
    split; [done|]. split; [done|].
    exists opp, nkeys. rewrite !not_elem_of_cons in Hn.
    repeat split; try done; [set_solver|naive_solver|naive_solver]. }
  destruct (sigma_radical_atom_bond_keys _ !! key) as [sig_bkey|] eqn:Es.
  { destruct (unpack1 _) as [nkey|] eqn:Eo; [|discriminate]. simpl.
    intros [= <- <- <-]. simpl.
    split; [done|]. split; [split; [done|by intros (_ & _ & ?)]|].
    split; [done|]. split; [|done].
    intros k o [= <- <-]. by eauto. }
  intros [= <- <- <-]. simpl. by repeat split.
Qed.

Lemma ts_reacting_electron_direction_shape_witness :
  ts_reacting_electron_direction vinyl_graph 1
  = Ok (Some (1, 2), Some (1, 5), Some angle_4pi_3)
  ∧ ∃ opp nkeys, Some (1, 2) = Some (1, opp) ∧ opp ≠ 1 ∧ 5 ≠ 1 ∧ 5 ≠ opp
      ∧ atoms_neighbor_atom_keys (ts_reactants_graph_without_stereo vinyl_graph) !! 1
        = Some nkeys
      ∧ 5 ∈ nkeys.
Proof.
  assert (ts_reacting_electron_direction vinyl_graph 1
          = Ok (Some (1, 2), Some (1, 5), Some angle_4pi_3)) as Hd by reflexivity.
  split; [exact Hd|].
  destruct (ts_reacting_electron_direction_shape vinyl_graph 1 _ _ _ Hd)
    as (_ & _ & _ & _ & Hy).
  by destruct (Hy 1 5 eq_refl) as (_ & _ & Hex).
Defined.

(** ** [vinyl_addition_candidates] *)

Lemma foldM_total {A B} (f : B → A → result B) (l : list A) (acc : B) :
  (∀ b x, x ∈ l → is_Ok (f b x)) → is_Ok (foldM f acc l).
Proof.
  revert acc. induction l as [|x l IH]; intros acc Hl; simpl; [by eexists|].
  destruct (Hl acc x) as [b ->]; [left|]. simpl. apply IH.
  intros b' y Hy. apply Hl. by right.
Qed.

Lemma two_atom_key_other (f : gset Z) (key : Z) :
  size f = 2%nat → key ∈ f → ∃ ent, f ∖ {[ key ]} = {[ ent ]} ∧ f = {[ key; ent ]} ∧ ent ≠ key.
Proof.
  intros (x & y & Hxy & ->)%size_2_inv Hin.
  apply elem_of_union in Hin as [->%elem_of_singleton| ->%elem_of_singleton].
  - exists y. repeat split; [set_solver|done..].
  - exists x. repeat split; [set_solver|set_solver|done].
Qed.

Lemma vinyl_addition_candidates_step_inv (frm_bkeys : list BondKey)
    (m m' : gmap (gset Z) (Z * Z)) (key : Z) (bkey : BondKey) :
  vinyl_addition_candidates_step frm_bkeys m (key, bkey) = Ok m' →
  (m' = m ∧ ∀ f, f ∈ frm_bkeys → key ∉ f)
  ∨ ∃ f ent, f ∈ frm_bkeys ∧ key ∈ f ∧ f ∖ {[ key ]} = {[ ent ]}
             ∧ m' = <[bkey := (key, ent)]> m.
Proof.
  unfold vinyl_addition_candidates_step.
  destruct (head _) as [f|] eqn:Eh.
  - destruct (unpack1 _) as [ent|] eqn:Ee; [|discriminate]. simpl. intros [= <-].
    apply head_Some_elem_of, list_elem_of_filter in Eh as [Hk Hf].
    apply unpack1_Ok in Ee. right. by exists f, ent.
  - intros [= <-]. left. split; [done|]. intros f Hf Hk.
    assert (f ∈ filter (λ bk, key ∈ bk) frm_bkeys) as Hin by by apply list_elem_of_filter.
    destruct (filter _ frm_bkeys); [by apply elem_of_nil in Hin|done].
Qed.

(** X12. On a TS graph whose forming bond keys hold two atoms each,
    [vinyl_addition_candidates] returns a dict. Each of its entries, vinyl
    bond ↦ (radical atom, entering atom), is for a vinyl centre candidate of
    the reactants, and the radical atom with the entering atom is a forming
    bond of the graph; every candidate whose atom is on a forming bond has
    its vinyl bond in the dict, and the others add nothing. *)
Theorem vinyl_addition_candidates_forming {graph} `{GraphLayer graph}
    `{GraphLayerExt graph} (tsg : graph) (min_ncount : Z) :
  let vin_dct :=
    vinyl_center_candidates (ts_reactants_graph_without_stereo tsg) min_ncount in
  Forall (λ f, size f = 2%nat) (ts_forming_bond_keys tsg) →
  ∃ vin_add_dct, vinyl_addition_candidates tsg min_ncount = Ok vin_add_dct
    ∧ (∀ bkey key ent, vin_add_dct !! bkey = Some (key, ent) →
         (key, bkey) ∈ vin_dct ∧ {[ key; ent ]} ∈ ts_forming_bond_keys tsg ∧ ent ≠ key)
    ∧ (∀ key bkey f, (key, bkey) ∈ vin_dct → f ∈ ts_forming_bond_keys tsg → key ∈ f →
         bkey ∈ dom vin_add_dct).
Proof.
  intros vin_dct Hsize. rewrite Forall_forall in Hsize.
  unfold vinyl_addition_candidates. fold vin_dct.
  destruct (foldM_total (vinyl_addition_candidates_step (ts_forming_bond_keys tsg))
              vin_dct ∅) as [d Hd].
  { intros m [key bkey] _. unfold vinyl_addition_candidates_step.
    destruct (head _) as [f|] eqn:Eh; [|by eexists].
    apply head_Some_elem_of, list_elem_of_filter in Eh as [Hk Hf].
    destruct (two_atom_key_other f key (Hsize _ Hf) Hk) as (ent & -> & _).
    rewrite unpack1_singleton. by eexists. }
  exists d. split; [done|]. split.
  - intros bkey key ent Hk.
    apply (foldM_entries (vinyl_addition_candidates_step (ts_forming_bond_keys tsg))
             (λ bkey v, (v.1, bkey) ∈ vin_dct
                        ∧ {[ v.1; v.2 ]} ∈ ts_forming_bond_keys tsg ∧ v.2 ≠ v.1)
             vin_dct) with (m0 := ∅) (m := d) (k := bkey) (v := (key, ent)); try done.
    intros m [key' bkey'] m' Hin Hs.
    apply vinyl_addition_candidates_step_inv in Hs
      as [[-> _]|(f & ent' & Hf & Hkf & Hent & ->)]; [by left|].
    right. exists bkey', (key', ent'). split; [done|]. simpl.
    destruct (two_atom_key_other f key' (Hsize _ Hf) Hkf) as (e & He & Hfe & Hne).
    assert (e = ent') as -> by (rewrite He in Hent; set_solver).
    by rewrite <- Hfe.
  - intros key bkey f (pre & suf & Hl)%list_elem_of_split Hf Hkf.
    rewrite Hl in Hd. apply foldM_split_inv in Hd as (m1 & m2 & _ & Hs & Hrest).
    apply vinyl_addition_candidates_step_inv in Hs as [[_ Hno]|(f' & ent & _ & _ & _ & ->)].
    { by destruct (Hno f Hf). }
    eapply (foldM_dom_mono (vinyl_addition_candidates_step (ts_forming_bond_keys tsg)));
      [|exact Hrest|].
    + intros m [k b] m' Hs.
      apply vinyl_addition_candidates_step_inv in Hs as [[-> _]|(? & ? & _ & _ & _ & ->)];
        [done|]. rewrite dom_insert_L. set_solver.
    + rewrite dom_insert_L. set_solver.
Qed.

Lemma vinyl_addition_candidates_forming_witness :
  vinyl_addition_candidates vinyl_graph 1 = Ok {[ {[1; 2]} := (1, 6) ]}
  ∧ {[ 1; 6 ]} ∈ ts_forming_bond_keys vinyl_graph.
Proof.
  destruct (vinyl_addition_candidates_forming vinyl_graph 1) as (d & Hd & Hent & _).
  - by_compute.
  - assert (d = {[ {[1; 2]} := (1, 6) ]}) as ->.
    { assert (Ok d = Ok ({[ {[1; 2]} := (1, 6) ]} : gmap (gset Z) (Z * Z))) as [= ->];
        [|done]. rewrite <- Hd. reflexivity. }
    split; [exact Hd|]. by destruct (Hent {[1; 2]} 1 6) as (_ & ? & _).
Defined.

(** ** More on [constrained_1_2_insertion_local_parities] *)

(** X13. When a rigid planar bond has both its atoms stereogenic and one of
    them is on no forming bond, [constrained_1_2_insertion_local_parities]
    raises [StopIteration]: the search for the forming bond of that atom has
    no default (the rigid bonds before raising nothing, and the forming bonds
    holding two atoms each). *)
Theorem constrained_insertion_no_forming_bond {graph} `{GraphLayer graph} (loc_tsg : graph)
    (pre suf : list BondKey) (bkey : BondKey) (key1 key2 : Z) (p_a1 p_a2 : bool) :
  rigid_planar_bond_keys (ts_reactants_graph_without_stereo loc_tsg)
    = pre ++ bkey :: suf →
  is_Ok (foldM (constrained_step loc_tsg) ∅ pre) →
  elements bkey = [key1; key2] →
  stored_parity loc_tsg (inl key1) p_a1 → stored_parity loc_tsg (inl key2) p_a2 →
  Forall (λ f, size f = 2%nat) (ts_forming_bond_keys loc_tsg) →
  (∀ f, f ∈ ts_forming_bond_keys loc_tsg → key1 ∉ f)
  ∨ (∀ f, f ∈ ts_forming_bond_keys loc_tsg → key2 ∉ f) →
  constrained_1_2_insertion_local_parities loc_tsg = Raise StopIteration.
Proof.
  intros Hl [d Hpre] Hb Hp1 Hp2 Hsize Hno.
  unfold constrained_1_2_insertion_local_parities.
  rewrite Hl, foldM_app, Hpre. simpl.
  assert (constrained_step loc_tsg d bkey = Raise StopIteration) as ->; [|done].
  assert (∀ k p, stored_parity loc_tsg (inl k) p →
            is_Some (filter_by_value (stereo_parities loc_tsg)
                       (λ x, bool_decide (is_Some x)) !! (inl k : Z + gset Z))) as Hsome.
  { intros k p Hp. exists (Some p). apply map_lookup_filter_Some. split; [done|].
    simpl. first [done | apply bool_decide_eq_true; by eexists]. }
  assert (∀ k, (∀ f, f ∈ ts_forming_bond_keys loc_tsg → k ∉ f) →
            next_bond_with (ts_forming_bond_keys loc_tsg) k = Raise StopIteration) as Hnone.
  { intros k Hk. unfold next_bond_with.
    destruct (head _) as [f|] eqn:Eh; [|done].
    apply head_Some_elem_of, list_elem_of_filter in Eh as [Hin Hf]. by destruct (Hk f). }
  unfold constrained_step. rewrite Hb. simpl.
  rewrite !bool_decide_eq_true_2 by eauto. simpl.
  destruct Hno as [Hno|Hno].
  - by rewrite (Hnone key1 Hno).
  - destruct (next_bond_with _ key1) as [f1|e] eqn:E1; simpl.
    + unfold next_bond_with in E1. destruct (head _) as [f|] eqn:Eh; [|done].
      injection E1 as ->.
      apply head_Some_elem_of, list_elem_of_filter in Eh as [Hin Hf].
      rewrite Forall_forall in Hsize.
      destruct (two_atom_key_other f1 key1 (Hsize _ Hf) Hin) as (ent & -> & _).
      rewrite unpack1_singleton. simpl. by rewrite (Hnone key2 Hno).
    + unfold next_bond_with in E1. destruct (head _); [done|]. by injection E1 as <-.
Qed.

Lemma constrained_insertion_no_forming_bond_witness :
  constrained_1_2_insertion_local_parities half_insertion_graph = Raise StopIteration.
Proof.
  apply (constrained_insertion_no_forming_bond half_insertion_graph [] [] {[1; 2]}
           2 1 false true).
  - reflexivity.
  - by eexists.
  - reflexivity.
  - reflexivity.
  - reflexivity.
  - by_compute.
  - left. intros f Hf. apply (bool_decide_unpack _).
    revert f Hf. apply Forall_forall. by_compute.
Defined.

(** ** [bond_stereo_sorted_neighbor_keys] of [_04class] *)

Lemma sorted_placeholders (pri_dct : gmap Z prio) (n : nat) :
  sorted prio_ltb (sort_value_ pri_dct) (replicate n None) = replicate n None.
Proof.
  induction n as [|n IH]; [done|]. simpl. rewrite IH. by destruct n.
Qed.

Lemma count_placeholders (l : list Z) (n : nat) :
  length (filter (λ k : option Z, k = None) ((Some <$> l) ++ replicate n None)) = n.
Proof.
  rewrite filter_app, length_app.
  assert (filter (λ k : option Z, k = None) (Some <$> l) = []) as ->.
  { induction l as [|x l IH]; [done|]. rewrite fmap_cons, filter_cons.
    by rewrite decide_False. }
  assert (filter (λ k : option Z, k = None) (replicate n None) = replicate n None) as ->.
  { induction n as [|n IH]; [done|]. simpl. rewrite filter_cons, decide_True by done.
    by rewrite IH. }
  simpl. by rewrite length_replicate.
Qed.

Lemma collect_neighbor_keys_inv {graph} `{GraphLayer graph} `{GraphLayerExt graph}
    (gra : graph) (key1 key2 : Z) (nkeys : list (option Z) * list (option Z)) :
  Deprecated.collect_neighbor_keys gra key1 key2 = Ok nkeys →
  ∃ (s1 s2 : gset Z) nhyd1 nhyd2,
    atom_implicit_hydrogens gra !! key1 = Some nhyd1
    ∧ atom_implicit_hydrogens gra !! key2 = Some nhyd2
    ∧ nkeys = ((Some <$> elements s1) ++ replicate nhyd1 None,
               (Some <$> elements s2) ++ replicate nhyd2 None).
Proof.
  unfold Deprecated.collect_neighbor_keys.
  destruct (foldM _ _ _) as [[s1 s2]|]; [|discriminate]. simpl.
  destruct (getitem _ key1) as [n1|] eqn:E1; [|discriminate]. simpl.
  destruct (getitem _ key2) as [n2|] eqn:E2; [|discriminate]. simpl.
  intros [= <-]. apply getitem_Ok in E1, E2. by exists s1, s2, n1, n2.
Qed.

(** X14. When [bond_stereo_sorted_neighbor_keys] returns without a warning,
    each of the two tuples holds at most two keys, in ascending order of
    priority, and as many placeholders as its bond atom has implicit
    hydrogens. *)
Theorem bond_stereo_without_warning {graph} `{GraphLayer graph} `{GraphLayerExt graph}
    (gra : graph) (key1 key2 : Z) (pri : option (gmap Z prio))
    (nkeys1 nkeys2 : list (option Z)) :
  let gra0 := without_dummy_atoms gra in
  let pri_dct := match pri with
                 | None => local_stereo_priorities gra0
                 | Some d => d
                 end in
  let ascending :=
    StronglySorted (λ a b, prio_le (sort_value_ pri_dct a) (sort_value_ pri_dct b)) in
  Deprecated.bond_stereo_sorted_neighbor_keys gra key1 key2 pri
    = ([], Ok (nkeys1, nkeys2)) →
  (length nkeys1 ≤ 2)%nat ∧ (length nkeys2 ≤ 2)%nat
  ∧ ascending nkeys1 ∧ ascending nkeys2
  ∧ atom_implicit_hydrogens gra0 !! key1
    = Some (length (filter (λ k, k = None) nkeys1))
  ∧ atom_implicit_hydrogens gra0 !! key2
    = Some (length (filter (λ k, k = None) nkeys2)).
Proof.
  intros gra0 pri_dct ascending. unfold Deprecated.bond_stereo_sorted_neighbor_keys.
  fold gra0. fold pri_dct.
  destruct (Deprecated.collect_neighbor_keys gra0 key1 key2) as [nkeys|] eqn:Ec;
    [|discriminate].
  destruct (bool_decide (2 < length nkeys.1)%nat || bool_decide (2 < length nkeys.2)%nat)
    eqn:El; [discriminate|].
  apply orb_false_iff in El as [El1 El2]. apply bool_decide_eq_false in El1, El2.
  intros [= <- <-].
  apply collect_neighbor_keys_inv in Ec as (s1 & s2 & n1 & n2 & Hn1 & Hn2 & ->).
  simpl in *. rewrite !length_sorted.
  split; [lia|]. split; [lia|].
  split; [apply sorted_prio_sorted|]. split; [apply sorted_prio_sorted|].
  by rewrite !(sorted_perm prio_ltb), !count_placeholders.
Qed.

Lemma bond_stereo_without_warning_witness :
  Deprecated.bond_stereo_sorted_neighbor_keys hydrogen_bond_graph 1 2 None
  = ([], Ok ([None; Some 3], [None; Some 5]))
  ∧ atom_implicit_hydrogens (without_dummy_atoms hydrogen_bond_graph) !! 1
    = Some (length (filter (λ k, k = None) [None; Some 3])).
Proof.
  assert (Deprecated.bond_stereo_sorted_neighbor_keys hydrogen_bond_graph 1 2 None
          = ([], Ok ([None; Some 3], [None; Some 5]))) as Hb by reflexivity.
  split; [exact Hb|].
  by destruct (bond_stereo_without_warning hydrogen_bond_graph 1 2 None _ _ Hb)
    as (_ & _ & _ & _ & Hn & _).
Defined.

(** X15. When in every view that [bond_stereo_sorted_neighbor_keys] looks at
    (the reactants and the products of a TS graph, the graph itself
    otherwise) one of the two bond atoms is tetrahedral, no neighbour is
    collected: for bond atoms with at most two implicit hydrogens, the call
    returns without warning the placeholders of the hydrogens alone. *)
Theorem bond_stereo_tetrahedral_end {graph} `{GraphLayer graph} `{GraphLayerExt graph}
    (gra : graph) (key1 key2 : Z) (pri : option (gmap Z prio)) (nhyd1 nhyd2 : nat) :
  let gra0 := without_dummy_atoms gra in
  let gras := if is_ts_graph gra0 then ts_reagents_graphs_without_stereo gra0
              else [gra0] in
  Forall (λ gra_, key1 ∈ tetrahedral_atom_keys gra_ ∨ key2 ∈ tetrahedral_atom_keys gra_)
    gras →
  atom_implicit_hydrogens gra0 !! key1 = Some nhyd1 →
  atom_implicit_hydrogens gra0 !! key2 = Some nhyd2 →
  (nhyd1 ≤ 2)%nat → (nhyd2 ≤ 2)%nat →
  Deprecated.bond_stereo_sorted_neighbor_keys gra key1 key2 pri
  = ([], Ok (replicate nhyd1 None, replicate nhyd2 None)).
Proof.
  intros gra0 gras Htet Hn1 Hn2 Hle1 Hle2.
  unfold Deprecated.bond_stereo_sorted_neighbor_keys. fold gra0.
  assert (Deprecated.collect_neighbor_keys gra0 key1 key2
          = Ok (replicate nhyd1 None, replicate nhyd2 None)) as ->.
  { unfold Deprecated.collect_neighbor_keys. fold gras.
    assert (foldM (Deprecated.collect_step key1 key2) (∅, ∅) gras = Ok (∅, ∅)) as ->.
    { generalize ((∅, ∅) : gset Z * gset Z) as acc.
      induction Htet as [|g l Hg _ IH]; intros acc; [done|]. simpl.
      assert (Deprecated.collect_step key1 key2 acc g = Ok acc) as ->; [|apply IH].
      unfold Deprecated.collect_step.
      destruct Hg as [Hg|Hg].
      - rewrite (bool_decide_eq_false_2 (key1 ∉ _)) by (intros Hc; by apply Hc). done.
      - rewrite (bool_decide_eq_false_2 (key2 ∉ _)) by (intros Hc; by apply Hc).
        by rewrite andb_false_r. }
    simpl. unfold getitem. rewrite Hn1, Hn2. simpl. by rewrite elements_empty. }
  simpl. rewrite !length_replicate.
  rewrite !bool_decide_eq_false_2 by lia. simpl.
  by rewrite !sorted_placeholders.
Qed.

Lemma bond_stereo_tetrahedral_end_witness :
  Deprecated.bond_stereo_sorted_neighbor_keys tetrahedral_bond_graph 1 2 None
  = ([], Ok ([None; None], [None])).
Proof.
  apply (bond_stereo_tetrahedral_end tetrahedral_bond_graph 1 2 None 2 1).
  - constructor; [left; by_compute|constructor].
  - reflexivity.
  - reflexivity.
  - lia.
  - lia.
Defined.

(** ** [zmatrix_sorted_reactants_keys] *)

Lemma StronglySorted_le_lt (l : list Z) :
  NoDup l → StronglySorted Z.le l → StronglySorted Z.lt l.
Proof.
  intros Hnd Hs. induction Hs as [|x l Hs IH Hall]; [constructor|].
  apply NoDup_cons in Hnd as [Hx Hnd]. constructor; [by apply IH|].
  rewrite Forall_forall in *. intros y Hy.
  assert (x ≠ y) by (intros ->; done). specialize (Hall y Hy). lia.
Qed.

Lemma StronglySorted_weaken {A} (R R' : A → A → Prop) (l : list A) :
  (∀ a b, R a b → R' a b) → StronglySorted R l → StronglySorted R' l.
Proof.
  intros HR. induction 1 as [|x l Hs IH Hall]; constructor; [done|].
  eapply Forall_impl; [exact Hall|]. intros y. apply HR.
Qed.

Lemma reactant_keys_ascending {graph} `{GraphLayerExt graph} (g : graph) :
  StronglySorted Z.lt (reactant_keys g) ∧ ∀ k, k ∈ reactant_keys g ↔ k ∈ atom_keys g.
Proof.
  unfold reactant_keys.
  pose proof (sorted_perm (λ a b : Z, bool_decide (a < b)) id (elements (atom_keys g)))
    as Hp.
  split.
  - apply StronglySorted_le_lt.
    + rewrite Hp. apply NoDup_elements.
    + eapply StronglySorted_weaken;
        [|apply (sorted_StronglySorted (λ a b : Z, bool_decide (a < b)) id)].
      * intros a b. simpl. rewrite bool_decide_eq_false. unfold id. lia.
      * intros a b. rewrite bool_decide_eq_true, bool_decide_eq_false. lia.
      * intros a b c. rewrite !bool_decide_eq_false. lia.
  - intros k. by rewrite Hp, elem_of_elements.
Qed.

Lemma sorted_reverse_perm {A K} (ltb : K → K → bool) (key : A → K) (l : list A) :
  sorted_reverse ltb key l ≡ₚ l.
Proof.
  unfold sorted_reverse. by rewrite reverse_Permutation, sorted_perm, reverse_Permutation.
Qed.

(** X16. When [zmatrix_sorted_reactants_keys] returns reactant keys, the
    graph is a bimolecular TS graph without reacting ring, and each tuple
    holds the atom keys of one reactant in strictly ascending order; with an
    atom transfer the reactants are the connected components of the
    reactants graph, each once, and without one they are these components as
    sorted by size. *)
Theorem zmatrix_sorted_reactants_keys_tuples {graph} `{GraphLayer graph}
    `{GraphLayerExt graph} (tsg : graph) (rcts_keys : list (list Z)) :
  zmatrix_sorted_reactants_keys tsg = Ok (Some rcts_keys) →
  let rct_gras0 := connected_components (ts_reactants_graph_without_stereo_dummy tsg) in
  is_ts_graph tsg = true ∧ has_reacting_ring tsg = false ∧ is_bimolecular tsg = true
  ∧ ∃ rct_gras tra_dct,
      atom_transfers tsg = Ok tra_dct
      ∧ Forall2 (λ keys g, StronglySorted Z.lt keys ∧ ∀ k, k ∈ keys ↔ k ∈ atom_keys g)
          rcts_keys rct_gras
      ∧ (tra_dct ≠ ∅ → rct_gras ≡ₚ rct_gras0)
      ∧ (tra_dct = ∅ → rct_gras = sort_by_size rct_gras0).
Proof.
  unfold zmatrix_sorted_reactants_keys.
  destruct (is_ts_graph tsg); [|discriminate].
  destruct (has_reacting_ring tsg); [discriminate|].
  destruct (is_bimolecular tsg); [|discriminate]. simpl.
  destruct (atom_transfers tsg) as [tra_dct|]; [|discriminate]. simpl.
  intros [= <-]. repeat split; try done.
  eexists _, tra_dct. split; [done|]. split; [|split].
  - apply Forall2_fmap_l, Forall_Forall2_diag, Forall_forall.
    intros g _. apply reactant_keys_ascending.
  - intros Hne. rewrite (proj2 (truthy_true _)).
    + apply sorted_reverse_perm.
    + intros Hd. by apply dom_empty_iff_L in Hd.
  - intros ->. rewrite (proj2 (truthy_false _)); [done|]. by rewrite dom_empty_L.
Qed.

Lemma zmatrix_sorted_reactants_keys_tuples_witness :
  zmatrix_sorted_reactants_keys abstraction_graph = Ok (Some [[2; 3]; [1]])
  ∧ is_bimolecular abstraction_graph = true.
Proof.
  assert (zmatrix_sorted_reactants_keys abstraction_graph = Ok (Some [[2; 3]; [1]])) as Hz
    by reflexivity.
  split; [exact Hz|].
  by destruct (zmatrix_sorted_reactants_keys_tuples abstraction_graph _ Hz) as (_ & _ & ? & _).
Defined.

(** X17. For a bimolecular TS graph without reacting ring that has an atom
    transfer and two reactants without a common atom, the reactant that
    holds a transferring atom comes first in the result of
    [zmatrix_sorted_reactants_keys]: the two reactants keep their order when
    the first one holds a transferring atom, and are exchanged when only the
    second one does. *)
Theorem zmatrix_transfer_reactant_first {graph} `{GraphLayer graph} `{GraphLayerExt graph}
    (tsg g1 g2 : graph) (tra_dct : gmap Z (Z * Z)) :
  is_ts_graph tsg = true → has_reacting_ring tsg = false → is_bimolecular tsg = true →
  connected_components (ts_reactants_graph_without_stereo_dummy tsg) = [g1; g2] →
  atom_keys g1 ## atom_keys g2 →
  atom_transfers tsg = Ok tra_dct →
  (atom_keys g1 ∩ dom tra_dct ≠ ∅ →
     zmatrix_sorted_reactants_keys tsg = Ok (Some [reactant_keys g1; reactant_keys g2]))
  ∧ (atom_keys g1 ∩ dom tra_dct = ∅ → atom_keys g2 ∩ dom tra_dct ≠ ∅ →
     zmatrix_sorted_reactants_keys tsg = Ok (Some [reactant_keys g2; reactant_keys g1])).
Proof.
  intros Hts Hring Hbi Hcomp Hdisj Htra.
  unfold zmatrix_sorted_reactants_keys. rewrite Hts, Hring, Hbi, Hcomp, Htra. simpl.
  unfold sorted_reverse. simpl. split.
  - intros H1. rewrite (proj2 (truthy_true _)) by set_solver.
    rewrite bool_decide_eq_false_2; [done|]. intros [Hsub _]. set_solver.
  - intros H1 H2. rewrite (proj2 (truthy_true _)) by set_solver.
    rewrite bool_decide_eq_true_2; [done|]. split; [set_solver|]. set_solver.
Qed.

Lemma zmatrix_transfer_reactant_first_witness :
  zmatrix_sorted_reactants_keys second_reactant_graph = Ok (Some [[3; 4]; [1; 2]]).
Proof.
  destruct (zmatrix_transfer_reactant_first second_reactant_graph
              (tg_restrict (tg_reactants second_reactant_graph) {[1; 2]})
              (tg_restrict (tg_reactants second_reactant_graph) {[3; 4]})
              {[ 4 := (3, 1) ]}) as [_ Hz].
  - reflexivity.
  - reflexivity.
  - reflexivity.
  - reflexivity.
  - by_compute.
  - reflexivity.
  - assert (zmatrix_sorted_reactants_keys second_reactant_graph
            = Ok (Some [reactant_keys (tg_restrict (tg_reactants second_reactant_graph) {[3; 4]});
                        reactant_keys (tg_restrict (tg_reactants second_reactant_graph) {[1; 2]})]))
      as Hz' by (apply Hz; by_compute).
    exact Hz'.
Defined.

(** ** More on [atom_stereo_sorted_neighbor_keys] *)

Lemma StronglySorted_after {A} (R : A → A → Prop) (l1 l2 : list A) (x : A) :
  StronglySorted R (l1 ++ x :: l2) → Forall (R x) l2.
Proof.
  induction l1 as [|y l1 IH]; simpl; intros Hs.
  - by apply StronglySorted_inv in Hs as [_ Hall].
  - apply StronglySorted_inv in Hs as [Hs _]. by apply IH.
Qed.

(** X18. Without [self_apex], the keys that
    [atom_stereo_sorted_neighbor_keys] returns hold one placeholder per
    implicit hydrogen of the atom, and no placeholder comes after a neighbour
    that has an integer priority: implicit hydrogens rank lowest. *)
Theorem atom_stereo_placeholders_first {graph} `{GraphLayer graph} (gra : graph) (key : Z)
    (pri : option (gmap Z prio)) (nkeys : list (option Z)) :
  let gra0 := without_dummy_atoms gra in
  let pri_dct := match pri with
                 | None => local_stereo_priorities gra0
                 | Some d => d
                 end in
  atom_stereo_sorted_neighbor_keys gra key false pri = Ok nkeys →
  atom_implicit_hydrogens gra0 !! key = Some (length (filter (λ k, k = None) nkeys))
  ∧ ∀ l1 l2 k z, nkeys = l1 ++ Some k :: l2 → pri_dct !! k = Some (Fin z) → None ∉ l2.
Proof.
  intros gra0 pri_dct. unfold atom_stereo_sorted_neighbor_keys. fold gra0.
  destruct (substitutions gra0) as [subst_dct|]; [|discriminate]. simpl.
  destruct (atom_neighbor_atom_keys _ key) as [ns|]; [|discriminate]. simpl.
  destruct (getitem _ key) as [nhyd|] eqn:En; [|discriminate]. simpl.
  apply getitem_Ok in En. fold pri_dct. intros [= <-]. split.
  - by rewrite (sorted_perm prio_ltb), count_placeholders.
  - intros l1 l2 k z Hl Hk Hin.
    pose proof (sorted_prio_sorted (sort_value_ pri_dct)
                  ((Some <$> ns) ++ replicate nhyd None)) as Hs.
    rewrite Hl in Hs. apply StronglySorted_after in Hs.
    rewrite Forall_forall in Hs. specialize (Hs None Hin).
    unfold prio_le in Hs. simpl in Hs. by rewrite Hk in Hs.
Qed.

Lemma atom_stereo_placeholders_first_witness :
  atom_stereo_sorted_neighbor_keys hydrogen_bond_graph 1 false None
  = Ok [None; Some 2; Some 3]
  ∧ atom_implicit_hydrogens (without_dummy_atoms hydrogen_bond_graph) !! 1
    = Some (length (filter (λ k, k = None) [None; Some 2; Some 3])).
Proof.
  assert (atom_stereo_sorted_neighbor_keys hydrogen_bond_graph 1 false None
          = Ok [None; Some 2; Some 3]) as Ha by reflexivity.
  split; [exact Ha|].
  by destruct (atom_stereo_placeholders_first hydrogen_bond_graph 1 None _ Ha) as [Hn _].
Defined.

(** ** More on [sn2_local_stereo_reversal_flips] *)

Lemma foldM_insert_keys {V W} (f : gmap Z W → Z * V → result (gmap Z W))
    (l : list (Z * V)) :
  (∀ m x m', f m x = Ok m' → ∃ b, m' = <[x.1 := b]> m) →
  ∀ m0 m, foldM f m0 l = Ok m → dom m = dom m0 ∪ list_to_set l.*1.
Proof.
  intros Hstep. induction l as [|x l IH]; intros m0 m; simpl.
  - intros [= <-]. set_solver.
  - destruct (f m0 x) as [m1|] eqn:E; [|discriminate]. simpl.
    intros Hf. rewrite (IH _ _ Hf). destruct (Hstep _ _ _ E) as [b ->].
    rewrite dom_insert_L. set_solver.
Qed.

(** X19. When [sn2_local_stereo_reversal_flips] returns, its dict holds one
    flag for each substitution site of the graph and for no other atom. *)
Theorem sn2_flips_sites {graph} `{GraphLayer graph} (tsg : graph)
    (rflip_dct : gmap Z bool) :
  sn2_local_stereo_reversal_flips tsg = Ok rflip_dct →
  ∃ subst_dct, substitution_atom_transfers tsg = Ok subst_dct
               ∧ dom rflip_dct = dom subst_dct.
Proof.
  unfold sn2_local_stereo_reversal_flips.
  destruct (substitution_atom_transfers tsg) as [subst_dct|]; [|discriminate]. simpl.
  intros Hf. exists subst_dct. split; [done|].
  assert (∀ m x m', sn2_flip_step tsg m x = Ok m' → ∃ b, m' = <[x.1 := b]> m) as Hstep;
    [|rewrite (foldM_insert_keys (sn2_flip_step tsg) _ Hstep ∅ _ Hf)].
  2: { rewrite dom_empty_L, (left_id_L ∅ (∪)). symmetry. apply leibniz_equiv, dom_alt. }
  - intros m [t [d a]] m'. unfold sn2_flip_step.
    destruct (atom_stereo_sorted_neighbor_keys tsg t false None); [|discriminate]. simpl.
    destruct (list_index _ _); [|discriminate]. simpl.
    destruct (atom_stereo_sorted_neighbor_keys (ts_reverse tsg) t false None);
      [|discriminate]. simpl.
    intros [= <-]. by eexists.
Qed.

Lemma sn2_flips_sites_witness :
  ∃ subst_dct, substitution_atom_transfers sn2_graph = Ok subst_dct
               ∧ dom ({[ 2 := false ]} : gmap Z bool) = dom subst_dct.
Proof. apply (sn2_flips_sites sn2_graph {[ 2 := false ]}). reflexivity. Defined.

(** ** What the classifiers raise *)

(** X20. [atom_transfers] returns a dict exactly when every pair of a
    breaking and a forming bond either shares no atom or is a transfer (the
    two keys share one atom and hold one more atom each); otherwise it
    raises, and what it raises is the [ValueError] of a failed unpacking. *)
Theorem atom_transfers_returns_iff {graph} `{GraphLayer graph} (tsg : graph) :
  match atom_transfers tsg with
  | Ok _ =>
      Forall pair_ok (list_prod (ts_breaking_bond_keys tsg) (ts_forming_bond_keys tsg))
  | Raise e =>
      e = ValueError
      ∧ ¬ Forall pair_ok (list_prod (ts_breaking_bond_keys tsg) (ts_forming_bond_keys tsg))
  end.
Proof.
  destruct (atom_transfers tsg) as [m|e] eqn:E; unfold atom_transfers in E.
  - apply Forall_forall. intros p Hin.
    destruct (foldM_Ok_step _ _ _ _ _ E Hin) as (m1 & m2 & Hs).
    apply step_inv in Hs as [[He _]|(t & d & a & Ht & _)]; [by left|].
    right. by exists t, d, a.
  - split.
    + apply foldM_raise_inv in E as (m & p & _ & Hs). by eapply step_raise.
    + intros Hall. destruct (fold_transfers_total _ ∅ Hall) as [m Hm]. congruence.
Qed.

Lemma eliminations_step_raise (brk_bkeys_pool frm_bkeys_pool rng_bkeys : list BondKey)
    (d : elim_dict) (e : exn) :
  eliminations_step brk_bkeys_pool frm_bkeys_pool d rng_bkeys = Raise e →
  e = ValueError ∨ e = AssertionError "Unexpected multiple forming bonds:{tsg}".
Proof.
  unfold eliminations_step.
  destruct (bool_decide _) eqn:E2; [|done]. apply bool_decide_eq_true in E2.
  destruct (head _) as [bkey|] eqn:Eh; [|done].
  destruct (sorted_two_breaking _ _ _ _ E2 Eh) as (b1 & b2 & -> & _). simpl.
  destruct (unpack1 (b1 ∖ bkey)) eqn:E1; simpl;
    [|intros [= <-]; left; by eapply unpack1_raise].
  destruct (unpack1 (b2 ∖ bkey)) eqn:El2; simpl;
    [|intros [= <-]; left; by eapply unpack1_raise].
  destruct (bool_decide (length _ ≤ 1)%nat); simpl; [done|].
  intros [= <-]. by right.
Qed.

(** X21. [eliminations] raises nothing but the [ValueError] of a failed
    unpacking and the assertion error on multiple forming bonds; the search
    for the atom that a breaking bond shares with the elimination bond never
    fails, the elimination bond being chosen among the bonds that touch both
    breaking bonds. *)
Theorem eliminations_only_exceptions {graph} `{GraphLayer graph} (tsg : graph) (e : exn) :
  eliminations tsg = Raise e →
  e = ValueError ∨ e = AssertionError "Unexpected multiple forming bonds:{tsg}".
Proof.
  intros (m & rng & _ & Hs)%foldM_raise_inv. by eapply eliminations_step_raise.
Qed.

Lemma eliminations_only_exceptions_witness :
  eliminations adjacent_breaking_graph = Raise ValueError
  ∧ (ValueError = ValueError
     ∨ ValueError = AssertionError "Unexpected multiple forming bonds:{tsg}").
Proof.
  assert (eliminations adjacent_breaking_graph = Raise ValueError) as Hc by reflexivity.
  split; [exact Hc|]. exact (eliminations_only_exceptions adjacent_breaking_graph _ Hc).
Defined.

(** ** The warning of [bond_stereo_sorted_neighbor_keys] *)

Lemma fallback_neighbor_keys_inv {graph} `{GraphLayer graph} `{GraphLayerExt graph}
    (gra : graph) (key1 key2 : Z) (nkeys : list (option Z) * list (option Z)) :
  Deprecated.fallback_neighbor_keys gra key1 key2 = Ok nkeys →
  ∃ (s1 s2 : gset Z) nhyd1 nhyd2,
    bond_neighbor_atom_keys (without_bonds_by_orders gra [1 # 10; 9 # 10]%Q) key1 key2
      = Ok (s1, s2)
    ∧ atom_implicit_hydrogens gra !! key1 = Some nhyd1
    ∧ atom_implicit_hydrogens gra !! key2 = Some nhyd2
    ∧ nkeys = ((Some <$> elements s1) ++ replicate nhyd1 None,
               (Some <$> elements s2) ++ replicate nhyd2 None).
Proof.
  unfold Deprecated.fallback_neighbor_keys.
  destruct (bond_neighbor_atom_keys _ _ _) as [[s1 s2]|]; [|discriminate]. simpl.
  destruct (getitem _ key1) as [n1|] eqn:E1; [|discriminate]. simpl.
  destruct (getitem _ key2) as [n2|] eqn:E2; [|discriminate]. simpl.
  intros [= <-]. apply getitem_Ok in E1, E2. by exists s1, s2, n1, n2.
Qed.

Lemma elem_of_neighbors_placeholders (s : gset Z) (n : nat) (k : Z) :
  Some k ∈ (Some <$> elements s) ++ replicate n None ↔ k ∈ s.
Proof.
  rewrite elem_of_app, list_elem_of_fmap, elem_of_replicate. split.
  - intros [(k' & [= <-] & Hk)|[[=] _]]. by apply elem_of_elements.
  - intros Hk. left. exists k. split; [done|]. by apply elem_of_elements.
Qed.

(** X22. When [bond_stereo_sorted_neighbor_keys] returns after a warning,
    the warning is the only one, and the neighbours returned are those that
    the two bond atoms have in the graph without its bonds of the orders 0.1
    and 0.9, whatever was collected from the reactants and the products; the
    tuples are in ascending order of priority and hold as many placeholders
    as the bond atoms have implicit hydrogens, and may be longer than two. *)
Theorem bond_stereo_with_warning {graph} `{GraphLayer graph} `{GraphLayerExt graph}
    (gra : graph) (key1 key2 : Z) (pri : option (gmap Z prio)) (warnings : list string)
    (nkeys1 nkeys2 : list (option Z)) :
  let gra0 := without_dummy_atoms gra in
  let pri_dct := match pri with
                 | None => local_stereo_priorities gra0
                 | Some d => d
                 end in
  let ascending :=
    StronglySorted (λ a b, prio_le (sort_value_ pri_dct a) (sort_value_ pri_dct b)) in
  Deprecated.bond_stereo_sorted_neighbor_keys gra key1 key2 pri
    = (warnings, Ok (nkeys1, nkeys2)) →
  warnings ≠ [] →
  warnings = [Deprecated.unusual_neighbors_warning]
  ∧ (∃ s1 s2 : gset Z,
       bond_neighbor_atom_keys (without_bonds_by_orders gra0 [1 # 10; 9 # 10]%Q) key1 key2
         = Ok (s1, s2)
       ∧ (∀ k, Some k ∈ nkeys1 ↔ k ∈ s1) ∧ (∀ k, Some k ∈ nkeys2 ↔ k ∈ s2))
  ∧ ascending nkeys1 ∧ ascending nkeys2
  ∧ atom_implicit_hydrogens gra0 !! key1
    = Some (length (filter (λ k, k = None) nkeys1))
  ∧ atom_implicit_hydrogens gra0 !! key2
    = Some (length (filter (λ k, k = None) nkeys2)).
Proof.
  intros gra0 pri_dct ascending. unfold Deprecated.bond_stereo_sorted_neighbor_keys.
  fold gra0. fold pri_dct.
  destruct (Deprecated.collect_neighbor_keys gra0 key1 key2) as [nkeys|];
    [|by intros [= <-]].
  destruct (bool_decide (2 < length nkeys.1)%nat || bool_decide (2 < length nkeys.2)%nat);
    [|by intros [= <-]].
  destruct (Deprecated.fallback_neighbor_keys gra0 key1 key2) as [nkeys'|] eqn:Ef;
    [|discriminate].
  simpl. intros [= <- <- <-] _.
  apply fallback_neighbor_keys_inv in Ef as (s1 & s2 & n1 & n2 & Hb & Hn1 & Hn2 & ->).
  simpl. split; [done|]. split.
  { exists s1, s2. split; [done|].
    split; intros k; rewrite (sorted_perm prio_ltb); apply elem_of_neighbors_placeholders. }
  split; [apply sorted_prio_sorted|]. split; [apply sorted_prio_sorted|].
  by rewrite !(sorted_perm prio_ltb), !count_placeholders.
Qed.

Lemma bond_stereo_with_warning_witness :
  Deprecated.bond_stereo_sorted_neighbor_keys crowded_bond_graph 1 2 None
  = ([Deprecated.unusual_neighbors_warning], Ok ([Some 3; Some 4], [Some 5]))
  ∧ Deprecated.collect_neighbor_keys crowded_bond_graph 1 2
    = Ok ([Some 3; Some 6; Some 4], [Some 5])
  ∧ ∀ k, Some k ∈ [Some 3; Some 4] → k ≠ 6.
Proof.
  assert (Deprecated.bond_stereo_sorted_neighbor_keys crowded_bond_graph 1 2 None
          = ([Deprecated.unusual_neighbors_warning], Ok ([Some 3; Some 4], [Some 5])))
    as Hb by reflexivity.
  split; [exact Hb|]. split; [reflexivity|].
  destruct (bond_stereo_with_warning crowded_bond_graph 1 2 None _ _ _ Hb)
    as (_ & (s1 & s2 & Hs & Hk & _) & _); [done|].
  intros k Hin ->. apply Hk in Hin.
  assert (s1 = {[3; 4]}) as -> by (by injection Hs as <- _).
  revert Hin. apply (bool_decide_unpack _). by_compute.
Defined.
